(** * Coastline bounding and closure engine of pdf-map

    A shallow embedding of [src/features/coastline_handler.py], of the
    part of [src/map_dimensions.py] it uses and of [MapConfig] of
    [src/project_types.py].

    Modelling conventions.
    - Python floats are idealised as rationals ([Q]) kept in lowest terms:
      every arithmetic operation is followed by [Qred], so that numerically
      equal results are syntactically equal.  Comparisons are the boolean
      comparisons of [Q].  The crossing computation is also given with the
      four operations as parameters ([Rounded]), for what does not depend
      on how they round.
    - Python lists are mutable objects.  The lists that the code shares and
      mutates in place (coordinate lists stored in [open_coastlines], the
      per-side event lists of an intersection map) live in an explicit heap
      and are handled through their locations.
    - [str(uuid.uuid4())] is idealised as a collision-free supply of
      identifiers: a counter.
    - Raised exceptions are values of [Error]; a [while] loop is iterated
      with fuel and reports [OutOfFuel] when the fuel does not suffice. *)

From Stdlib Require Import QArith Bool String Lia Lqa Sorted.
From stdpp Require Import base list gmap.

Local Open Scope Q_scope.

(** ** Numbers *)

Definition fsub (a b : Q) : Q := Qred (a - b).
Definition fadd (a b : Q) : Q := Qred (a + b).
Definition fmul (a b : Q) : Q := Qred (a * b).
Definition fdiv (a b : Q) : Q := Qred (a / b).

(** [a < b] on floats *)
Definition Qlt_bool (a b : Q) : bool := negb (Qle_bool b a).
(** [a != b] on floats *)
Definition Qne_bool (a b : Q) : bool := negb (Qeq_bool a b).
(** [lo <= x <= hi] *)
Definition between (lo x hi : Q) : bool := Qle_bool lo x && Qle_bool x hi.

(** ** project_types.py *)

Definition Coord : Type := (Q * Q).
Definition Line : Type := list Coord.

(** tuple equality [c1 == c2] *)
Definition coord_eqb (c1 c2 : Coord) : bool :=
  Qeq_bool (fst c1) (fst c2) && Qeq_bool (snd c1) (snd c2).

(** ** map_dimensions.py *)

Inductive Side : Type := TOP | RIGHT | BOTTOM | LEFT.

#[global] Instance Side_eq_dec : EqDecision Side.
Proof. solve_decision. Defined.

(** iteration order of [for side in Side] *)
Definition all_sides : list Side := [TOP; RIGHT; BOTTOM; LEFT].

Record MapDimensions : Type := mkMapDimensions {
  min_lat : Q;
  min_lon : Q;
  max_lat : Q;
  max_lon : Q
}.

(** [MapDimensions.__init__]: both arguments are (latitude, longitude)
    pairs.  The page-size fields are not used by the coastline engine. *)
Definition MapDimensions_init (bottom_left_coord top_right_coord : Q * Q)
  : MapDimensions :=
  {| min_lat := fst bottom_left_coord;
     min_lon := snd bottom_left_coord;
     max_lat := fst top_right_coord;
     max_lon := snd top_right_coord |}.

Definition side_clockwise_corners (d : MapDimensions) (s : Side) : Coord :=
  match s with
  | TOP => (max_lon d, max_lat d)
  | RIGHT => (max_lon d, min_lat d)
  | BOTTOM => (min_lon d, min_lat d)
  | LEFT => (min_lon d, max_lat d)
  end.

(** ** coastline_handler.py: data *)

Definition NEXT_SIDE_MAP (s : Side) : Side :=
  match s with
  | TOP => RIGHT
  | RIGHT => BOTTOM
  | BOTTOM => LEFT
  | LEFT => TOP
  end.

Record Intersection : Type := mkIntersection {
  point : Coord;
  is_entering : bool;
  side : Side
}.

Record IntersectionWithId : Type := mkIntersectionWithId {
  ipoint : Coord;
  iis_entering : bool;
  iside : Side;
  bounded_coastline_id : nat
}.

(** exceptions *)
Inductive Error : Type :=
| ValueError (msg : string)
| IndexError
| KeyError.

Inductive Result (A : Type) : Type :=
| Ok (a : A)
| Err (e : Error)
| OutOfFuel.
Arguments Ok {A} a.
Arguments Err {A} e.
Arguments OutOfFuel {A}.

#[global] Instance Result_bind : MBind Result := fun A B f r =>
  match r with
  | Ok a => f a
  | Err e => Err e
  | OutOfFuel => OutOfFuel
  end.

(** ** Geometry *)

Definition is_inside_map (p : Coord) (d : MapDimensions) : bool :=
  let '(lon, lat) := p in
  between (min_lon d) lon (max_lon d) && between (min_lat d) lat (max_lat d).

Inductive SegmentResult : Type :=
| Inside
| Outside
| Crossing (i : Intersection).

(** The candidate of one side, as the four blocks of
    [find_segment_intersection_with_boundary] compute it. *)
Definition side_candidate (s : Side) (p1 p2 : Coord) (d : MapDimensions)
  : list Intersection :=
  let '(lon1, lat1) := p1 in
  let '(lon2, lat2) := p2 in
  match s with
  | TOP =>
      if Qne_bool lat1 lat2 then
        let t := fdiv (fsub (max_lat d) lat1) (fsub lat2 lat1) in
        if between 0 t 1 then
          let lon_intersect := fadd lon1 (fmul t (fsub lon2 lon1)) in
          if between (min_lon d) lon_intersect (max_lon d) then
            [ {| point := (lon_intersect, max_lat d);
                 is_entering := Qlt_bool lat2 lat1;
                 side := TOP |} ]
          else []
        else []
      else []
  | RIGHT =>
      if Qne_bool lon1 lon2 then
        let t := fdiv (fsub (max_lon d) lon1) (fsub lon2 lon1) in
        if between 0 t 1 then
          let lat_intersect := fadd lat1 (fmul t (fsub lat2 lat1)) in
          if between (min_lat d) lat_intersect (max_lat d) then
            [ {| point := (max_lon d, lat_intersect);
                 is_entering := Qlt_bool lon2 lon1;
                 side := RIGHT |} ]
          else []
        else []
      else []
  | BOTTOM =>
      if Qne_bool lat1 lat2 then
        let t := fdiv (fsub (min_lat d) lat1) (fsub lat2 lat1) in
        if between 0 t 1 then
          let lon_intersect := fadd lon1 (fmul t (fsub lon2 lon1)) in
          if between (min_lon d) lon_intersect (max_lon d) then
            [ {| point := (lon_intersect, min_lat d);
                 is_entering := Qlt_bool lat1 lat2;
                 side := BOTTOM |} ]
          else []
        else []
      else []
  | LEFT =>
      if Qne_bool lon1 lon2 then
        let t := fdiv (fsub (min_lon d) lon1) (fsub lon2 lon1) in
        if between 0 t 1 then
          let lat_intersect := fadd lat1 (fmul t (fsub lat2 lat1)) in
          if between (min_lat d) lat_intersect (max_lat d) then
            [ {| point := (min_lon d, lat_intersect);
                 is_entering := Qlt_bool lon1 lon2;
                 side := LEFT |} ]
          else []
        else []
      else []
  end.

(** the list [intersections] after the four blocks have run, in the order
    in which they append: top, right, bottom, left *)
Definition intersections_of (p1 p2 : Coord) (d : MapDimensions)
  : list Intersection :=
  side_candidate TOP p1 p2 d ++ side_candidate RIGHT p1 p2 d ++
  side_candidate BOTTOM p1 p2 d ++ side_candidate LEFT p1 p2 d.

(** squared distance of a candidate from [p1] *)
Definition distance_from (p1 : Coord) (i : Intersection) : Q :=
  let dx := fsub (fst (point i)) (fst p1) in
  let dy := fsub (snd (point i)) (snd p1) in
  fadd (fmul dx dx) (fmul dy dy).

(** [min(l)] of a non-empty list, given as head and tail: the first of the
    smallest elements *)
Fixpoint list_min (x : Q) (l : list Q) : Q :=
  match l with
  | [] => x
  | y :: l' => list_min (if Qlt_bool y x then y else x) l'
  end.

(** [l.index(v)]: position of the first element equal to [v] *)
Fixpoint list_index (v : Q) (l : list Q) : option nat :=
  match l with
  | [] => None
  | y :: l' => if Qeq_bool y v then Some 0%nat
               else option_map S (list_index v l')
  end.

Definition no_intersection_msg : string :=
  "No intersection found for line segment that crosses boundary".

Definition find_segment_intersection_with_boundary
    (p1 p2 : Coord) (d : MapDimensions) : Result SegmentResult :=
  let p1_inside := is_inside_map p1 d in
  let p2_inside := is_inside_map p2 d in
  if p1_inside && p2_inside then Ok Inside
  else if negb p1_inside && negb p2_inside then Ok Outside
  else
    let intersections := intersections_of p1 p2 d in
    match intersections with
    | [] => Err (ValueError no_intersection_msg)
    | [i] => Ok (Crossing i)
    | i :: _ =>
        let distances := map (distance_from p1) intersections in
        match list_index (list_min (distance_from p1 i) (tl distances))
                         distances with
        | Some k =>
            match intersections !! k with
            | Some c => Ok (Crossing c)
            | None => Err IndexError
            end
        | None => Err (ValueError "list.index(x): x not in list")
        end
    end.

(** ** The crossing computation with rounded arithmetic

    A float operation returns a representable number close to the exact
    result; when that number is finite it is a rational, and finite floats
    compare exactly.  An [Arith] gives the four operations as the machine
    computes them, whatever their rounding.  The definitions of [Rounded]
    are [side_candidate], [intersections_of], [distance_from] and
    [find_segment_intersection_with_boundary] with the operations of an
    [Arith]; [exact_arith], which rounds nothing, gives back the definitions
    above. *)
Record Arith : Type := mkArith {
  a_sub : Q -> Q -> Q;
  a_add : Q -> Q -> Q;
  a_mul : Q -> Q -> Q;
  a_div : Q -> Q -> Q
}.

Definition exact_arith : Arith := mkArith fsub fadd fmul fdiv.

Module Rounded.
Section WithArith.
Variable ar : Arith.

Definition side_candidate (s : Side) (p1 p2 : Coord) (d : MapDimensions)
  : list Intersection :=
  let '(lon1, lat1) := p1 in
  let '(lon2, lat2) := p2 in
  match s with
  | TOP =>
      if Qne_bool lat1 lat2 then
        let t := a_div ar (a_sub ar (max_lat d) lat1) (a_sub ar lat2 lat1) in
        if between 0 t 1 then
          let lon_intersect :=
            a_add ar lon1 (a_mul ar t (a_sub ar lon2 lon1)) in
          if between (min_lon d) lon_intersect (max_lon d) then
            [ {| point := (lon_intersect, max_lat d);
                 is_entering := Qlt_bool lat2 lat1;
                 side := TOP |} ]
          else []
        else []
      else []
  | RIGHT =>
      if Qne_bool lon1 lon2 then
        let t := a_div ar (a_sub ar (max_lon d) lon1) (a_sub ar lon2 lon1) in
        if between 0 t 1 then
          let lat_intersect :=
            a_add ar lat1 (a_mul ar t (a_sub ar lat2 lat1)) in
          if between (min_lat d) lat_intersect (max_lat d) then
            [ {| point := (max_lon d, lat_intersect);
                 is_entering := Qlt_bool lon2 lon1;
                 side := RIGHT |} ]
          else []
        else []
      else []
  | BOTTOM =>
      if Qne_bool lat1 lat2 then
        let t := a_div ar (a_sub ar (min_lat d) lat1) (a_sub ar lat2 lat1) in
        if between 0 t 1 then
          let lon_intersect :=
            a_add ar lon1 (a_mul ar t (a_sub ar lon2 lon1)) in
          if between (min_lon d) lon_intersect (max_lon d) then
            [ {| point := (lon_intersect, min_lat d);
                 is_entering := Qlt_bool lat1 lat2;
                 side := BOTTOM |} ]
          else []
        else []
      else []
  | LEFT =>
      if Qne_bool lon1 lon2 then
        let t := a_div ar (a_sub ar (min_lon d) lon1) (a_sub ar lon2 lon1) in
        if between 0 t 1 then
          let lat_intersect :=
            a_add ar lat1 (a_mul ar t (a_sub ar lat2 lat1)) in
          if between (min_lat d) lat_intersect (max_lat d) then
            [ {| point := (min_lon d, lat_intersect);
                 is_entering := Qlt_bool lon1 lon2;
                 side := LEFT |} ]
          else []
        else []
      else []
  end.

Definition intersections_of (p1 p2 : Coord) (d : MapDimensions)
  : list Intersection :=
  side_candidate TOP p1 p2 d ++ side_candidate RIGHT p1 p2 d ++
  side_candidate BOTTOM p1 p2 d ++ side_candidate LEFT p1 p2 d.

(** [dx * dx + dy * dy] *)
Definition distance_from (p1 : Coord) (i : Intersection) : Q :=
  let dx := a_sub ar (fst (point i)) (fst p1) in
  let dy := a_sub ar (snd (point i)) (snd p1) in
  a_add ar (a_mul ar dx dx) (a_mul ar dy dy).

Definition find_segment_intersection_with_boundary
    (p1 p2 : Coord) (d : MapDimensions) : Result SegmentResult :=
  let p1_inside := is_inside_map p1 d in
  let p2_inside := is_inside_map p2 d in
  if p1_inside && p2_inside then Ok Inside
  else if negb p1_inside && negb p2_inside then Ok Outside
  else
    let intersections := intersections_of p1 p2 d in
    match intersections with
    | [] => Err (ValueError no_intersection_msg)
    | [i] => Ok (Crossing i)
    | i :: _ =>
        let distances := map (distance_from p1) intersections in
        match list_index (list_min (distance_from p1 i) (tl distances))
                         distances with
        | Some k =>
            match intersections !! k with
            | Some c => Ok (Crossing c)
            | None => Err IndexError
            end
        | None => Err (ValueError "list.index(x): x not in list")
        end
    end.

End WithArith.
End Rounded.

Local Close Scope Q_scope.

(** ** The heap

    Two kinds of list objects are shared and mutated in place: coordinate
    lists ([Line]) and the per-side event lists of intersection maps.  A
    location is an index into the corresponding store.  The event
    dictionaries themselves are only mutated by the merge step of the
    clipper, which touches events carrying the identifier drawn last; an
    event is therefore kept by value in its list. *)

Definition loc : Type := nat.

Record Heap : Type := mkHeap {
  lines : list Line;
  event_lists : list (list IntersectionWithId)
}.

Definition read_line (h : Heap) (l : loc) : Line := default [] (lines h !! l).
Definition write_line (h : Heap) (l : loc) (v : Line) : Heap :=
  mkHeap (<[l := v]> (lines h)) (event_lists h).
(** a new list object *)
Definition alloc_line (h : Heap) (v : Line) : loc * Heap :=
  (length (lines h), mkHeap (lines h ++ [v]) (event_lists h)).

Definition read_events (h : Heap) (l : loc) : list IntersectionWithId :=
  default [] (event_lists h !! l).
Definition write_events (h : Heap) (l : loc) (v : list IntersectionWithId)
  : Heap :=
  mkHeap (lines h) (<[l := v]> (event_lists h)).

(** [IntersectionMap = Dict[Side, List[IntersectionWithId]]]: no key of such
    a dictionary is ever rebound, so a dictionary is its four list objects. *)
Record IntersectionMap : Type := mkIntersectionMap {
  top_list : loc;
  right_list : loc;
  bottom_list : loc;
  left_list : loc
}.

Definition im_get (im : IntersectionMap) (s : Side) : loc :=
  match s with
  | TOP => top_list im
  | RIGHT => right_list im
  | BOTTOM => bottom_list im
  | LEFT => left_list im
  end.

(** The module-level constant: four list objects created once, when the
    module is loaded. *)
Definition EMPTY_INTERSECTION_MAP : IntersectionMap :=
  mkIntersectionMap 0 1 2 3.

(** the heap right after the module has been loaded *)
Definition module_heap : Heap := mkHeap [] [[]; []; []; []].

(** [dict.copy()] is shallow: the new dictionary maps every key to the very
    list object the old one maps it to. *)
Definition dict_copy (im : IntersectionMap) : IntersectionMap :=
  mkIntersectionMap (im_get im TOP) (im_get im RIGHT)
                    (im_get im BOTTOM) (im_get im LEFT).

(** [str(uuid.uuid4())]: the next identifier of the supply *)
Definition generate_bounded_coastline_id (supply : nat) : nat * nat :=
  (supply, S supply).

(** ** Boundary clipper *)

(** the local variables of one iteration of the loop over the complete
    coastlines, with the heap and the identifier supply *)
Record ChainState : Type := mkChainState {
  does_coastline_cross_boundary : bool;
  bounded_coastlines : list (nat * Line);
  accumulator : Line;
  current_id : nat;
  c_heap : Heap;
  c_supply : nat
}.

(** [intersection_map[side].append(event)] *)
Definition append_event (h : Heap) (im : IntersectionMap)
    (e : IntersectionWithId) : Heap :=
  let l := im_get im (iside e) in
  write_events h l (read_events h l ++ [e]).

Definition with_id (i : Intersection) (id : nat) : IntersectionWithId :=
  {| ipoint := point i; iis_entering := is_entering i; iside := side i;
     bounded_coastline_id := id |}.

Definition is_empty {A} (l : list A) : bool :=
  match l with [] => true | _ => false end.

Definition outside_msg : string :=
  "Coastline accumulator is not empty but we're outside the map".

(** body of the loop over the consecutive pairs of one coastline *)
Definition process_segment (d : MapDimensions) (im : IntersectionMap)
    (st : ChainState) (seg : Coord * Coord) : Result ChainState :=
  let '(p1, p2) := seg in
  intersection ← find_segment_intersection_with_boundary p1 p2 d;
  match intersection with
  | Inside =>
      let acc := accumulator st in
      let acc := if is_empty acc then acc ++ [p1] else acc in
      Ok (mkChainState (does_coastline_cross_boundary st)
            (bounded_coastlines st) (acc ++ [p2]) (current_id st)
            (c_heap st) (c_supply st))
  | Outside =>
      if is_empty (accumulator st) then Ok st
      else Err (ValueError outside_msg)
  | Crossing i =>
      let h := append_event (c_heap st) im (with_id i (current_id st)) in
      if is_entering i then
        Ok (mkChainState true (bounded_coastlines st) [point i; p2]
              (current_id st) h (c_supply st))
      else
        let acc := accumulator st in
        let acc := if is_empty acc then acc ++ [p1] else acc in
        let acc := acc ++ [point i] in
        let '(new_id, supply) := generate_bounded_coastline_id (c_supply st) in
        Ok (mkChainState true
              (bounded_coastlines st ++ [(current_id st, acc)]) []
              new_id h supply)
  end.

(** [zip(complete_coastline, complete_coastline[1:])] *)
Definition segments_of (complete_coastline : Line) : list (Coord * Coord) :=
  zip complete_coastline (tail complete_coastline).

Fixpoint segment_loop (d : MapDimensions) (im : IntersectionMap)
    (segs : list (Coord * Coord)) (st : ChainState) : Result ChainState :=
  match segs with
  | [] => Ok st
  | seg :: segs' =>
      st' ← process_segment d im st seg;
      segment_loop d im segs' st'
  end.

(** the assignment in the merge loop, on one event *)
Definition rewrite_id (from to : nat) (e : IntersectionWithId)
  : IntersectionWithId :=
  if Nat.eqb (bounded_coastline_id e) from
  then {| ipoint := ipoint e; iis_entering := iis_entering e;
          iside := iside e; bounded_coastline_id := to |}
  else e.

(** [for side in Side: for intersection in intersection_map[side]: ...] of
    the merge *)
Definition rewrite_ids (h : Heap) (im : IntersectionMap) (from to : nat)
  : Heap :=
  foldl (fun h s =>
           let l := im_get im s in
           write_events h l (map (rewrite_id from to) (read_events h l)))
        h all_sides.

Definition not_crossed_msg : string :=
  "Coastline did not cross boundary yet we have a bounded coastline".

(** the statements after the loop over the pairs: what is left in the
    accumulator is saved.  Returns the state and the closed coastlines to
    append. *)
Definition save_remaining (im : IntersectionMap) (complete_coastline : Line)
    (st : ChainState) : Result (ChainState * list Line) :=
  let acc := accumulator st in
  if is_empty acc then Ok (st, [])
  else if negb (does_coastline_cross_boundary st) then
    if negb (is_empty (bounded_coastlines st))
    then Err (ValueError not_crossed_msg)
    else Ok (st, [acc])
  else
    match last acc, head complete_coastline with
    | Some a, Some c =>
        if coord_eqb a c then
          match bounded_coastlines st with
          | [] => Err IndexError
          | (first_id, first_coords) :: rest =>
              Ok (mkChainState (does_coastline_cross_boundary st)
                    ((first_id, acc ++ tail first_coords) :: rest)
                    acc (current_id st)
                    (rewrite_ids (c_heap st) im (current_id st) first_id)
                    (c_supply st), [])
          end
        else
          Ok (mkChainState (does_coastline_cross_boundary st)
                (bounded_coastlines st ++ [(current_id st, acc)])
                acc (current_id st) (c_heap st) (c_supply st), [])
    | _, _ => Err IndexError
    end.

(** the state of [bound_and_sort_complete_coastlines] between two
    coastlines *)
Record ClipState : Type := mkClipState {
  closed_coastlines : list Line;
  open_coastlines : gmap nat loc;
  heap : Heap;
  supply : nat
}.

(** [for id, line in bounded: open_coastlines[id] = line]: each line is a
    list object of its own *)
Fixpoint publish (bounded : list (nat * Line)) (oc : gmap nat loc) (h : Heap)
  : gmap nat loc * Heap :=
  match bounded with
  | [] => (oc, h)
  | (id, line) :: bounded' =>
      let '(l, h') := alloc_line h line in
      publish bounded' (<[id := l]> oc) h'
  end.

(** one iteration of the loop over the complete coastlines *)
Definition process_coastline (d : MapDimensions) (im : IntersectionMap)
    (cs : ClipState) (complete_coastline : Line) : Result ClipState :=
  if (length complete_coastline <? 2)%nat then Ok cs
  else
    let '(id, sup) := generate_bounded_coastline_id (supply cs) in
    st ← segment_loop d im (segments_of complete_coastline)
           (mkChainState false [] [] id (heap cs) sup);
    '(st', closed) ← save_remaining im complete_coastline st;
    let '(oc, h) := publish (bounded_coastlines st') (open_coastlines cs)
                      (c_heap st') in
    Ok (mkClipState (closed_coastlines cs ++ closed) oc h (c_supply st')).

Fixpoint coastline_loop (d : MapDimensions) (im : IntersectionMap)
    (complete_coastlines : list Line) (cs : ClipState) : Result ClipState :=
  match complete_coastlines with
  | [] => Ok cs
  | c :: rest =>
      cs' ← process_coastline d im cs c;
      coastline_loop d im rest cs'
  end.

(** [list.sort(key=...)] and [list.sort(key=..., reverse=True)] are stable:
    equal keys keep their order.  [ins le x l] puts [x], which stood before
    every element of [l], in front of the first element it may precede. *)
Fixpoint ins {A} (le : A -> A -> bool) (x : A) (l : list A) : list A :=
  match l with
  | [] => [x]
  | y :: l' => if le x y then x :: y :: l' else y :: ins le x l'
  end.

Fixpoint stable_sort {A} (le : A -> A -> bool) (l : list A) : list A :=
  match l with
  | [] => []
  | x :: l' => ins le x (stable_sort le l')
  end.

(** the clockwise order of each side *)
Definition side_le (s : Side) (a b : IntersectionWithId) : bool :=
  match s with
  | TOP => Qle_bool (fst (ipoint a)) (fst (ipoint b))
  | RIGHT => Qle_bool (snd (ipoint b)) (snd (ipoint a))
  | BOTTOM => Qle_bool (fst (ipoint b)) (fst (ipoint a))
  | LEFT => Qle_bool (snd (ipoint a)) (snd (ipoint b))
  end.

(** [intersection_map[side].sort(...)], in place *)
Definition sort_side (im : IntersectionMap) (h : Heap) (s : Side) : Heap :=
  let l := im_get im s in
  write_events h l (stable_sort (side_le s) (read_events h l)).

Definition sort_sides (im : IntersectionMap) (h : Heap) : Heap :=
  foldl (sort_side im) h all_sides.

(** the events of a map, side after side, as the two scanning functions
    below traverse them *)
Definition events_on (h : Heap) (im : IntersectionMap) (s : Side)
  : list IntersectionWithId := read_events h (im_get im s).

Definition all_events (h : Heap) (im : IntersectionMap)
  : list IntersectionWithId :=
  concat (map (events_on h im) all_sides).

Definition count_entering (evs : list IntersectionWithId) : nat :=
  length (filter (fun e => iis_entering e = true) evs).
Definition count_exiting (evs : list IntersectionWithId) : nat :=
  length (filter (fun e => iis_entering e = false) evs).

Definition incomplete_msg : string :=
  "Invalid intersection map, not an equal number of entering and exiting intersections. This most likely means that you have an incomplete coastline in your OSM file that is visible in the current map boundaries.".

Definition validate_intersection_map (h : Heap) (im : IntersectionMap)
  : Result bool :=
  let entering_count := count_entering (all_events h im) in
  let exiting_count := count_exiting (all_events h im) in
  if negb (Nat.eqb entering_count exiting_count)
  then Err (ValueError incomplete_msg)
  else Ok true.

(** position of the first entering event of a list *)
Fixpoint first_entering (evs : list IntersectionWithId) : option nat :=
  match evs with
  | [] => None
  | e :: evs' => if iis_entering e then Some 0%nat
                 else option_map S (first_entering evs')
  end.

Fixpoint find_start_from (h : Heap) (im : IntersectionMap)
    (sides : list Side) : option (Side * nat) :=
  match sides with
  | [] => None
  | s :: sides' =>
      match first_entering (events_on h im s) with
      | Some k => Some (s, k)
      | None => find_start_from h im sides'
      end
  end.

Definition find_intersection_map_starting_point (h : Heap)
    (im : IntersectionMap) : option (Side * nat) :=
  find_start_from h im all_sides.

(** [bound_and_sort_complete_coastlines].  [complete_coastlines] is what
    [convert_coastline_ways_into_continuous_lines] has returned; [h] and
    [sup] are the heap and the identifier supply at the call. *)
Definition bound_and_sort_complete_coastlines (d : MapDimensions)
    (complete_coastlines : list Line) (h : Heap) (sup : nat)
  : Result (list Line * gmap nat loc * IntersectionMap * Heap * nat) :=
  let intersection_map := dict_copy EMPTY_INTERSECTION_MAP in
  cs ← coastline_loop d intersection_map complete_coastlines
         (mkClipState [] ∅ h sup);
  let h' := sort_sides intersection_map (heap cs) in
  _ ← validate_intersection_map h' intersection_map;
  Ok (closed_coastlines cs, open_coastlines cs, intersection_map, h',
      supply cs).

(** ** Closure walker *)

Inductive LookingFor : Type := look_exit | look_enter.

(** the local variables of [join_open_coastlines], with the heap.  The
    accumulator and the closed coastlines are references to list objects. *)
Record WalkState : Type := mkWalkState {
  looking_for : LookingFor;
  current_side : Side;
  current_index : nat;
  current_open_coastline_accumulator : loc;
  exit_id_to_look_for : option nat;
  entrace_id_to_look_for : option nat;
  new_closed_coastlines : list loc;
  skipped_intersections : list IntersectionMap;
  current_skipped_intersection_map : IntersectionMap;
  current_skipped_intersection_map_is_used : bool;
  w_heap : Heap
}.

(** [line.insert(0, p)], in place *)
Definition insert_front (h : Heap) (l : loc) (p : Coord) : Heap :=
  write_line h l (p :: read_line h l).

Definition no_coastline_msg : string :=
  "Invalid intersection map, no coastline found for intersection".
Definition entering_when_exit_msg : string :=
  "Invalid intersection map, found entering intersection when looking for exit".
Definition no_exit_id_msg : string :=
  "Invalid intersection map, no exit id to look for when looking for exit".
Definition not_the_exit_msg : string :=
  "Invalid intersection map, while looking for exit we found an intersection that is not the exit of the original coastline when we shouldn't have".
Definition exiting_when_enter_msg : string :=
  "Invalid intersection map, found exiting intersection when looking for enter".

Definition opt_is (o : option nat) (id : nat) : bool :=
  match o with
  | Some x => Nat.eqb id x
  | None => false
  end.

(** body of the [while] loop *)
Definition walk_step (d : MapDimensions) (open_coastlines : gmap nat loc)
    (intersection_map : IntersectionMap) (st : WalkState)
  : Result WalkState :=
  let h := w_heap st in
  let acc := current_open_coastline_accumulator st in
  let on_side := read_events h (im_get intersection_map (current_side st)) in
  if (length on_side <=? current_index st)%nat then
    (* the end of the current side has been reached *)
    let h' :=
      match looking_for st, entrace_id_to_look_for st with
      | look_exit, None =>
          insert_front h acc (side_clockwise_corners d (current_side st))
      | _, _ => h
      end in
    Ok (mkWalkState (looking_for st) (NEXT_SIDE_MAP (current_side st)) 0
          acc (exit_id_to_look_for st) (entrace_id_to_look_for st)
          (new_closed_coastlines st) (skipped_intersections st)
          (current_skipped_intersection_map st)
          (current_skipped_intersection_map_is_used st) h')
  else
    match on_side !! current_index st with
    | None => Err IndexError
    | Some current_intersection =>
        let id := bounded_coastline_id current_intersection in
        match open_coastlines !! id with
        | None => Err (ValueError no_coastline_msg)
        | Some current_intersection_coastline =>
            match looking_for st with
            | look_exit =>
                if iis_entering current_intersection
                then Err (ValueError entering_when_exit_msg)
                else
                  match exit_id_to_look_for st with
                  | None => Err (ValueError no_exit_id_msg)
                  | Some exit_id =>
                      if Nat.eqb id exit_id then
                        (* the polygon is closed *)
                        match last (read_line h current_intersection_coastline) with
                        | None => Err IndexError
                        | Some p =>
                            let h1 := insert_front h acc p in
                            let '(fresh, h2) := alloc_line h1 [] in
                            Ok (mkWalkState look_enter (current_side st)
                                  (S (current_index st)) fresh None
                                  (entrace_id_to_look_for st)
                                  (new_closed_coastlines st ++ [acc])
                                  (skipped_intersections st)
                                  (current_skipped_intersection_map st)
                                  (current_skipped_intersection_map_is_used st)
                                  h2)
                        end
                      else
                        match entrace_id_to_look_for st with
                        | None =>
                            let '(joined, h1) :=
                              alloc_line h
                                (read_line h current_intersection_coastline
                                 ++ read_line h acc) in
                            Ok (mkWalkState look_enter (current_side st)
                                  (S (current_index st)) joined
                                  (exit_id_to_look_for st) (Some id)
                                  (new_closed_coastlines st)
                                  (skipped_intersections st)
                                  (current_skipped_intersection_map st)
                                  (current_skipped_intersection_map_is_used st)
                                  h1)
                        | Some _ => Err (ValueError not_the_exit_msg)
                        end
                  end
            | look_enter =>
                if negb (iis_entering current_intersection)
                then Err (ValueError exiting_when_enter_msg)
                else
                  match exit_id_to_look_for st with
                  | None =>
                      (* a new polygon starts *)
                      Ok (mkWalkState look_exit (current_side st)
                            (S (current_index st))
                            current_intersection_coastline (Some id)
                            (entrace_id_to_look_for st)
                            (new_closed_coastlines st)
                            (skipped_intersections st)
                            (current_skipped_intersection_map st)
                            (current_skipped_intersection_map_is_used st) h)
                  | Some _ =>
                      if opt_is (entrace_id_to_look_for st) id then
                        let used :=
                          current_skipped_intersection_map_is_used st in
                        Ok (mkWalkState look_exit (current_side st)
                              (S (current_index st)) acc
                              (exit_id_to_look_for st) None
                              (new_closed_coastlines st)
                              (if used
                               then skipped_intersections st ++
                                      [current_skipped_intersection_map st]
                               else skipped_intersections st)
                              (if used
                               then dict_copy EMPTY_INTERSECTION_MAP
                               else current_skipped_intersection_map st)
                              used h)
                      else
                        (* the event is put aside *)
                        let l := im_get (current_skipped_intersection_map st)
                                        (current_side st) in
                        Ok (mkWalkState look_enter (current_side st)
                              (S (current_index st)) acc
                              (exit_id_to_look_for st)
                              (entrace_id_to_look_for st)
                              (new_closed_coastlines st)
                              (skipped_intersections st)
                              (current_skipped_intersection_map st) true
                              (write_events h l
                                 (read_events h l ++ [current_intersection])))
                  end
            end
        end
    end.

(** the loop condition, negated *)
Definition back_at_start (starting_point : Side * nat) (st : WalkState)
  : bool :=
  bool_decide (current_side st = fst starting_point)
  && Nat.eqb (current_index st) (snd starting_point).

Fixpoint walk_loop (fuel : nat) (d : MapDimensions)
    (open_coastlines : gmap nat loc) (intersection_map : IntersectionMap)
    (starting_point : Side * nat) (st : WalkState) : Result WalkState :=
  if back_at_start starting_point st then Ok st
  else
    match fuel with
    | O => OutOfFuel
    | S fuel' =>
        st' ← walk_step d open_coastlines intersection_map st;
        walk_loop fuel' d open_coastlines intersection_map starting_point st'
    end.

(** the statements of [join_open_coastlines] before the loop *)
Definition walk_init (open_coastlines : gmap nat loc)
    (intersection_map : IntersectionMap) (starting_point : Side * nat)
    (h : Heap) : Result WalkState :=
  let '(current_side, current_index) := starting_point in
  match read_events h (im_get intersection_map current_side) !! current_index
  with
  | None => Err IndexError
  | Some e =>
      let starting_coastline_id := bounded_coastline_id e in
      match open_coastlines !! starting_coastline_id with
      | None => Err KeyError
      | Some acc =>
          Ok (mkWalkState look_exit current_side (S current_index) acc
                (Some starting_coastline_id) None [] []
                (dict_copy EMPTY_INTERSECTION_MAP) false h)
      end
  end.

(** the loop over the maps put aside, at the end of
    [join_open_coastlines]; [join] is the recursive call *)
Fixpoint process_skipped
    (join : IntersectionMap -> Side * nat -> Heap -> Result (list loc * Heap))
    (skipped : list IntersectionMap) (closed : list loc) (h : Heap)
  : Result (list loc * Heap) :=
  match skipped with
  | [] => Ok (closed, h)
  | skipped_intersection_map :: skipped' =>
      match find_intersection_map_starting_point h skipped_intersection_map
      with
      | Some skipped_starting_point =>
          r ← join skipped_intersection_map skipped_starting_point h;
          process_skipped join skipped' (closed ++ fst r) (snd r)
      | None => process_skipped join skipped' closed h
      end
  end.

(** [join_open_coastlines]: the fuel bounds the iterations of the loop and
    the depth of the recursion.  The result lists references; the heap is
    returned with it. *)
Fixpoint join_open_coastlines (fuel : nat) (d : MapDimensions)
    (open_coastlines : gmap nat loc) (intersection_map : IntersectionMap)
    (starting_point : Side * nat) (h : Heap) : Result (list loc * Heap) :=
  match fuel with
  | O => OutOfFuel
  | S fuel' =>
      st0 ← walk_init open_coastlines intersection_map starting_point h;
      st ← walk_loop fuel' d open_coastlines intersection_map
             starting_point st0;
      process_skipped
        (fun skipped_intersection_map skipped_starting_point h =>
           join_open_coastlines fuel' d open_coastlines
             skipped_intersection_map skipped_starting_point h)
        (skipped_intersections st) (new_closed_coastlines st) (w_heap st)
  end.

(** ** Output composer *)

(** the value of [all_coastlines] in
    [render_coastline_and_background_water], with the heap the rendering
    loop then reads *)
Definition all_coastlines (fuel : nat) (d : MapDimensions)
    (complete_coastlines : list Line) (h : Heap) (sup : nat)
  : Result (list Line * Heap) :=
  r ← bound_and_sort_complete_coastlines d complete_coastlines h sup;
  let '(closed_coastlines, open_coastlines, intersection_map, h1, _) := r in
  match find_intersection_map_starting_point h1 intersection_map with
  | Some starting_point =>
      j ← join_open_coastlines fuel d open_coastlines intersection_map
            starting_point h1;
      Ok (closed_coastlines ++ map (read_line (snd j)) (fst j), snd j)
  | None => Ok (closed_coastlines, h1)
  end.

(** ** Coastline assembler *)

(** [Coastline]: a coastline way as [add_coastline] stores it *)
Record Coastline : Type := mkCoastline {
  coast_id : Z;
  coast_coords : Line;
  coast_refs : list Z
}.

Record CoastlineSection : Type := mkCoastlineSection {
  section_id : Z;
  section_coords : Line;
  section_start : Z;
  section_end : Z;
  section_used : bool
}.

(** [d[k] = v] on a dictionary kept as the list of its items in insertion
    order: a key that is present keeps its place *)
Fixpoint dict_set {V} (k : Z) (v : V) (d : list (Z * V)) : list (Z * V) :=
  match d with
  | [] => [(k, v)]
  | (k', v') :: d' =>
      if Z.eqb k' k then (k, v) :: d' else (k', v') :: dict_set k v d'
  end.

(** the first loop of [convert_coastline_ways_into_continuous_lines];
    [refs[0]] and [refs[-1]] raise on an empty list *)
Fixpoint make_sections (coastlines : list Coastline)
    (sections : list (Z * CoastlineSection))
  : Result (list (Z * CoastlineSection)) :=
  match coastlines with
  | [] => Ok sections
  | coast :: coastlines' =>
      match head (coast_refs coast), last (coast_refs coast) with
      | Some first_ref, Some last_ref =>
          make_sections coastlines'
            (dict_set (coast_id coast)
               (mkCoastlineSection (coast_id coast) (coast_coords coast)
                  first_ref last_ref false)
               sections)
      | _, _ => Err IndexError
      end
  end.

(** the loop that looks for the longest section: a later section replaces
    the current one only when it is strictly longer *)
Fixpoint longest_from (sections : list (Z * CoastlineSection))
    (longest_section : option CoastlineSection) (longest_length : nat)
  : option CoastlineSection :=
  match sections with
  | [] => longest_section
  | (_, section) :: sections' =>
      let length := length (section_coords section) in
      if (longest_length <? length)%nat
      then longest_from sections' (Some section) length
      else longest_from sections' longest_section longest_length
  end.

(** [sections[k]["used"] = True] *)
Definition mark_used (k : Z) (sections : list (Z * CoastlineSection))
  : list (Z * CoastlineSection) :=
  map (fun item =>
         if Z.eqb (fst item) k
         then (fst item,
               mkCoastlineSection (section_id (snd item))
                 (section_coords (snd item)) (section_start (snd item))
                 (section_end (snd item)) true)
         else item) sections.

(** the [for] loop over the sections: the first unused section that
    continues the chain at its end ([true]) or at its start ([false]) *)
Fixpoint find_extension (items : list (Z * CoastlineSection))
    (chain_start chain_end : Z) : option (Z * CoastlineSection * bool) :=
  match items with
  | [] => None
  | (section_id, section) :: items' =>
      if section_used section
      then find_extension items' chain_start chain_end
      else if Z.eqb (section_start section) chain_end
           then Some (section_id, section, true)
           else if Z.eqb (section_end section) chain_start
                then Some (section_id, section, false)
                else find_extension items' chain_start chain_end
  end.

(** the first section that is not used yet *)
Fixpoint first_unused (sections : list (Z * CoastlineSection))
  : option CoastlineSection :=
  match sections with
  | [] => None
  | (_, section) :: sections' =>
      if section_used section then first_unused sections' else Some section
  end.

(** the variables of the [while True] loop *)
Record AssemblerState : Type := mkAssemblerState {
  sections : list (Z * CoastlineSection);
  chains : list Line;
  current_chain : Line;
  chain_start : Z;
  chain_end : Z
}.

Fixpoint chain_loop (fuel : nat) (st : AssemblerState) : Result (list Line) :=
  match fuel with
  | O => OutOfFuel
  | S fuel' =>
      match find_extension (sections st) (chain_start st) (chain_end st) with
      | Some (section_id, section, true) =>
          (* connect to the end of the chain *)
          chain_loop fuel'
            (mkAssemblerState (mark_used section_id (sections st)) (chains st)
               (current_chain st ++ tail (section_coords section))
               (chain_start st) (section_end section))
      | Some (section_id, section, false) =>
          (* connect to the start of the chain *)
          chain_loop fuel'
            (mkAssemblerState (mark_used section_id (sections st)) (chains st)
               (section_coords section ++ tail (current_chain st))
               (section_start section) (chain_end st))
      | None =>
          let chains' :=
            if (2 <=? length (current_chain st))%nat
            then chains st ++ [current_chain st]
            else chains st in
          match first_unused (sections st) with
          | None => Ok chains'
          | Some new_start =>
              chain_loop fuel'
                (mkAssemblerState
                   (mark_used (section_id new_start) (sections st)) chains'
                   (section_coords new_start) (section_start new_start)
                   (section_end new_start))
          end
      end
  end.

(** [convert_coastline_ways_into_continuous_lines]; [coastlines] is
    [self.coastlines], the fuel bounds the iterations of the [while] loop *)
Definition convert_coastline_ways_into_continuous_lines (fuel : nat)
    (coastlines : list Coastline) : Result (list Line) :=
  sections ← make_sections coastlines [];
  match longest_from sections None 0 with
  | None => Ok []
  | Some longest_section =>
      chain_loop fuel
        (mkAssemblerState (mark_used (section_id longest_section) sections) []
           (section_coords longest_section) (section_start longest_section)
           (section_end longest_section))
  end.

(** ** project_types.py: MapConfig *)

Record MapConfig : Type := mkMapConfig {
  pbf_file : string;
  bbox_bottom_left_coord : Q * Q;
  bbox_top_right_coord : Q * Q;
  boundary_relation_id : Z
}.

(** [MapConfig.__init__]; both corners are (latitude, longitude) pairs, and
    [None] is an argument that is None *)
Definition MapConfig_init (pbf_file : string)
    (bbox_bottom_left_coord bbox_top_right_coord : option (Q * Q))
    (boundary_relation_id : option Z) : Result MapConfig :=
  match boundary_relation_id with
  | None => Err (ValueError "boundary_relation_id is required")
  | Some relation_id =>
      match bbox_bottom_left_coord, bbox_top_right_coord with
      | Some bl, Some tr =>
          if Qlt_bool (fst tr) (fst bl)
          then Err (ValueError
                 "bbox_bottom_left_coord[0] must be less than bbox_top_right_coord[0]")
          else if Qlt_bool (snd tr) (snd bl)
          then Err (ValueError
                 "bbox_bottom_left_coord[1] must be less than bbox_top_right_coord[1]")
          else if Qlt_bool (fst bl) (-90) || Qlt_bool 90 (fst bl)
          then Err (ValueError
                 "bbox_bottom_left_coord[0] must be between -90 and 90")
          else if Qlt_bool (snd bl) (-180) || Qlt_bool 180 (snd bl)
          then Err (ValueError
                 "bbox_bottom_left_coord[1] must be between -180 and 180")
          else if Qlt_bool (fst tr) (-90) || Qlt_bool 90 (fst tr)
          then Err (ValueError
                 "bbox_top_right_coord[0] must be between -90 and 90")
          else if Qlt_bool (snd tr) (-180) || Qlt_bool 180 (snd tr)
          then Err (ValueError
                 "bbox_top_right_coord[1] must be between -180 and 180")
          else if Qeq_bool (fst bl) (fst tr) || Qeq_bool (snd bl) (snd tr)
          then Err (ValueError
                 "bbox_bottom_left_coord and bbox_top_right_coord must be different")
          else Ok (mkMapConfig pbf_file bl tr relation_id)
      | _, _ =>
          Err (ValueError
                 "bbox_bottom_left_coord and bbox_top_right_coord are required")
      end
  end.

(** the [MapDimensions] that [main] builds from a configuration *)
Definition map_dimensions_of (config : MapConfig) : MapDimensions :=
  MapDimensions_init (bbox_bottom_left_coord config)
    (bbox_top_right_coord config).

(** ** coastline_handler.py: the ways *)

Record Tag : Type := mkTag { tag_k : string; tag_v : string }.

(** an OSM way: identifier, tags and the references of its nodes *)
Record Way : Type := mkWay {
  way_id : Z;
  way_tags : list Tag;
  way_nodes : list Z
}.

Definition is_natural_coastline (tag : Tag) : bool :=
  String.eqb (tag_k tag) "natural" && String.eqb (tag_v tag) "coastline".

(** the loop of [test_way_for_coastline] *)
Fixpoint test_tags (tags : list Tag) : bool :=
  match tags with
  | [] => false
  | tag :: tags' => if is_natural_coastline tag then true else test_tags tags'
  end.

Definition test_way_for_coastline (way : Way) : bool :=
  test_tags (way_tags way).

(** [add_coastline] appends to [self.coastlines] *)
Definition add_coastline (way : Way) (coords : Line)
    (coastlines : list Coastline) : list Coastline :=
  coastlines ++ [mkCoastline (way_id way) coords (way_nodes way)].

(** the loop of [process_way_coastline], over the tags that are left *)
Fixpoint process_tags (way : Way) (coords : Line) (tags : list Tag)
    (coastlines : list Coastline) : bool * list Coastline :=
  match tags with
  | [] => (false, coastlines)
  | tag :: tags' =>
      if is_natural_coastline tag
      then (true, add_coastline way coords coastlines)
      else process_tags way coords tags' coastlines
  end.

Definition process_way_coastline (way : Way) (coords : Line)
    (coastlines : list Coastline) : bool * list Coastline :=
  process_tags way coords (way_tags way) coastlines.

(** ** Notions used to state the properties *)

Local Open Scope Q_scope.

(** a point lies on side [s] of the rectangle, within the side's extent *)
Definition on_side (d : MapDimensions) (s : Side) (p : Coord) : Prop :=
  match s with
  | TOP => snd p == max_lat d /\ min_lon d <= fst p <= max_lon d
  | RIGHT => fst p == max_lon d /\ min_lat d <= snd p <= max_lat d
  | BOTTOM => snd p == min_lat d /\ min_lon d <= fst p <= max_lon d
  | LEFT => fst p == min_lon d /\ min_lat d <= snd p <= max_lat d
  end.

(** [c] is the point [p1 + t * (p2 - p1)] for a parameter [t] in [0, 1],
    and lies on its side within the side's extent *)
Definition accepted_on (p1 p2 : Coord) (d : MapDimensions)
    (c : Intersection) : Prop :=
  on_side d (side c) (point c) /\
  exists t, 0 <= t <= 1 /\
            fst (point c) == fst p1 + t * (fst p2 - fst p1) /\
            snd (point c) == snd p1 + t * (snd p2 - snd p1).

(** the coordinate of a point along side [s], and across it *)
Definition along (s : Side) (p : Coord) : Q :=
  match s with TOP | BOTTOM => fst p | RIGHT | LEFT => snd p end.
Definition across (s : Side) (p : Coord) : Q :=
  match s with TOP | BOTTOM => snd p | RIGHT | LEFT => fst p end.

(** the line that carries side [s], and the extent of the side along it *)
Definition bound_of (d : MapDimensions) (s : Side) : Q :=
  match s with
  | TOP => max_lat d | RIGHT => max_lon d
  | BOTTOM => min_lat d | LEFT => min_lon d
  end.
Definition extent_of (d : MapDimensions) (s : Side) : Q * Q :=
  match s with
  | TOP | BOTTOM => (min_lon d, max_lon d)
  | RIGHT | LEFT => (min_lat d, max_lat d)
  end.

(** the point of the line of side [s] at coordinate [x] along the side *)
Definition point_on (d : MapDimensions) (s : Side) (x : Q) : Coord :=
  match s with
  | TOP | BOTTOM => (x, bound_of d s)
  | RIGHT | LEFT => (bound_of d s, x)
  end.

(** going from [p1] to [p2] is going inwards through side [s] *)
Definition inwards (s : Side) (p1 p2 : Coord) : bool :=
  match s with
  | TOP | RIGHT => Qlt_bool (across s p2) (across s p1)
  | BOTTOM | LEFT => Qlt_bool (across s p1) (across s p2)
  end.

(** [c] is the candidate of side [s] for the segment from [p1] to [p2]: the
    segment is not parallel to the side, the parameter [t] at which its line
    meets the line of the side is in [0, 1], and the point at [t] lies
    within the extent of the side.  [t] and the point are the numbers the
    arithmetic [ar] computes. *)
Definition candidate_of (ar : Arith) (d : MapDimensions) (p1 p2 : Coord)
    (s : Side) (c : Intersection) : Prop :=
  ~ across s p1 == across s p2 /\
  let t := a_div ar (a_sub ar (bound_of d s) (across s p1))
                    (a_sub ar (across s p2) (across s p1)) in
  0 <= t <= 1 /\
  let x := a_add ar (along s p1)
                    (a_mul ar t (a_sub ar (along s p2) (along s p1))) in
  fst (extent_of d s) <= x <= snd (extent_of d s) /\
  c = mkIntersection (point_on d s x) (inwards s p1 p2) s.

(** the squared distance from [p] to [q], computed with [ar] *)
Definition squared_distance (ar : Arith) (p q : Coord) : Q :=
  a_add ar
    (a_mul ar (a_sub ar (fst q) (fst p)) (a_sub ar (fst q) (fst p)))
    (a_mul ar (a_sub ar (snd q) (snd p)) (a_sub ar (snd q) (snd p))).

Local Close Scope Q_scope.

(** a chain is closed when its first point equals its last point *)
Definition closed_chain (c : Line) : Prop :=
  match head c, last c with
  | Some a, Some b => coord_eqb a b = true
  | _, _ => False
  end.

(** the requirements of the idempotence property on one chain; the
    assembler only emits chains of at least two points *)
Definition closed_inside (d : MapDimensions) (c : Line) : Prop :=
  (2 <= length c)%nat /\ closed_chain c /\
  Forall (fun q => is_inside_map q d = true) c.

(** side [s] hosts an excess: its entering and exiting events do not
    balance *)
Definition hosts_excess (h : Heap) (im : IntersectionMap) (s : Side) : Prop :=
  count_entering (events_on h im s) <> count_exiting (events_on h im s).

(** ** Notions used for the events of the clipper *)

(** the heap has the four lists of the module constant *)
Definition four_lists (h : Heap) : Prop := length (event_lists h) = 4%nat.

(** number of exiting events that carry [id] *)
Definition exits_of (id : nat) (evs : list IntersectionWithId) : nat :=
  length (filter (fun e => bounded_coastline_id e = id /\ iis_entering e = false)
                 evs).

(** number of entering events that carry [id] *)
Definition enters_of (id : nat) (evs : list IntersectionWithId) : nat :=
  length (filter (fun e => bounded_coastline_id e = id /\ iis_entering e = true)
                 evs).

(** [id] is published already, or is about to be, with the coastlines
    emitted by the current chain *)
Definition pub (oc : gmap nat loc) (bs : list (nat * Line)) (id : nat) : Prop :=
  is_Some (oc !! id) \/ id ∈ (fst <$> bs).

(** what holds between two segments of a chain *)
Record chain_inv (oc : gmap nat loc) (st : ChainState) : Prop := mk_chain_inv {
  inv_heap : four_lists (c_heap st);
  inv_cur : (current_id st < c_supply st)%nat;
  inv_ids : forall e, e ∈ all_events (c_heap st) EMPTY_INTERSECTION_MAP ->
                      (bounded_coastline_id e < c_supply st)%nat;
  inv_bounded : forall id, id ∈ (fst <$> bounded_coastlines st) ->
                           (id < c_supply st)%nat;
  inv_cur_events :
    forall e, e ∈ all_events (c_heap st) EMPTY_INTERSECTION_MAP ->
              bounded_coastline_id e = current_id st ->
              iis_entering e = true /\ accumulator st <> [] /\
              does_coastline_cross_boundary st = true;
  inv_pub : forall e, e ∈ all_events (c_heap st) EMPTY_INTERSECTION_MAP ->
                      bounded_coastline_id e <> current_id st ->
                      pub oc (bounded_coastlines st) (bounded_coastline_id e);
  inv_exits : forall id,
      (exits_of id (all_events (c_heap st) EMPTY_INTERSECTION_MAP) <= 1)%nat
}.

(** what holds between two chains *)
Record clip_inv (cs : ClipState) : Prop := mk_clip_inv {
  cinv_heap : four_lists (heap cs);
  cinv_ids : forall e, e ∈ all_events (heap cs) EMPTY_INTERSECTION_MAP ->
                       (bounded_coastline_id e < supply cs)%nat;
  cinv_pub : forall e, e ∈ all_events (heap cs) EMPTY_INTERSECTION_MAP ->
                       is_Some (open_coastlines cs !! bounded_coastline_id e);
  cinv_exits : forall id,
      (exits_of id (all_events (heap cs) EMPTY_INTERSECTION_MAP) <= 1)%nat
}.

(** the sub-chain [line] published under [id] ends at its exit: [id] has
    one exiting event, at the last point of [line] *)
Definition ends_at_exit (evs : list IntersectionWithId) (id : nat)
    (line : Line) : Prop :=
  exits_of id evs = 1%nat /\
  exists e, e ∈ evs /\ bounded_coastline_id e = id /\
            iis_entering e = false /\ last line = Some (ipoint e).

(** the sub-chain [line] published under [id] is what was left in the
    accumulator at the end of a chain: [id] has no exiting event, and
    [line] ends at the last point of one of the chains *)
Definition is_tail (evs : list IntersectionWithId) (chains : list Line)
    (id : nat) (line : Line) : Prop :=
  exits_of id evs = 0%nat /\
  exists c, c ∈ chains /\ is_Some (last c) /\ last line = last c.

(** what holds, between two segments of a chain, of the coastlines emitted
    at an exit; [sup0] and [evs0] are the supply and the events when the
    chain was started *)
Record exit_inv (sup0 : nat) (evs0 : list IntersectionWithId)
    (st : ChainState) : Prop := mk_exit_inv {
  xi_sup : (sup0 <= current_id st)%nat;
  xi_ids : forall id, id ∈ (fst <$> bounded_coastlines st) ->
                      (sup0 <= id < current_id st)%nat;
  xi_new : exists new,
      all_events (c_heap st) EMPTY_INTERSECTION_MAP ≡ₚ new ++ evs0 /\
      Forall (fun e => (sup0 <= bounded_coastline_id e)%nat) new;
  xi_exit : forall id line, (id, line) ∈ bounded_coastlines st ->
      ends_at_exit (all_events (c_heap st) EMPTY_INTERSECTION_MAP) id line /\
      (2 <= length line)%nat
}.

(** what holds, between two chains, of the published coastlines *)
Record clip_exit_inv (chains : list Line) (cs : ClipState) : Prop :=
  mk_clip_exit_inv {
  cx_ids : forall id, is_Some (open_coastlines cs !! id) ->
                      (id < supply cs)%nat;
  cx_settled : forall id l, open_coastlines cs !! id = Some l ->
      exists line, lines (heap cs) !! l = Some line /\
        (ends_at_exit (all_events (heap cs) EMPTY_INTERSECTION_MAP) id line \/
         is_tail (all_events (heap cs) EMPTY_INTERSECTION_MAP) chains id line)
}.

(** ** Notions used for the walker *)

(** every coordinate list of [h] is still there in [h'], possibly with
    points added in front *)
Definition grown_at_front (h h' : Heap) : Prop :=
  forall l line, lines h !! l = Some line ->
                 exists front, lines h' !! l = Some (front ++ line).

(** ** Inputs of the scenarios: the rectangle lon in [0,10], lat in [0,10] *)

Definition R10 : MapDimensions := MapDimensions_init (0, 0)%Q (10, 10)%Q.

(** a map with a single entering event, on the top side, and one with a
    single entering event on the bottom side *)
Definition lone_entering (s : Side) : IntersectionWithId :=
  mkIntersectionWithId (5, 5)%Q true s 0.
Definition heap_excess_top : Heap :=
  mkHeap [] [[lone_entering TOP]; []; []; []].
Definition heap_excess_bottom : Heap :=
  mkHeap [] [[]; []; [lone_entering BOTTOM]; []].

(** a chain that enters through the top side at (8,10) and leaves through
    the right side at (10,3) *)
Definition corner_wrap : Line := [(8,12); (8,3); (12,3)]%Q.

(** the chain of the second scenario: it starts inside, leaves through the
    top side at (3,10), comes back through the top side at (7,10) and ends
    inside *)
Definition top_notch : Line := [(3,5); (3,12); (7,12); (7,5)]%Q.

(** three closed rings that do not meet: the first crosses the top side at
    lon 1 and 2, the second leaves through the top side at lon 3, goes
    around the top right corner and comes back through the right side at
    lat 2, the third comes in through the top side at lon 4 and leaves
    through the right side at lat 8 *)
Definition nested_rings : list Line :=
  [ [(2,12); (2,5); (1,5); (1,12); (2,12)]%Q;
    [(3,5); (3,14); (14,14); (14,2); (5,2); (3,5)]%Q;
    [(4,12); (4,8); (12,8); (12,12); (4,12)]%Q ].

(** the walker on [nested_rings], after it has put the entering event at
    (4,10) aside for the first time and [k] more times: the event list of
    the top side has grown by as many copies of that event *)
Definition put_aside : IntersectionWithId :=
  mkIntersectionWithId (4, 10)%Q true TOP 4.

Definition spinning_top (k : nat) : list IntersectionWithId :=
  [ mkIntersectionWithId (1, 10)%Q false TOP 0;
    mkIntersectionWithId (2, 10)%Q true TOP 0;
    mkIntersectionWithId (3, 10)%Q false TOP 2 ]
  ++ replicate (2 + k) put_aside.

Definition spinning_heap (k : nat) : Heap :=
  mkHeap
    [ [(2,10); (2,5); (1,5); (1,10)]%Q;
      [(10,2); (5,2); (3,5); (3,10)]%Q;
      [(4,10); (4,8); (10,8)]%Q;
      [(10,2); (5,2); (3,5); (3,10); (2,10); (2,5); (1,5); (1,10)]%Q ]
    [ spinning_top k;
      [ mkIntersectionWithId (10, 8)%Q false RIGHT 4;
        mkIntersectionWithId (10, 2)%Q true RIGHT 2 ];
      []; [] ].

Definition spinning (k : nat) : WalkState :=
  mkWalkState look_enter TOP (4 + k) 3 (Some 0%nat) (Some 2%nat) [] []
    EMPTY_INTERSECTION_MAP true (spinning_heap k).

(** a chain that comes in through the bottom side, touches the top side at
    the vertex (5,10) and goes back the way it came *)
Definition touch_and_go : Line := [(7,-3); (5,10); (7,-3)]%Q.

Definition island : Line := [(2,2); (8,2); (8,8); (2,8); (2,2)]%Q.

(** the chain of the second scenario, closed on its first point *)
Definition closed_notch : Line := [(3,5); (3,12); (7,12); (7,5); (3,5)]%Q.

(** a chain that comes in through the bottom side, leaves through the top
    side, touches the top side again at the vertex (5,10) and ends on its
    first point *)
Definition back_out : Line := [(7,-3); (7,5); (7,12); (5,10); (7,-3)]%Q.

(** ** Notions used for the further properties *)

(** position of a side in the order in which the sides are scanned *)
Definition side_rank (s : Side) : nat :=
  match s with TOP => 0 | RIGHT => 1 | BOTTOM => 2 | LEFT => 3 end.

(** [a] does not come after [b] in the clockwise order of side [s] *)
Definition clockwise (s : Side) (a b : IntersectionWithId) : Prop :=
  match s with
  | TOP => (fst (ipoint a) <= fst (ipoint b))%Q
  | RIGHT => (snd (ipoint b) <= snd (ipoint a))%Q
  | BOTTOM => (fst (ipoint b) <= fst (ipoint a))%Q
  | LEFT => (snd (ipoint a) <= snd (ipoint b))%Q
  end.

(** [a] and [b] have equal sort keys on side [s] *)
Definition same_key (s : Side) (a b : IntersectionWithId) : bool :=
  side_le s a b && side_le s b a.

(** every event is kept in the list of the side it names, and its point
    lies on that side of the rectangle *)
Definition sides_ok (d : MapDimensions) (h : Heap) : Prop :=
  four_lists h /\
  forall s e, e ∈ events_on h EMPTY_INTERSECTION_MAP s ->
              iside e = s /\ on_side d s (ipoint e).

(** the chain has at least two points and all of them are inside the map *)
Definition stays_inside (d : MapDimensions) (c : Line) : bool :=
  (2 <=? length c)%nat && forallb (fun q => is_inside_map q d) c.

(** number of iterations of the walker's loop from the first index of side
    [s] to the starting point [(s0, k0)], going clockwise over at most [n]
    further sides; [len] gives the number of events of each side *)
Fixpoint to_start_from (len : Side -> nat) (s0 : Side) (k0 : nat) (n : nat)
    (s : Side) : nat :=
  if decide (s = s0) then k0
  else match n with
       | O => O
       | S n' => len s + 1 + to_start_from len s0 k0 n' (NEXT_SIDE_MAP s)
       end.

(** number of iterations from the cursor [(s, i)] to the starting point *)
Definition steps_to_start (len : Side -> nat) (s0 : Side) (k0 : nat)
    (s : Side) (i : nat) : nat :=
  if decide (s = s0 /\ i <= k0) then k0 - i
  else (len s - i) + 1 + to_start_from len s0 k0 3 (NEXT_SIDE_MAP s).

(** total number of events of a map *)
Definition event_count (h : Heap) (im : IntersectionMap) : nat :=
  length (all_events h im).

(** the map shares no list with the module constant *)
Definition unshared (im : IntersectionMap) : Prop :=
  forall s s', im_get im s <> im_get EMPTY_INTERSECTION_MAP s'.

(** the corner scenario with a map made of lists of its own *)
Definition own_map : IntersectionMap := mkIntersectionMap 4 5 6 7.
Definition own_heap : Heap :=
  mkHeap [[(8, 10); (8, 3); (10, 3)]%Q]
    [ []; []; []; [];
      [mkIntersectionWithId (8, 10)%Q true TOP 0];
      [mkIntersectionWithId (10, 3)%Q false RIGHT 0]; []; [] ].

(** number of sections not used yet *)
Definition unused_count (sections : list (Z * CoastlineSection)) : nat :=
  length (List.filter (fun item => negb (section_used (snd item))) sections).

(** every section is stored under its own identifier *)
Definition keyed_by_id (sections : list (Z * CoastlineSection)) : Prop :=
  forall k s, (k, s) ∈ sections -> section_id s = k.

(** the points of the ways *)
Definition way_points (coastlines : list Coastline) : list Coord :=
  concat (map coast_coords coastlines).

(** three ways: the second continues the first, the third stands alone *)
Definition three_ways : list Coastline :=
  [ mkCoastline 10 [(0,0); (1,0)]%Q [100; 101]%Z;
    mkCoastline 11 [(1,0); (2,0); (3,1)]%Q [101; 102; 103]%Z;
    mkCoastline 12 [(7,7)]%Q [200]%Z ].

(** what the loop keeps: sections stay under their identifiers, chains have
    two points or more, and every point comes from a section *)
Definition assembling (pts : list Coord) (st : AssemblerState) : Prop :=
  keyed_by_id (sections st) /\
  (forall k s p, (k, s) ∈ sections st -> p ∈ section_coords s -> p ∈ pts) /\
  (forall p, p ∈ current_chain st -> p ∈ pts) /\
  Forall (fun c => (2 <= length c)%nat /\ forall p, p ∈ c -> p ∈ pts) (chains st).

(** number of points of the sections not used yet *)
Fixpoint unused_points (sections : list (Z * CoastlineSection)) : nat :=
  match sections with
  | [] => O
  | item :: sections' =>
      (if section_used (snd item) then O
       else length (section_coords (snd item)))
      + unused_points sections'
  end.

(** the first way of [three_ways], with its tags *)
Definition coast_way : Way :=
  mkWay 10 [mkTag "source" "survey"; mkTag "natural" "coastline";
            mkTag "natural" "coastline"] [100; 101]%Z.

(** the three ways and a fourth one that crosses the boundary of [R10] *)
Definition four_ways : list Coastline :=
  three_ways ++ [mkCoastline 13 corner_wrap [300; 301; 302]%Z].
Definition assembled_chain : Line := [(0,0); (1,0); (2,0); (3,1)]%Q.

(** the chain never crosses the boundary: its points are all inside the map
    or all outside *)
Definition uncrossed (d : MapDimensions) (c : Line) : Prop :=
  Forall (fun q => is_inside_map q d = true) c \/
  Forall (fun q => is_inside_map q d = false) c.

(** a ring inside [R10], an open chain inside, a chain outside and a single
    point *)
Definition uncrossed_chains : list Line :=
  [ island; [(1,1); (2,2)]%Q; [(12,12); (13,15); (12,11)]%Q; [(3,3)]%Q ].

(** * Properties *)

(** ** Crossing computation *)

Section Geometry.
Local Open Scope Q_scope.

Lemma fsub_eq a b : fsub a b == a - b.
Proof. apply Qred_correct. Qed.
Lemma fadd_eq a b : fadd a b == a + b.
Proof. apply Qred_correct. Qed.
Lemma fmul_eq a b : fmul a b == a * b.
Proof. apply Qred_correct. Qed.
Lemma fdiv_eq a b : fdiv a b == a / b.
Proof. apply Qred_correct. Qed.

Lemma between_spec lo x hi : between lo x hi = true <-> lo <= x <= hi.
Proof.
  unfold between. rewrite andb_true_iff, !Qle_bool_iff. tauto.
Qed.

Lemma Qne_bool_spec a b : Qne_bool a b = true -> ~ a == b.
Proof.
  unfold Qne_bool. intros H E. apply Qeq_bool_iff in E.
  rewrite E in H. discriminate.
Qed.

Lemma Qlt_bool_spec a b : Qlt_bool a b = true <-> a < b.
Proof.
  unfold Qlt_bool. rewrite negb_true_iff. split.
  - intros H. apply Qnot_le_lt. intros L. apply Qle_bool_iff in L. congruence.
  - intros H. destruct (Qle_bool b a) eqn:E; [|reflexivity].
    apply Qle_bool_iff in E. exfalso. exact (Qlt_not_le _ _ H E).
Qed.

(** the parameter of a side line really gives a point of that line *)
Lemma param_hits_line (x1 x2 m : Q) :
  ~ x1 == x2 -> x1 + ((m - x1) / (x2 - x1)) * (x2 - x1) == m.
Proof.
  intros H. field. intros E. apply H. lra.
Qed.

Lemma side_candidate_accepted s p1 p2 d c :
  c ∈ side_candidate s p1 p2 d -> side c = s /\ accepted_on p1 p2 d c.
Proof.
  destruct p1 as [lon1 lat1], p2 as [lon2 lat2].
  unfold side_candidate.
  destruct s;
    repeat match goal with
    | |- context [if ?b then _ else _] => destruct b eqn:?
    end;
    intros Hin; try (apply elem_of_nil in Hin; contradiction);
    apply list_elem_of_singleton in Hin; subst c;
    (split; [reflexivity|]);
    match goal with
    | H : Qne_bool _ _ = true |- _ => apply Qne_bool_spec in H
    end;
    repeat match goal with
    | H : between _ _ _ = true |- _ => apply between_spec in H
    end;
    unfold accepted_on, on_side; cbn [point side fst snd];
    (split; [split; [reflexivity | assumption] |]);
    eexists; (split; [eassumption|]);
    rewrite ?fadd_eq, ?fmul_eq, ?fdiv_eq, ?fsub_eq;
    (split; [try reflexivity | try reflexivity]);
    symmetry; apply param_hits_line; assumption.
Qed.

Lemma list_min_elem x l : list_min x l = x \/ list_min x l ∈ l.
Proof.
  revert x. induction l as [|y l IH]; intros x; cbn [list_min].
  - now left.
  - destruct (IH (if Qlt_bool y x then y else x)) as [E|E].
    + rewrite E. destruct (Qlt_bool y x); [right; left | now left].
    + right. now right.
Qed.

Lemma list_min_lower x l :
  list_min x l <= x /\ forall y, y ∈ l -> list_min x l <= y.
Proof.
  revert x. induction l as [|y l IH]; intros x; cbn [list_min].
  - split; [apply Qle_refl|]. intros y Hy. apply elem_of_nil in Hy. tauto.
  - destruct (IH (if Qlt_bool y x then y else x)) as [H1 H2].
    destruct (Qlt_bool y x) eqn:E.
    + apply Qlt_bool_spec in E. split; [lra|].
      intros z Hz. apply elem_of_cons in Hz as [->|Hz]; [exact H1 | auto].
    + assert (x <= y).
      { unfold Qlt_bool in E. apply negb_false_iff, Qle_bool_iff in E. exact E. }
      split; [exact H1|].
      intros z Hz. apply elem_of_cons in Hz as [->|Hz]; [lra | auto].
Qed.

Lemma list_index_found v l k :
  list_index v l = Some k ->
  exists y, l !! k = Some y /\ y == v /\
            forall j z, (j < k)%nat -> l !! j = Some z -> ~ z == v.
Proof.
  revert k. induction l as [|y l IH]; intros k; cbn [list_index]; [discriminate|].
  destruct (Qeq_bool y v) eqn:E.
  - intros [= <-]. exists y. split; [reflexivity|].
    split; [now apply Qeq_bool_iff|]. intros j z Hj. lia.
  - destruct (list_index v l) as [k'|]; [|discriminate].
    intros [= <-]. destruct (IH k' eq_refl) as (z & Hz & Hzv & Hbefore).
    exists z. split; [exact Hz|]. split; [exact Hzv|].
    intros [|j] z' Hj Hz'.
    + cbn in Hz'. injection Hz' as <-. intros E'.
      apply Qeq_bool_iff in E'. congruence.
    + apply (Hbefore j z'); [lia | exact Hz'].
Qed.

Lemma list_index_exists v l : v ∈ l -> is_Some (list_index v l).
Proof.
  induction 1 as [v l|v y l _ IH]; cbn [list_index].
  - rewrite (proj2 (Qeq_bool_iff v v) (Qeq_refl v)). eauto.
  - destruct (Qeq_bool y v); [eauto|].
    destruct IH as [k ->]. cbn. eauto.
Qed.

(** the candidates of a side are those of the description *)
Lemma side_candidate_spec ar s p1 p2 d c :
  c ∈ Rounded.side_candidate ar s p1 p2 d <-> candidate_of ar d p1 p2 s c.
Proof.
  destruct p1 as [lon1 lat1], p2 as [lon2 lat2].
  unfold candidate_of, Rounded.side_candidate.
  destruct s; cbn [across along bound_of extent_of point_on inwards fst snd].
  all: match goal with
       | |- context [Qne_bool ?a ?b] =>
           unfold Qne_bool; destruct (Qeq_bool a b) eqn:Ene; cbn [negb];
           [ apply Qeq_bool_iff in Ene;
             split; [intros H; apply elem_of_nil in H; contradiction
                    | intros [H _]; contradiction]
           | apply Qeq_bool_neq in Ene ]
       end.
  all: match goal with
       | |- context [between 0 ?t 1] =>
           destruct (between 0 t 1) eqn:Et;
           [ apply between_spec in Et
           | split; [intros H; apply elem_of_nil in H; contradiction|];
             intros (_ & Ht & _); apply between_spec in Ht; congruence ]
       end.
  all: match goal with
       | |- context [between ?lo ?x ?hi] =>
           destruct (between lo x hi) eqn:Ex;
           [ apply between_spec in Ex
           | split; [intros H; apply elem_of_nil in H; contradiction|];
             intros (_ & _ & Hx & _); apply between_spec in Hx; congruence ]
       end.
  all: rewrite list_elem_of_singleton; split;
    [ intros ->; auto | intros (_ & _ & _ & ->); reflexivity ].
Qed.

Lemma candidate_of_side ar d p1 p2 s c :
  candidate_of ar d p1 p2 s c -> side c = s.
Proof. intros (_ & _ & _ & ->). reflexivity. Qed.

Lemma intersections_of_spec ar p1 p2 d c :
  c ∈ Rounded.intersections_of ar p1 p2 d <->
  exists s, candidate_of ar d p1 p2 s c.
Proof.
  unfold Rounded.intersections_of. rewrite !elem_of_app, !side_candidate_spec.
  split.
  - intros [H|[H|[H|H]]]; eauto.
  - intros [[] H]; auto.
Qed.

(** the candidates are listed in the order top, right, bottom, left, one
    for a side at most *)
Lemma intersections_in_side_order ar p1 p2 d :
  StronglySorted (fun a b => (side_rank (side a) < side_rank (side b))%nat)
                 (Rounded.intersections_of ar p1 p2 d).
Proof.
  assert (Hs : forall s, Rounded.side_candidate ar s p1 p2 d = [] \/
                         exists c, Rounded.side_candidate ar s p1 p2 d = [c] /\
                                   side c = s).
  { intros s. destruct p1 as [lon1 lat1], p2 as [lon2 lat2].
    unfold Rounded.side_candidate.
    destruct s;
      repeat match goal with
      | |- context [if ?b then _ else _] => destruct b
      end; cbn; eauto. }
  unfold Rounded.intersections_of.
  destruct (Hs TOP) as [->|(ct & -> & Et)], (Hs RIGHT) as [->|(cr & -> & Er)],
    (Hs BOTTOM) as [->|(cb & -> & Eb)], (Hs LEFT) as [->|(cl & -> & El)];
    cbn [app];
    repeat (apply SSorted_cons; [|repeat apply Forall_cons_2; try apply Forall_nil_2]);
    try apply SSorted_nil;
    rewrite ?Et, ?Er, ?Eb, ?El; cbn; lia.
Qed.

Lemma sorted_lookup {A} (R : A -> A -> Prop) l :
  StronglySorted R l ->
  forall j k a b, (j < k)%nat -> l !! j = Some a -> l !! k = Some b -> R a b.
Proof.
  induction 1 as [|x l Hs IH Hall]; intros j k a b Hjk Hj Hk; [discriminate|].
  destruct k as [|k]; [lia|]. cbn in Hk.
  destruct j as [|j].
  - cbn in Hj. injection Hj as <-.
    rewrite Forall_forall in Hall. apply Hall.
    apply list_elem_of_lookup. eauto.
  - cbn in Hj. apply (IH j k); [lia | assumption | assumption].
Qed.

(** [l.index(min(l))] on the values of [f]: the first of the elements that
    have the smallest value *)
Lemma closest_by (f : Intersection -> Q) (cands : list Intersection) i :
  head cands = Some i ->
  exists k c,
    list_index (list_min (f i) (tail (map f cands))) (map f cands) = Some k /\
    cands !! k = Some c /\
    (forall j c', cands !! j = Some c' -> f c <= f c') /\
    (forall j c', (j < k)%nat -> cands !! j = Some c' -> f c < f c').
Proof.
  destruct cands as [|i0 rest]; [discriminate|]. intros [= ->].
  cbn [map tail].
  set (ds := map f rest).
  set (m := list_min (f i) ds).
  destruct (list_min_lower (f i) ds) as [Hm1 Hm2]. fold m in Hm1, Hm2.
  assert (Hin : m ∈ f i :: ds).
  { destruct (list_min_elem (f i) ds) as [E|E]; fold m in E.
    - rewrite E. left.
    - now right. }
  destruct (list_index_exists _ _ Hin) as [k Hk].
  destruct (list_index_found _ _ _ Hk) as (y & Hy & Hym & Hbefore).
  change (f i :: ds) with (f <$> (i :: rest)) in Hy, Hbefore.
  rewrite list_lookup_fmap in Hy.
  destruct ((i :: rest) !! k) as [c|] eqn:Hc; [|discriminate].
  cbn in Hy. injection Hy as <-.
  assert (Hall : forall j c', (i :: rest) !! j = Some c' -> m <= f c').
  { intros [|j] c' Hj.
    - cbn in Hj. injection Hj as <-. exact Hm1.
    - change (rest !! j = Some c') in Hj. apply Hm2. unfold ds.
      apply list_elem_of_lookup. exists j.
      change (map f rest) with (f <$> rest).
      rewrite list_lookup_fmap, Hj. reflexivity. }
  exists k, c. split; [exact Hk|]. split; [exact Hc|]. split.
  - intros j c' Hj. rewrite Hym. eauto.
  - intros j c' Hjk Hj.
    assert (H1 := Hall j c' Hj).
    assert (H2 : ~ f c' == m).
    { apply (Hbefore j); [exact Hjk|]. rewrite list_lookup_fmap, Hj. reflexivity. }
    rewrite Hym. apply Qle_lteq in H1 as [H1|H1]; [exact H1|].
    exfalso. apply H2. symmetry. exact H1.
Qed.

(** the candidate at position [k] of the list, when no candidate is closer
    and those before it are farther, is the closest one, and the first of
    the closest in the order of the sides *)
Lemma closest_in_side_order ar p1 p2 d k c :
  Rounded.intersections_of ar p1 p2 d !! k = Some c ->
  (forall j c', Rounded.intersections_of ar p1 p2 d !! j = Some c' ->
                Rounded.distance_from ar p1 c <= Rounded.distance_from ar p1 c') ->
  (forall j c', (j < k)%nat ->
                Rounded.intersections_of ar p1 p2 d !! j = Some c' ->
                Rounded.distance_from ar p1 c < Rounded.distance_from ar p1 c') ->
  candidate_of ar d p1 p2 (side c) c /\
  forall s c', candidate_of ar d p1 p2 s c' ->
    squared_distance ar p1 (point c) <= squared_distance ar p1 (point c') /\
    (squared_distance ar p1 (point c') == squared_distance ar p1 (point c) ->
     (side_rank (side c) <= side_rank s)%nat).
Proof.
  intros Hk Hle Hlt.
  assert (Hc : candidate_of ar d p1 p2 (side c) c).
  { assert (Hin : c ∈ Rounded.intersections_of ar p1 p2 d)
      by (apply list_elem_of_lookup; eauto).
    apply intersections_of_spec in Hin as [s Hs].
    now rewrite (candidate_of_side _ _ _ _ _ _ Hs). }
  split; [exact Hc|]. intros s c' Hc'.
  assert (Hin : c' ∈ Rounded.intersections_of ar p1 p2 d)
    by (apply intersections_of_spec; eauto).
  apply list_elem_of_lookup in Hin as [j Hj].
  rewrite <- (candidate_of_side _ _ _ _ _ _ Hc').
  split; [exact (Hle j c' Hj)|].
  intros Htie.
  destruct (Nat.lt_trichotomy j k) as [Hjk|[->|Hkj]].
  - specialize (Hlt j c' Hjk Hj).
    change (Rounded.distance_from ar p1 c < Rounded.distance_from ar p1 c')
      with (squared_distance ar p1 (point c)
            < squared_distance ar p1 (point c')) in Hlt.
    lra.
  - rewrite Hk in Hj. injection Hj as <-. lia.
  - pose proof (sorted_lookup _ _ (intersections_in_side_order ar p1 p2 d)
                  k j c c' Hkj Hk Hj) as Hr.
    cbv beta in Hr. lia.
Qed.

(** with [exact_arith] the computation is the one of the clipper *)
Lemma exact_arith_is_the_model p1 p2 d :
  Rounded.find_segment_intersection_with_boundary exact_arith p1 p2 d
  = find_segment_intersection_with_boundary p1 p2 d.
Proof. destruct p1, p2. reflexivity. Qed.

(** C10. For a segment with exactly one end point inside the rectangle
    (boundary included), whatever the rounding of the arithmetic:
    [find_segment_intersection_with_boundary] returns a candidate, that is,
    for some side not parallel to the segment, the point at the computed
    parameter [t], with [t] in [0, 1] and the point within the extent of
    the side; of all the candidates it is the one with the smallest
    computed squared distance [dx * dx + dy * dy] from [p1], and among the
    candidates at that distance the one of the first side in the order
    top, right, bottom, left.  It raises the error of a crossing without
    intersection exactly when no side has a candidate, and does nothing
    else. *)
Theorem find_segment_intersection_with_boundary_closest ar p1 p2 d :
  xorb (is_inside_map p1 d) (is_inside_map p2 d) = true ->
  match Rounded.find_segment_intersection_with_boundary ar p1 p2 d with
  | Ok (Crossing c) =>
      candidate_of ar d p1 p2 (side c) c /\
      forall s c', candidate_of ar d p1 p2 s c' ->
        squared_distance ar p1 (point c) <= squared_distance ar p1 (point c') /\
        (squared_distance ar p1 (point c') == squared_distance ar p1 (point c) ->
         (side_rank (side c) <= side_rank s)%nat)
  | Err e =>
      e = ValueError no_intersection_msg /\
      forall s c', ~ candidate_of ar d p1 p2 s c'
  | _ => False
  end.
Proof.
  intros Hx. unfold Rounded.find_segment_intersection_with_boundary.
  destruct (is_inside_map p1 d), (is_inside_map p2 d); try discriminate;
    cbn [andb negb].
  all: destruct (Rounded.intersections_of ar p1 p2 d) as [|i [|i2 rest]] eqn:Ec.
  all: try (split; [reflexivity|]; intros s c' Hc';
            assert (Hin : c' ∈ Rounded.intersections_of ar p1 p2 d)
              by (apply intersections_of_spec; eauto);
            rewrite Ec in Hin; apply elem_of_nil in Hin; contradiction).
  all: try (apply (closest_in_side_order ar p1 p2 d 0 i);
            [ rewrite Ec; reflexivity
            | rewrite Ec; intros [|j] c' Hj;
              [cbn in Hj; injection Hj as <-; apply Qle_refl
              | destruct j; discriminate]
            | intros j c' Hj; lia ]).
  all: destruct (closest_by (Rounded.distance_from ar p1) (i :: i2 :: rest) i
                   eq_refl) as (k & c & Hk & Hc & Hle & Hlt);
       cbn [map tail tl] in Hk |- *; rewrite Hk, Hc;
       apply (closest_in_side_order ar p1 p2 d k c); rewrite Ec; assumption.
Qed.

(** the segment from (5,5) to (15,15) leaves through the top right corner,
    where the top side and the right side both have a candidate, at the
    same distance: the one of the top side is returned *)
Lemma find_segment_witness :
  xorb (is_inside_map (5, 5) R10) (is_inside_map (15, 15) R10) = true /\
  Rounded.find_segment_intersection_with_boundary exact_arith (5, 5) (15, 15) R10
  = Ok (Crossing (mkIntersection (10, 10) false TOP)) /\
  candidate_of exact_arith R10 (5, 5) (15, 15) RIGHT
    (mkIntersection (10, 10) false RIGHT) /\
  candidate_of exact_arith R10 (5, 5) (15, 15) TOP
    (mkIntersection (10, 10) false TOP).
Proof.
  assert (Hx : xorb (is_inside_map (5, 5) R10) (is_inside_map (15, 15) R10)
               = true) by (vm_compute; reflexivity).
  assert (Hr : Rounded.find_segment_intersection_with_boundary exact_arith
                 (5, 5) (15, 15) R10
               = Ok (Crossing (mkIntersection (10, 10) false TOP)))
    by (vm_compute; reflexivity).
  pose proof (find_segment_intersection_with_boundary_closest
                exact_arith (5, 5) (15, 15) R10 Hx) as H.
  rewrite Hr in H. destruct H as [Hc _].
  split; [exact Hx|]. split; [exact Hr|]. split; [|exact Hc].
  apply side_candidate_spec. vm_compute. left.
Defined.

End Geometry.

(** ** Chains that stay inside the rectangle *)

Lemma find_segment_inside p1 p2 d :
  is_inside_map p1 d = true -> is_inside_map p2 d = true ->
  find_segment_intersection_with_boundary p1 p2 d = Ok Inside.
Proof.
  intros H1 H2. unfold find_segment_intersection_with_boundary.
  now rewrite H1, H2.
Qed.

(** once the accumulator is not empty, inside segments only append *)
Lemma segment_loop_inside d im rest : forall p st,
  accumulator st <> [] ->
  Forall (fun q => is_inside_map q d = true) (p :: rest) ->
  segment_loop d im (zip (p :: rest) rest) st
  = Ok (mkChainState (does_coastline_cross_boundary st)
          (bounded_coastlines st) (accumulator st ++ rest) (current_id st)
          (c_heap st) (c_supply st)).
Proof.
  induction rest as [|q rest IH]; intros p st Hne Hin.
  - cbn. rewrite app_nil_r. now destruct st.
  - apply Forall_cons in Hin as [Hp Hin].
    assert (Hq : is_inside_map q d = true) by (apply Forall_cons in Hin; tauto).
    change (zip (p :: q :: rest) (q :: rest))
      with ((p, q) :: zip (q :: rest) rest).
    cbn [segment_loop]. unfold process_segment at 1.
    rewrite (find_segment_inside p q d Hp Hq). cbn [mbind Result_bind].
    destruct (accumulator st) as [|a acc] eqn:Ea; [congruence|].
    cbn [is_empty].
    rewrite IH; cbn [accumulator]; [ | discriminate | exact Hin ].
    cbn. now rewrite <- app_assoc.
Qed.

(** a chain of at least two points, all inside, ends up whole in the
    accumulator and leaves everything else alone *)
Lemma segment_loop_all_inside d im chain id h sup :
  (2 <= length chain)%nat ->
  Forall (fun q => is_inside_map q d = true) chain ->
  segment_loop d im (segments_of chain) (mkChainState false [] [] id h sup)
  = Ok (mkChainState false [] chain id h sup).
Proof.
  intros Hlen Hin. destruct chain as [|p [|q rest]]; cbn in Hlen; try lia.
  unfold segments_of. cbn [tail].
  change (zip (p :: q :: rest) (q :: rest))
    with ((p, q) :: zip (q :: rest) rest).
  cbn [segment_loop].
  apply Forall_cons in Hin as [Hp Hin].
  assert (Hq : is_inside_map q d = true) by (apply Forall_cons in Hin; tauto).
  unfold process_segment at 1.
  rewrite (find_segment_inside p q d Hp Hq). cbn [mbind Result_bind accumulator is_empty app].
  rewrite segment_loop_inside; cbn; [reflexivity | discriminate | exact Hin].
Qed.

Lemma process_coastline_inside d im cs chain :
  closed_inside d chain ->
  process_coastline d im cs chain
  = Ok (mkClipState (closed_coastlines cs ++ [chain]) (open_coastlines cs)
          (heap cs) (S (supply cs))).
Proof.
  intros (Hlen & _ & Hin). unfold process_coastline.
  destruct (length chain <? 2)%nat eqn:E; [apply Nat.ltb_lt in E; lia|].
  cbn [generate_bounded_coastline_id].
  rewrite segment_loop_all_inside by assumption. cbn [mbind Result_bind].
  unfold save_remaining. cbn [accumulator does_coastline_cross_boundary bounded_coastlines].
  destruct chain as [|p rest]; [cbn in Hlen; lia|].
  cbn. reflexivity.
Qed.

Lemma coastline_loop_inside d im chains : forall cs,
  Forall (closed_inside d) chains ->
  coastline_loop d im chains cs
  = Ok (mkClipState (closed_coastlines cs ++ chains) (open_coastlines cs)
          (heap cs) (length chains + supply cs)).
Proof.
  induction chains as [|c chains IH]; intros cs Hall.
  - cbn. rewrite app_nil_r. now destruct cs.
  - apply Forall_cons in Hall as [Hc Hall]. cbn [coastline_loop].
    rewrite process_coastline_inside by assumption. cbn [mbind Result_bind].
    rewrite IH by assumption. cbn.
    rewrite <- app_assoc. do 2 f_equal. lia.
Qed.

(** C9. When every chain handed to the clipper is closed and lies inside the
    rectangle (boundary included), the clipper started on the heap of a
    freshly loaded module returns the chains themselves, in order, as closed
    coastlines, publishes no open coastline and leaves the four event lists
    empty; the walker is not started and the output is the list of input
    chains.  The island of the first scenario is an instance. *)
Theorem closed_inside_chains_pass_through d chains sup fuel :
  Forall (closed_inside d) chains ->
  bound_and_sort_complete_coastlines d chains module_heap sup
  = Ok (chains, ∅, EMPTY_INTERSECTION_MAP, module_heap,
        (length chains + sup)%nat) /\
  (forall s, events_on module_heap EMPTY_INTERSECTION_MAP s = []) /\
  all_coastlines fuel d chains module_heap sup = Ok (chains, module_heap).
Proof.
  intros Hall.
  assert (Hb : bound_and_sort_complete_coastlines d chains module_heap sup
               = Ok (chains, ∅, EMPTY_INTERSECTION_MAP, module_heap,
                     (length chains + sup)%nat)).
  { unfold bound_and_sort_complete_coastlines.
    rewrite coastline_loop_inside by assumption. reflexivity. }
  split; [exact Hb|]. split; [intros []; reflexivity|].
  unfold all_coastlines. rewrite Hb. reflexivity.
Qed.

Lemma island_passes_through :
  Forall (closed_inside R10) [island] /\
  all_coastlines 0 R10 [island] module_heap 0 = Ok ([island], module_heap).
Proof.
  assert (H : Forall (closed_inside R10) [island]).
  { constructor; [|constructor].
    split; [cbn; lia|]. split; [reflexivity|].
    repeat constructor. }
  split; [exact H|].
  apply (closed_inside_chains_pass_through R10 [island] 0 0 H).
Defined.

(** ** Validation of the intersection map *)

(** C4, as amended. Validation fails exactly when the number of entering
    events differs from the number of exiting events, over the four sides;
    the error is then always the same [ValueError], whose message names no
    side; when the two numbers are equal validation returns [True]. *)
Theorem validate_intersection_map_balance h im :
  (validate_intersection_map h im = Ok true <->
   count_entering (all_events h im) = count_exiting (all_events h im)) /\
  (validate_intersection_map h im = Err (ValueError incomplete_msg) <->
   count_entering (all_events h im) <> count_exiting (all_events h im)) /\
  (forall r, validate_intersection_map h im = r ->
             r = Ok true \/ r = Err (ValueError incomplete_msg)).
Proof.
  unfold validate_intersection_map.
  destruct (Nat.eqb_spec (count_entering (all_events h im))
                         (count_exiting (all_events h im))) as [E|E];
    cbn [negb]; (split; [|split]).
  - tauto.
  - split; [discriminate | tauto].
  - intros r <-. now left.
  - split; [discriminate | tauto].
  - tauto.
  - intros r <-. now right.
Qed.

(** C4 as stated fails: the error cannot name the side that hosts the
    excess, since a map whose excess is on the top side and a map whose
    excess is on the bottom side are rejected with the same error. *)
Lemma validate_intersection_map_names_no_side :
  ~ exists side_named : Error -> Side,
      forall h im e,
        validate_intersection_map h im = Err e ->
        hosts_excess h im (side_named e).
Proof.
  intros [side_named H].
  assert (Ht := H heap_excess_top EMPTY_INTERSECTION_MAP
                  (ValueError incomplete_msg) eq_refl).
  assert (Hb := H heap_excess_bottom EMPTY_INTERSECTION_MAP
                  (ValueError incomplete_msg) eq_refl).
  destruct (side_named (ValueError incomplete_msg));
    (apply Ht; reflexivity) || (apply Hb; reflexivity).
Qed.

(** ** The walker at the end of a side *)

(** C8. When the cursor has run past the last event of the current side
    while the walker looks for an exit and no nested entrance is pending,
    the step prepends the clockwise-next corner of that side to the
    accumulated polygon, in place, and moves the cursor to index 0 of the
    next side.  The corners are (max_lon, max_lat) for the top,
    (max_lon, min_lat) for the right, (min_lon, min_lat) for the bottom and
    (min_lon, max_lat) for the left side.  For the chain that enters through
    the top side at (8,10) and leaves through the right side at (10,3), the
    single polygon produced contains the corner (10,10). *)
Theorem corner_prepended_past_end_of_side d oc im st :
  (length (events_on (w_heap st) im (current_side st)) <= current_index st)%nat ->
  looking_for st = look_exit ->
  entrace_id_to_look_for st = None ->
  (current_open_coastline_accumulator st < length (lines (w_heap st)))%nat ->
  (exists st',
     walk_step d oc im st = Ok st' /\
     current_open_coastline_accumulator st'
     = current_open_coastline_accumulator st /\
     read_line (w_heap st') (current_open_coastline_accumulator st')
     = side_clockwise_corners d (current_side st)
       :: read_line (w_heap st) (current_open_coastline_accumulator st) /\
     current_side st' = NEXT_SIDE_MAP (current_side st) /\
     current_index st' = 0%nat) /\
  (side_clockwise_corners d TOP = (max_lon d, max_lat d) /\
   side_clockwise_corners d RIGHT = (max_lon d, min_lat d) /\
   side_clockwise_corners d BOTTOM = (min_lon d, min_lat d) /\
   side_clockwise_corners d LEFT = (min_lon d, max_lat d)) /\
  (exists oc' im' h' sup',
     bound_and_sort_complete_coastlines R10 [corner_wrap] module_heap 0
     = Ok ([], oc', im', h', sup') /\
     events_on h' im' TOP = [mkIntersectionWithId (8, 10)%Q true TOP 0] /\
     events_on h' im' RIGHT = [mkIntersectionWithId (10, 3)%Q false RIGHT 0] /\
     exists polygon h'',
       all_coastlines 100 R10 [corner_wrap] module_heap 0
       = Ok ([polygon], h'') /\
       polygon = [(10, 3); (10, 10); (8, 10); (8, 3); (10, 3)]%Q /\
       (10, 10)%Q ∈ polygon).
Proof.
  intros Hend Hlook Hentr Hvalid. split; [|split].
  - unfold walk_step. unfold events_on in Hend.
    apply Nat.leb_le in Hend. rewrite Hend, Hlook, Hentr.
    eexists. split; [reflexivity|]. cbn.
    split; [reflexivity|]. split; [|auto].
    unfold read_line. cbn. rewrite list_lookup_insert_eq by exact Hvalid.
    reflexivity.
  - repeat split.
  - eexists _, _, _, _. split; [vm_compute; reflexivity|].
    split; [reflexivity|]. split; [reflexivity|].
    eexists _, _. split; [vm_compute; reflexivity|].
    split; [reflexivity|].
    apply list_elem_of_In. cbn. tauto.
Qed.

Lemma corner_prepended_witness :
  exists st',
    walk_step R10 {[0%nat := 0%nat]} EMPTY_INTERSECTION_MAP
      (mkWalkState look_exit TOP 1 0 (Some 0%nat) None [] []
         EMPTY_INTERSECTION_MAP false
         (mkHeap [[(8, 10); (8, 3); (10, 3)]%Q]
            [[mkIntersectionWithId (8, 10)%Q true TOP 0];
             [mkIntersectionWithId (10, 3)%Q false RIGHT 0]; []; []]))
    = Ok st' /\
    read_line (w_heap st') 0
    = [(10, 10); (8, 10); (8, 3); (10, 3)]%Q.
Proof.
  destruct (corner_prepended_past_end_of_side R10 {[0%nat := 0%nat]}
              EMPTY_INTERSECTION_MAP
              (mkWalkState look_exit TOP 1 0 (Some 0%nat) None [] []
                 EMPTY_INTERSECTION_MAP false
                 (mkHeap [[(8, 10); (8, 3); (10, 3)]%Q]
                    [[mkIntersectionWithId (8, 10)%Q true TOP 0];
                     [mkIntersectionWithId (10, 3)%Q false RIGHT 0]; []; []])))
    as [(st' & Hstep & Hacc & Hread & _) _].
  - cbn. lia.
  - reflexivity.
  - reflexivity.
  - cbn. lia.
  - exists st'. split; [exact Hstep|].
    rewrite Hacc in Hread. exact Hread.
Defined.

(** ** The second scenario *)

(** C1, as amended. For the chain [(3,5),(3,12),(7,12),(7,5)] the clipper
    publishes two open coastlines under two identifiers, [(3,5),(3,10)] and
    [(7,10),(7,5)]; the intersection map holds exactly two events, both on
    the top side: (3,10), exiting, with the identifier of the first, and
    (7,10), entering, with the identifier of the second.  The walker starts
    at the entering event, walks around the whole rectangle and closes no
    polygon: the output is empty. *)
Theorem top_notch_yields_two_open_coastlines :
  exists oc h h',
    bound_and_sort_complete_coastlines R10 [top_notch] module_heap 0
    = Ok ([], oc, EMPTY_INTERSECTION_MAP, h, 2%nat) /\
    map_to_list oc ≡ₚ [(0%nat, 0%nat); (1%nat, 1%nat)] /\
    read_line h 0 = [(3, 5); (3, 10)]%Q /\
    read_line h 1 = [(7, 10); (7, 5)]%Q /\
    all_events h EMPTY_INTERSECTION_MAP
    = [ mkIntersectionWithId (3, 10)%Q false TOP 0;
        mkIntersectionWithId (7, 10)%Q true TOP 1 ] /\
    find_intersection_map_starting_point h EMPTY_INTERSECTION_MAP
    = Some (TOP, 1%nat) /\
    all_coastlines 100 R10 [top_notch] module_heap 0 = Ok ([], h').
Proof.
  eexists _, _, _. split; [vm_compute; reflexivity|].
  split; [vm_compute; apply Permutation_swap|].
  split; [vm_compute; reflexivity|].
  split; [vm_compute; reflexivity|].
  split; [vm_compute; reflexivity|].
  split; [vm_compute; reflexivity|].
  vm_compute. reflexivity.
Qed.

(** C1 as stated fails: the clipper does not publish a single open coastline
    [(3,10),(3,5),(7,5),(7,10)] whose identifier both events carry, and the
    walker does not output the polygon [(3,10),(3,5),(7,5),(7,10),(3,10)]. *)
Lemma top_notch_not_one_polygon :
  ~ exists fuel closed oc im h sup id l h',
      bound_and_sort_complete_coastlines R10 [top_notch] module_heap 0
      = Ok (closed, oc, im, h, sup) /\
      map_to_list oc = [(id, l)] /\
      read_line h l = [(3, 10); (3, 5); (7, 5); (7, 10)]%Q /\
      all_events h im
      = [ mkIntersectionWithId (3, 10)%Q false TOP id;
          mkIntersectionWithId (7, 10)%Q true TOP id ] /\
      all_coastlines fuel R10 [top_notch] module_heap 0
      = Ok ([[(3, 10); (3, 5); (7, 5); (7, 10); (3, 10)]%Q], h').
Proof.
  intros (fuel & closed & oc & im & h & sup & id & l & h' & Hb & _ & _ & Hev & _).
  vm_compute in Hb. injection Hb as _ _ <- <- _.
  vm_compute in Hev. congruence.
Qed.

(** ** Sharing of the event lists *)

(** C3: what the code does.  [EMPTY_INTERSECTION_MAP.copy()] copies the
    dictionary, not its four lists.  After the clipper has run on the chain
    of the second scenario, the map it returns is made of the lists of the
    module constant; the map the walker allocates for the events it puts
    aside is made of the same lists, and its top list already holds the two
    events of the clipper.  A second run on the same input starts from these
    lists: its top list ends with four events, and where the first run
    returned no polygon, the second fails with a [KeyError]. *)
Theorem empty_intersection_map_is_shared :
  exists oc h sup,
    bound_and_sort_complete_coastlines R10 [top_notch] module_heap 0
    = Ok ([], oc, EMPTY_INTERSECTION_MAP, h, sup) /\
    (exists st0,
       walk_init oc EMPTY_INTERSECTION_MAP (TOP, 1%nat) h = Ok st0 /\
       current_skipped_intersection_map st0 = EMPTY_INTERSECTION_MAP /\
       length (events_on (w_heap st0)
                 (current_skipped_intersection_map st0) TOP) = 2%nat) /\
    exists h1,
      all_coastlines 100 R10 [top_notch] module_heap 0 = Ok ([], h1) /\
      (exists oc2 h2 sup2,
         bound_and_sort_complete_coastlines R10 [top_notch] h1 sup
         = Ok ([], oc2, EMPTY_INTERSECTION_MAP, h2, sup2) /\
         length (events_on h2 EMPTY_INTERSECTION_MAP TOP) = 4%nat) /\
      all_coastlines 100 R10 [top_notch] h1 sup = Err KeyError.
Proof.
  eexists _, _, _. split; [vm_compute; reflexivity|].
  split.
  { eexists. split; [vm_compute; reflexivity|].
    split; vm_compute; reflexivity. }
  eexists. split; [vm_compute; reflexivity|].
  split.
  { eexists _, _, _. split; vm_compute; reflexivity. }
  vm_compute. reflexivity.
Qed.

(** ** Events put aside and the end of the walk *)

Lemma spinning_top_length k : length (spinning_top k) = (5 + k)%nat.
Proof. unfold spinning_top. rewrite length_app, length_replicate. reflexivity. Qed.

Lemma spinning_top_lookup k : spinning_top k !! (4 + k)%nat = Some put_aside.
Proof.
  unfold spinning_top. rewrite lookup_app_r by (cbn; lia).
  apply lookup_replicate_2. cbn. lia.
Qed.

Lemma spinning_top_grows k : spinning_top k ++ [put_aside] = spinning_top (S k).
Proof.
  unfold spinning_top. rewrite <- app_assoc. f_equal.
  change [put_aside] with (replicate 1 put_aside).
  rewrite <- replicate_add. f_equal. lia.
Qed.

(** putting the event aside appends it to the list the cursor runs over *)
Lemma spinning_step oc k :
  oc !! 4%nat = Some 2%nat ->
  walk_step R10 oc EMPTY_INTERSECTION_MAP (spinning k) = Ok (spinning (S k)).
Proof.
  intros Hoc. unfold walk_step.
  change (read_events (w_heap (spinning k))
            (im_get EMPTY_INTERSECTION_MAP (current_side (spinning k))))
    with (spinning_top k).
  change (current_index (spinning k)) with (4 + k)%nat.
  rewrite spinning_top_length.
  replace (5 + k <=? 4 + k)%nat with false by (symmetry; apply Nat.leb_gt; lia).
  rewrite spinning_top_lookup. cbv beta iota zeta.
  change (bounded_coastline_id put_aside) with 4%nat.
  unfold loc in *. rewrite Hoc.
  cbn [looking_for spinning iis_entering put_aside negb exit_id_to_look_for
       entrace_id_to_look_for opt_is Nat.eqb].
  unfold spinning. f_equal. f_equal.
  change (read_events (w_heap (spinning k))
            (im_get EMPTY_INTERSECTION_MAP TOP)) with (spinning_top k).
  unfold write_events, spinning_heap. cbn [lines event_lists im_get
    current_skipped_intersection_map current_side top_list EMPTY_INTERSECTION_MAP].
  f_equal.
  change (read_events _ 0) with (spinning_top k).
  rewrite spinning_top_grows. reflexivity.
Qed.

Lemma spinning_forever oc fuel : forall k,
  oc !! 4%nat = Some 2%nat ->
  walk_loop fuel R10 oc EMPTY_INTERSECTION_MAP (TOP, 1%nat) (spinning k)
  = OutOfFuel.
Proof.
  induction fuel as [|fuel IH]; intros k Hoc.
  - reflexivity.
  - cbn [walk_loop].
    change (back_at_start (TOP, 1%nat) (spinning k)) with false.
    cbn iota. rewrite spinning_step by exact Hoc.
    cbn [mbind Result_bind]. apply IH. exact Hoc.
Qed.

(** the walker on the three rings: start, nested exit, first event put
    aside *)
Lemma nested_rings_reach_spinning :
  exists oc h st0 st1,
    bound_and_sort_complete_coastlines R10 nested_rings module_heap 0
    = Ok ([], oc, EMPTY_INTERSECTION_MAP, h, 6%nat) /\
    find_intersection_map_starting_point h EMPTY_INTERSECTION_MAP
    = Some (TOP, 1%nat) /\
    walk_init oc EMPTY_INTERSECTION_MAP (TOP, 1%nat) h = Ok st0 /\
    back_at_start (TOP, 1%nat) st0 = false /\
    walk_step R10 oc EMPTY_INTERSECTION_MAP st0 = Ok st1 /\
    back_at_start (TOP, 1%nat) st1 = false /\
    walk_step R10 oc EMPTY_INTERSECTION_MAP st1 = Ok (spinning 0) /\
    oc !! 4%nat = Some 2%nat.
Proof.
  eexists _, _, _, _.
  split; [vm_compute; reflexivity|].
  split; [vm_compute; reflexivity|].
  split; [vm_compute; reflexivity|].
  split; [vm_compute; reflexivity|].
  split; [vm_compute; reflexivity|].
  split; [vm_compute; reflexivity|].
  split; [vm_compute; reflexivity|].
  vm_compute. reflexivity.
Qed.

(** C2: what the code does.  On the three rings of [nested_rings] the walk
    never comes back to its starting point: the entering event at (4,10) is
    put aside, which appends it to the very list the cursor runs over, so
    that the cursor meets it again at the next index, for ever.  No amount
    of fuel lets the loop of the walker finish. *)
Theorem walk_on_nested_rings_never_ends fuel :
  all_coastlines fuel R10 nested_rings module_heap 0 = OutOfFuel.
Proof.
  destruct nested_rings_reach_spinning
    as (oc & h & st0 & st1 & Hb & Hs & H0 & Hn0 & H1 & Hn1 & H2 & Hoc).
  unfold all_coastlines. rewrite Hb. cbn [mbind Result_bind]. rewrite Hs.
  destruct fuel as [|fuel]; [reflexivity|].
  cbn [join_open_coastlines]. rewrite H0. cbn [mbind Result_bind].
  assert (Hloop : walk_loop fuel R10 oc EMPTY_INTERSECTION_MAP (TOP, 1%nat) st0
                  = OutOfFuel).
  { destruct fuel as [|fuel]; cbn [walk_loop]; rewrite Hn0; [reflexivity|].
    rewrite H1. cbn [mbind Result_bind].
    destruct fuel as [|fuel]; cbn [walk_loop]; rewrite Hn1; [reflexivity|].
    rewrite H2. cbn [mbind Result_bind].
    apply spinning_forever. exact Hoc. }
  rewrite Hloop. reflexivity.
Qed.

(** ** The merge at the end of a chain *)

Lemma rewrite_id_twice from to e :
  rewrite_id from to (rewrite_id from to e) = rewrite_id from to e.
Proof.
  unfold rewrite_id.
  destruct (Nat.eqb_spec (bounded_coastline_id e) from) as [E|E]; cbn.
  - destruct (Nat.eqb_spec to from); reflexivity.
  - destruct (Nat.eqb_spec (bounded_coastline_id e) from); [contradiction|reflexivity].
Qed.

Lemma map_rewrite_id_twice from to evs :
  map (rewrite_id from to) (map (rewrite_id from to) evs)
  = map (rewrite_id from to) evs.
Proof.
  rewrite map_map. apply map_ext. intros e. apply rewrite_id_twice.
Qed.

(** reading a list after another list, or the same, has been rewritten in
    place *)
Lemma read_events_rewritten h l l' f :
  read_events (write_events h l (map f (read_events h l))) l'
  = if decide (l = l') then map f (read_events h l') else read_events h l'.
Proof.
  unfold read_events, write_events. cbn [event_lists].
  destruct (decide (l = l')) as [<-|Hne].
  - destruct (event_lists h !! l) as [evs|] eqn:E.
    + rewrite list_lookup_insert_eq by (eapply lookup_lt_Some; eassumption).
      reflexivity.
    + rewrite list_insert_ge by (apply lookup_ge_None; exact E).
      rewrite E. reflexivity.
  - rewrite list_lookup_insert_ne by exact Hne. reflexivity.
Qed.

(** the merge loop rewrites the events of every side, whatever lists the
    sides share *)
Lemma events_on_rewrite_ids h im from to s :
  events_on (rewrite_ids h im from to) im s
  = map (rewrite_id from to) (events_on h im s).
Proof.
  unfold events_on, rewrite_ids, all_sides. cbn [foldl].
  rewrite !read_events_rewritten.
  destruct s; cbn [im_get];
    repeat case_decide; try congruence;
    rewrite ?map_rewrite_id_twice; reflexivity.
Qed.

(** what the merge is written for: the chain of the second scenario, closed
    on its first point.  Its tail, accumulated under the second
    identifier, ends with the first point of the chain; the first emitted
    coastline becomes the tail followed by its own points but the first,
    the entering event of the tail takes the first identifier, and one
    coastline is left. *)
Lemma merge_on_closed_notch :
  exists st st',
    segment_loop R10 EMPTY_INTERSECTION_MAP (segments_of closed_notch)
      (mkChainState false [] [] 0 module_heap 1) = Ok st /\
    bounded_coastlines st = [(0%nat, [(3,5); (3,10)]%Q)] /\
    accumulator st = [(7,10); (7,5); (3,5)]%Q /\
    current_id st = 1%nat /\
    save_remaining EMPTY_INTERSECTION_MAP closed_notch st = Ok (st', []) /\
    bounded_coastlines st'
    = [(0%nat, [(7,10); (7,5); (3,5); (3,10)]%Q)] /\
    events_on (c_heap st') EMPTY_INTERSECTION_MAP TOP
    = [ mkIntersectionWithId (3, 10)%Q false TOP 0;
        mkIntersectionWithId (7, 10)%Q true TOP 0 ].
Proof.
  eexists _, _. split; [vm_compute; reflexivity|].
  split; [reflexivity|]. split; [reflexivity|]. split; [reflexivity|].
  split; [vm_compute; reflexivity|].
  split; vm_compute; reflexivity.
Qed.

(** C7. The merge misses the case in which nothing has been emitted.  The
    chain [(7,-3),(5,10),(7,-3)] comes in through the bottom side, touches
    the top side at its vertex (5,10) and goes back: the segment that
    leaves from (5,10) is given the candidate of the top side at [t = 0],
    an entering one, so that the chain has crossed the boundary, has
    emitted no open coastline, and ends with an accumulator whose last
    point is the first point of the chain.  The merge then reads the first
    emitted coastline of an empty list and the clipper ends with an
    [IndexError], where the claim has it merge or publish. *)
Theorem merge_without_emitted_coastline_fails :
  exists st,
    segment_loop R10 EMPTY_INTERSECTION_MAP (segments_of touch_and_go)
      (mkChainState false [] [] 0 module_heap 1) = Ok st /\
    does_coastline_cross_boundary st = true /\
    accumulator st = [(5, 10); (7, -3)]%Q /\
    head touch_and_go = Some (7, -3)%Q /\
    bounded_coastlines st = [] /\
    save_remaining EMPTY_INTERSECTION_MAP touch_and_go st = Err IndexError /\
    bound_and_sort_complete_coastlines R10 [touch_and_go] module_heap 0
    = Err IndexError.
Proof.
  eexists. split; [vm_compute; reflexivity|].
  split; [reflexivity|]. split; [reflexivity|]. split; [reflexivity|].
  split; [reflexivity|]. split; vm_compute; reflexivity.
Qed.

(** the same touch of the top side, after a coastline has been emitted: the
    merge joins the accumulator [(5,10),(7,-3)] and the coastline
    [(7,0),(7,5),(7,10)].  The point it drops, (7,0), is the entering
    crossing of that coastline and not a copy of the accumulator's last
    point, which is outside the map and stays in the merged coastline. *)
Lemma merge_on_back_out :
  exists st st',
    segment_loop R10 EMPTY_INTERSECTION_MAP (segments_of back_out)
      (mkChainState false [] [] 0 module_heap 1) = Ok st /\
    bounded_coastlines st = [(0%nat, [(7,0); (7,5); (7,10)]%Q)] /\
    accumulator st = [(5,10); (7,-3)]%Q /\
    save_remaining EMPTY_INTERSECTION_MAP back_out st = Ok (st', []) /\
    bounded_coastlines st'
    = [(0%nat, [(5,10); (7,-3); (7,5); (7,10)]%Q)] /\
    is_inside_map (7,-3)%Q R10 = false.
Proof.
  eexists _, _. split; [vm_compute; reflexivity|].
  split; [reflexivity|]. split; [reflexivity|].
  split; [vm_compute; reflexivity|].
  split; vm_compute; reflexivity.
Qed.

(** ** Events and published identifiers *)

(** the map the clipper fills *)
Local Abbreviation im0 := EMPTY_INTERSECTION_MAP.

Lemma perm_mid {A} (l1 x l2 : list A) e :
  l1 ++ (x ++ [e]) ++ l2 ≡ₚ e :: l1 ++ x ++ l2.
Proof.
  rewrite <- app_assoc. cbn. symmetry.
  rewrite (app_assoc l1 x (e :: l2)), (app_assoc l1 x l2).
  apply Permutation_middle.
Qed.

Lemma all_events_append h e :
  four_lists h ->
  four_lists (append_event h im0 e) /\
  all_events (append_event h im0 e) im0 ≡ₚ e :: all_events h im0.
Proof.
  unfold four_lists. destruct h as [ls evl]. cbn [event_lists].
  destruct evl as [|a [|b [|c [|d [|x evl]]]]]; try discriminate. intros _.
  split; [destruct (iside e) eqn:E; unfold append_event; rewrite E; reflexivity|].
  unfold append_event, all_events, events_on, all_sides, read_events, write_events.
  destruct (iside e); cbn.
  - apply (perm_mid [] a).
  - apply (perm_mid a b).
  - rewrite (perm_mid b c). symmetry. apply Permutation_middle.
  - rewrite (perm_mid c d), <- !Permutation_middle. reflexivity.
Qed.

Lemma all_events_rewrite_ids h from to :
  four_lists h ->
  four_lists (rewrite_ids h im0 from to) /\
  all_events (rewrite_ids h im0 from to) im0
  = map (rewrite_id from to) (all_events h im0).
Proof.
  intros Hh. split.
  - unfold four_lists, rewrite_ids, all_sides, write_events in *. cbn.
    rewrite !length_insert. exact Hh.
  - unfold all_events, all_sides. cbn [map concat].
    rewrite !events_on_rewrite_ids, !map_app. reflexivity.
Qed.

Lemma ins_perm {A} (le : A -> A -> bool) x l : ins le x l ≡ₚ x :: l.
Proof.
  induction l as [|y l IH]; cbn; [reflexivity|].
  destruct (le x y); [reflexivity|].
  rewrite IH. apply Permutation_swap.
Qed.

Lemma stable_sort_perm {A} (le : A -> A -> bool) l : stable_sort le l ≡ₚ l.
Proof.
  induction l as [|x l IH]; cbn; [reflexivity|].
  rewrite ins_perm, IH. reflexivity.
Qed.

Lemma all_events_sort_sides h :
  four_lists h -> all_events (sort_sides im0 h) im0 ≡ₚ all_events h im0.
Proof.
  unfold four_lists. destruct h as [ls evl]. cbn [event_lists].
  destruct evl as [|a [|b [|c [|d [|x evl]]]]]; try discriminate. intros _.
  unfold sort_sides, sort_side, all_events, events_on, all_sides, read_events,
    write_events. cbn.
  rewrite !stable_sort_perm. reflexivity.
Qed.

#[local] Instance exits_of_perm id : Proper ((≡ₚ) ==> (=)) (exits_of id).
Proof. intros l1 l2 H. unfold exits_of. now rewrite H. Qed.

Lemma exits_of_cons id e evs :
  exits_of id (e :: evs)
  = ((if decide (bounded_coastline_id e = id /\ iis_entering e = false)
      then 1 else 0) + exits_of id evs)%nat.
Proof.
  unfold exits_of. rewrite filter_cons. case_decide; reflexivity.
Qed.

(** rewriting the identifier of entering events does not move exits *)
Lemma exits_of_rewrite from to id evs :
  (forall e, e ∈ evs -> bounded_coastline_id e = from -> iis_entering e = true) ->
  exits_of id (map (rewrite_id from to) evs) = exits_of id evs.
Proof.
  induction evs as [|e evs IH]; intros Hent; [reflexivity|].
  cbn [map]. rewrite !exits_of_cons.
  rewrite IH by (intros e' He'; apply Hent; now right).
  f_equal. unfold rewrite_id.
  destruct (Nat.eqb_spec (bounded_coastline_id e) from) as [E|E]; [|reflexivity].
  assert (iis_entering e = true) by (apply Hent; [left | exact E]).
  repeat case_decide; cbn in *; try reflexivity; intuition congruence.
Qed.


Lemma exits_of_none cur evs :
  (forall e, e ∈ evs -> bounded_coastline_id e = cur -> iis_entering e = true) ->
  exits_of cur evs = 0%nat.
Proof.
  induction evs as [|e evs IH]; intros Hent; [reflexivity|].
  rewrite exits_of_cons, IH by (intros e' He'; apply Hent; now right).
  case_decide as Hd; [|reflexivity].
  destruct Hd as [Hid Hex]. rewrite (Hent e) in Hex; [discriminate | left | exact Hid].
Qed.

Lemma pub_app oc bs id x :
  pub oc bs id -> pub oc (bs ++ [x]) id.
Proof.
  intros [H|H]; [now left | right]. rewrite fmap_app, elem_of_app. now left.
Qed.

Lemma pub_last oc bs id line : pub oc (bs ++ [(id, line)]) id.
Proof. right. rewrite fmap_app, elem_of_app. right. cbn. left. Qed.

Lemma process_segment_inv d oc st seg st' :
  chain_inv oc st ->
  process_segment d im0 st seg = Ok st' ->
  chain_inv oc st'.
Proof.
  intros [Hh Hcur Hids Hbd Hce Hpub Hex]. destruct seg as [p1 p2].
  unfold process_segment.
  destruct (find_segment_intersection_with_boundary p1 p2 d) as [[| |i]| |];
    cbn [mbind Result_bind]; try discriminate.
  - (* inside *)
    intros [= <-]. constructor; cbn; auto.
    intros e He Hid. destruct (Hce e He Hid) as (H1 & _ & H3).
    split; [exact H1|]. split; [|exact H3].
    intros Habs. apply app_eq_nil in Habs as [_ Habs]. discriminate.
  - (* outside *)
    destruct (is_empty (accumulator st)); [|discriminate].
    intros [= <-]. constructor; assumption.
  - (* crossing *)
    destruct (all_events_append (c_heap st) (with_id i (current_id st)) Hh)
      as [Hh' Hperm].
    destruct (is_entering i) eqn:Hent.
    + intros [= <-]. constructor; cbn [c_heap c_supply current_id
        bounded_coastlines accumulator does_coastline_cross_boundary]; auto.
      * intros e He. rewrite Hperm in He.
        apply elem_of_cons in He as [->|He]; [exact Hcur | auto].
      * intros e He Hid. rewrite Hperm in He.
        split; [|split; [discriminate | reflexivity]].
        apply elem_of_cons in He as [->|He]; [exact Hent|].
        apply (Hce e He Hid).
      * intros e He Hid. rewrite Hperm in He.
        apply elem_of_cons in He as [->|He]; [now cbn in Hid | auto].
      * intros id. rewrite Hperm, exits_of_cons.
        case_decide as Hd; [|apply Hex].
        destruct Hd as [_ Hd]. cbn in Hd. congruence.
    + cbn [generate_bounded_coastline_id].
      intros [= <-]. constructor; cbn [c_heap c_supply current_id
        bounded_coastlines accumulator does_coastline_cross_boundary]; auto.
      * intros e He. rewrite Hperm in He.
        apply elem_of_cons in He as [->|He]; [cbn; lia|].
        specialize (Hids e He). lia.
      * intros id. rewrite fmap_app, elem_of_app. intros [Hin|Hin].
        -- specialize (Hbd id Hin). lia.
        -- cbn in Hin. apply list_elem_of_singleton in Hin as ->. lia.
      * intros e He Hid. exfalso. rewrite Hperm in He.
        apply elem_of_cons in He as [->|He]; [cbn in Hid; lia|].
        specialize (Hids e He). lia.
      * intros e He _. rewrite Hperm in He.
        apply elem_of_cons in He as [->|He]; [apply pub_last|].
        destruct (decide (bounded_coastline_id e = current_id st)) as [->|Hne].
        -- apply pub_last.
        -- apply pub_app. auto.
      * intros id. rewrite Hperm, exits_of_cons.
        case_decide as Hd; [|specialize (Hex id); lia].
        destruct Hd as [Hd _]. cbn in Hd. subst id.
        rewrite (exits_of_none (current_id st)); [lia|].
        intros e He Hid. apply (Hce e He Hid).
Qed.

Lemma segment_loop_inv d oc segs : forall st st',
  chain_inv oc st ->
  segment_loop d im0 segs st = Ok st' ->
  chain_inv oc st'.
Proof.
  induction segs as [|seg segs IH]; intros st st' Hinv; cbn [segment_loop].
  - now intros [= <-].
  - destruct (process_segment d im0 st seg) as [st1| |] eqn:E;
      cbn [mbind Result_bind]; try discriminate.
    apply IH. eapply process_segment_inv; eassumption.
Qed.

(** the events after the last segment: each carries an identifier that is
    published with the chain or was published before *)
Lemma save_remaining_inv oc chain st st' closed :
  chain_inv oc st ->
  save_remaining im0 chain st = Ok (st', closed) ->
  four_lists (c_heap st') /\
  c_supply st' = c_supply st /\
  (forall e, e ∈ all_events (c_heap st') im0 ->
             (bounded_coastline_id e < c_supply st')%nat /\
             pub oc (bounded_coastlines st') (bounded_coastline_id e)) /\
  (forall id, (exits_of id (all_events (c_heap st') im0) <= 1)%nat).
Proof.
  intros [Hh Hcur Hids Hbd Hce Hpub Hex]. unfold save_remaining.
  assert (Hnocur : accumulator st = [] \/ does_coastline_cross_boundary st = false ->
                   forall e, e ∈ all_events (c_heap st) im0 ->
                             pub oc (bounded_coastlines st) (bounded_coastline_id e)).
  { intros Hor e He.
    destruct (decide (bounded_coastline_id e = current_id st)) as [Hid|Hne];
      [|auto].
    destruct (Hce e He Hid) as (_ & H2 & H3). destruct Hor; congruence. }
  destruct (accumulator st) as [|a0 acc] eqn:Eacc; cbn [is_empty].
  { intros [= <- <-].
    split; [exact Hh|]. split; [reflexivity|]. split; [|exact Hex].
    intros e He. split; [auto|]. apply Hnocur; [now left | exact He]. }
  destruct (does_coastline_cross_boundary st) eqn:Ecross; cbn [negb].
  2:{ destruct (bounded_coastlines st) eqn:Eb; cbn [is_empty negb]; [|discriminate].
      intros [= <- <-].
      split; [exact Hh|]. split; [reflexivity|]. split; [|exact Hex].
      intros e He. split; [auto|]. rewrite Eb.
      apply Hnocur; [now right | exact He]. }
  destruct (last (a0 :: acc)) as [a|]; [|discriminate].
  destruct (head chain) as [c|]; [|discriminate].
  destruct (coord_eqb a c).
  - destruct (bounded_coastlines st) as [|[first_id first_coords] rest] eqn:Eb;
      [discriminate|].
    intros [= <- <-]. cbn [c_heap c_supply bounded_coastlines].
    destruct (all_events_rewrite_ids (c_heap st) (current_id st) first_id Hh)
      as [Hh' Hev].
    assert (Hfirst : (first_id < c_supply st)%nat) by (apply Hbd; cbn; left).
    split; [exact Hh'|]. split; [reflexivity|]. split.
    + intros e He. rewrite Hev in He.
      apply list_elem_of_fmap in He as (e0 & -> & He0).
      unfold rewrite_id.
      destruct (Nat.eqb_spec (bounded_coastline_id e0) (current_id st)) as [E|E].
      * cbn. split; [exact Hfirst|]. right. cbn. left.
      * split; [auto|].
        destruct (Hpub e0 He0 E) as [H|H]; [now left | right].
        exact H.
    + intros id. rewrite Hev, exits_of_rewrite; [apply Hex|].
      intros e He Hid. apply (Hce e He Hid).
  - intros [= <- <-]. cbn [c_heap c_supply bounded_coastlines].
    split; [exact Hh|]. split; [reflexivity|]. split; [|exact Hex].
    intros e He. split; [auto|].
    destruct (decide (bounded_coastline_id e = current_id st)) as [->|Hne].
    + apply pub_last.
    + apply pub_app. auto.
Qed.

Lemma publish_spec bs : forall oc h oc' h',
  publish bs oc h = (oc', h') ->
  event_lists h' = event_lists h /\
  forall id, is_Some (oc' !! id) <-> pub oc bs id.
Proof.
  induction bs as [|[id0 line] bs IH]; intros oc h oc' h'; cbn [publish].
  - intros [= <- <-]. split; [reflexivity|].
    intros id. unfold pub. cbn. rewrite elem_of_nil. tauto.
  - cbn [alloc_line]. intros Hp. apply IH in Hp as [Hev Hdom].
    split; [exact Hev|]. intros id. rewrite Hdom. unfold pub.
    rewrite lookup_insert_is_Some. cbn [fmap list_fmap fst].
    rewrite elem_of_cons.
    destruct (decide (id0 = id)); intuition congruence.
Qed.

Lemma all_events_same_lists h h' im :
  event_lists h' = event_lists h -> all_events h' im = all_events h im.
Proof.
  intros E. unfold all_events, events_on, read_events. now rewrite E.
Qed.

Lemma process_coastline_inv d cs chain cs' :
  clip_inv cs ->
  process_coastline d im0 cs chain = Ok cs' ->
  clip_inv cs'.
Proof.
  intros Hinv. unfold process_coastline.
  destruct (length chain <? 2)%nat; [now intros [= <-]|].
  cbn [generate_bounded_coastline_id].
  destruct (segment_loop d im0 (segments_of chain) _) as [st| |] eqn:Eloop;
    cbn [mbind Result_bind]; try discriminate.
  destruct (save_remaining im0 chain st) as [[st' closed]| |] eqn:Esave;
    cbn [mbind Result_bind]; try discriminate.
  destruct (publish (bounded_coastlines st') (open_coastlines cs) (c_heap st'))
    as [oc h] eqn:Epub.
  intros [= <-].
  assert (Hstart : chain_inv (open_coastlines cs)
            (mkChainState false [] [] (supply cs) (heap cs) (S (supply cs)))).
  { destruct Hinv as [Hh Hids Hpub Hex].
    constructor; cbn [c_heap c_supply current_id bounded_coastlines
      accumulator does_coastline_cross_boundary]; auto.
    - intros e He. specialize (Hids e He). lia.
    - intros id Hid. cbn in Hid. apply elem_of_nil in Hid. contradiction.
    - intros e He Hid. specialize (Hids e He). lia.
    - intros e He _. left. auto. }
  pose proof (segment_loop_inv d _ _ _ _ Hstart Eloop) as Hst.
  destruct (save_remaining_inv _ _ _ _ _ Hst Esave) as (Hh' & Hsup & Hev & Hex').
  destruct (publish_spec _ _ _ _ _ Epub) as [Hlists Hdom].
  assert (Hall := all_events_same_lists (c_heap st') h im0 Hlists).
  constructor; cbn [heap supply open_coastlines].
  - unfold four_lists in *. congruence.
  - intros e He. rewrite Hall in He. apply (Hev e He).
  - intros e He. rewrite Hall in He. apply Hdom, (Hev e He).
  - intros id. rewrite Hall. apply Hex'.
Qed.

Lemma coastline_loop_inv d chains : forall cs cs',
  clip_inv cs ->
  coastline_loop d im0 chains cs = Ok cs' ->
  clip_inv cs'.
Proof.
  induction chains as [|c chains IH]; intros cs cs' Hinv; cbn [coastline_loop].
  - now intros [= <-].
  - destruct (process_coastline d im0 cs c) as [cs1| |] eqn:E;
      cbn [mbind Result_bind]; try discriminate.
    apply IH. eapply process_coastline_inv; eassumption.
Qed.

Lemma exits_of_app id l1 l2 :
  exits_of id (l1 ++ l2) = (exits_of id l1 + exits_of id l2)%nat.
Proof. unfold exits_of. now rewrite filter_app, length_app. Qed.

Lemma exits_of_foreign id evs :
  Forall (fun e => bounded_coastline_id e <> id) evs -> exits_of id evs = 0%nat.
Proof.
  induction 1 as [|e evs He _ IH]; [reflexivity|].
  rewrite exits_of_cons, IH. case_decide as Hd; [|reflexivity].
  destruct Hd. contradiction.
Qed.

(** events under other identifiers do not unsettle a published coastline *)
Lemma ends_at_exit_frame evs evs' id line :
  (forall e, e ∈ evs -> bounded_coastline_id e = id -> e ∈ evs') ->
  exits_of id evs' = exits_of id evs ->
  ends_at_exit evs id line -> ends_at_exit evs' id line.
Proof.
  intros Hin Hex [H1 (e & He & Hid & Hout & Hlast)].
  split; [congruence|]. exists e. auto.
Qed.

Lemma is_tail_frame evs evs' chains id line :
  exits_of id evs' = exits_of id evs ->
  is_tail evs chains id line -> is_tail evs' chains id line.
Proof. intros Hex [H1 H2]. split; [congruence | exact H2]. Qed.

(** after a segment the accumulator is empty or ends with the second point
    of the segment *)
Lemma process_segment_last d im st p1 p2 st' :
  process_segment d im st (p1, p2) = Ok st' ->
  accumulator st' = [] \/ last (accumulator st') = Some p2.
Proof.
  unfold process_segment.
  destruct (find_segment_intersection_with_boundary p1 p2 d) as [[| |i]| |];
    cbn [mbind Result_bind]; try discriminate.
  - intros [= <-]. right. cbn [accumulator]. apply last_snoc.
  - destruct (accumulator st) eqn:E; cbn [is_empty]; [|discriminate].
    intros [= <-]. now left.
  - destruct (is_entering i).
    + intros [= <-]. right. reflexivity.
    + cbn [generate_bounded_coastline_id]. intros [= <-]. now left.
Qed.

Lemma segment_loop_last d im st' rest : forall p st,
  rest <> [] ->
  segment_loop d im (zip (p :: rest) rest) st = Ok st' ->
  accumulator st' = [] \/ last (accumulator st') = last rest.
Proof.
  induction rest as [|q rest IH]; intros p st Hne; [congruence|].
  change (zip (p :: q :: rest) (q :: rest))
    with ((p, q) :: zip (q :: rest) rest).
  cbn [segment_loop].
  destruct (process_segment d im st (p, q)) as [st1| |] eqn:E;
    cbn [mbind Result_bind]; try discriminate.
  destruct rest as [|r rest].
  - cbn [zip zip_with segment_loop]. intros [= <-].
    apply (process_segment_last _ _ _ _ _ _ E).
  - intros H. apply IH in H; [|discriminate]. exact H.
Qed.

Lemma last_app_ne {A} (l1 l2 : list A) : l2 <> [] -> last (l1 ++ l2) = last l2.
Proof.
  intros H. rewrite last_app. destruct (last l2) eqn:E; [reflexivity|].
  apply last_None in E. contradiction.
Qed.

Lemma last_cons_ne {A} (x : A) l : l <> [] -> last (x :: l) = last l.
Proof. destruct l; [congruence | reflexivity]. Qed.

(** events that enter do not count as exits, and events of another
    identifier do not count for this one *)
Lemma exits_of_cons_other id e evs :
  bounded_coastline_id e <> id \/ iis_entering e = true ->
  exits_of id (e :: evs) = exits_of id evs.
Proof.
  intros H. rewrite exits_of_cons. case_decide as Hd; [|reflexivity].
  destruct Hd as [H1 H2]. destruct H; congruence.
Qed.

Lemma process_segment_exit_inv d oc sup0 evs0 st seg st' :
  chain_inv oc st -> exit_inv sup0 evs0 st ->
  process_segment d im0 st seg = Ok st' ->
  exit_inv sup0 evs0 st'.
Proof.
  intros [Hh Hcur Hids Hbd Hce Hpub Hex] [Xsup Xids (new & Xperm & Xnew) Xexit].
  destruct seg as [p1 p2]. unfold process_segment.
  destruct (find_segment_intersection_with_boundary p1 p2 d) as [[| |i]| |];
    cbn [mbind Result_bind]; try discriminate.
  - intros [= <-]. constructor; cbn; eauto.
  - destruct (is_empty (accumulator st)); [|discriminate].
    intros [= <-]. constructor; eauto.
  - destruct (all_events_append (c_heap st) (with_id i (current_id st)) Hh)
      as [Hh' Hperm].
    destruct (is_entering i) eqn:Hent.
    + intros [= <-]. constructor; cbn [c_heap c_supply current_id
        bounded_coastlines accumulator does_coastline_cross_boundary]; auto.
      * exists (with_id i (current_id st) :: new). split.
        -- rewrite Hperm, Xperm. reflexivity.
        -- constructor; [exact Xsup | exact Xnew].
      * intros id line Hin. destruct (Xexit id line Hin) as [Hend Hlen].
        split; [|exact Hlen].
        apply (ends_at_exit_frame
                 (all_events (c_heap st) im0)); [| |exact Hend].
        -- intros e He _. rewrite Hperm. now right.
        -- rewrite Hperm. apply exits_of_cons_other. right. exact Hent.
    + cbn [generate_bounded_coastline_id].
      intros [= <-]. constructor; cbn [c_heap c_supply current_id
        bounded_coastlines accumulator does_coastline_cross_boundary].
      * lia.
      * intros id. rewrite fmap_app, elem_of_app. intros [Hin|Hin].
        -- specialize (Xids id Hin). lia.
        -- cbn in Hin. apply list_elem_of_singleton in Hin as ->. lia.
      * exists (with_id i (current_id st) :: new). split.
        -- rewrite Hperm, Xperm. reflexivity.
        -- constructor; [exact Xsup | exact Xnew].
      * intros id line Hin. apply elem_of_app in Hin as [Hin|Hin].
        -- destruct (Xexit id line Hin) as [Hend Hlen]. split; [|exact Hlen].
           assert (Hne : id <> current_id st).
           { assert (id ∈ (fst <$> bounded_coastlines st)).
             { apply list_elem_of_fmap. exists (id, line). auto. }
             specialize (Xids id H). lia. }
           apply (ends_at_exit_frame
                    (all_events (c_heap st) im0)); [| |exact Hend].
           ++ intros e He _. rewrite Hperm. now right.
           ++ rewrite Hperm. apply exits_of_cons_other. left. cbn. congruence.
        -- apply list_elem_of_singleton in Hin. injection Hin as -> ->.
           split.
           ++ split.
              ** rewrite Hperm, exits_of_cons.
                 rewrite (exits_of_none (current_id st))
                   by (intros e He Hid; apply (Hce e He Hid)).
                 case_decide as Hd; [reflexivity|].
                 exfalso. apply Hd. cbn. auto.
              ** exists (with_id i (current_id st)).
                 split; [rewrite Hperm; left|].
                 split; [reflexivity|]. split; [exact Hent|].
                 cbn [with_id ipoint]. apply last_snoc.
           ++ rewrite length_app. cbn [length].
              destruct (accumulator st); cbn; lia.
Qed.

Lemma segment_loop_exit_inv d oc sup0 evs0 segs : forall st st',
  chain_inv oc st -> exit_inv sup0 evs0 st ->
  segment_loop d im0 segs st = Ok st' ->
  exit_inv sup0 evs0 st'.
Proof.
  induction segs as [|seg segs IH]; intros st st' Hinv Hx; cbn [segment_loop].
  - now intros [= <-].
  - destruct (process_segment d im0 st seg) as [st1| |] eqn:E;
      cbn [mbind Result_bind]; try discriminate.
    apply IH.
    + eapply process_segment_inv; eassumption.
    + eapply process_segment_exit_inv; eassumption.
Qed.

Lemma map_rewrite_id_foreign from to evs :
  Forall (fun e => bounded_coastline_id e <> from) evs ->
  map (rewrite_id from to) evs = evs.
Proof.
  induction 1 as [|e evs He _ IH]; [reflexivity|].
  cbn [map]. rewrite IH. f_equal. unfold rewrite_id.
  destruct (Nat.eqb_spec (bounded_coastline_id e) from); [contradiction|].
  reflexivity.
Qed.

Lemma rewrite_id_foreign from to e :
  bounded_coastline_id e <> from -> rewrite_id from to e = e.
Proof.
  intros H. unfold rewrite_id.
  destruct (Nat.eqb_spec (bounded_coastline_id e) from); [contradiction|].
  reflexivity.
Qed.

(** the coastlines of a chain after the last segment: each ends at its
    exit, but the one saved from the accumulator, which has no exit and ends
    with the chain *)
Lemma save_remaining_exit oc sup0 evs0 chain st st' closed :
  chain_inv oc st -> exit_inv sup0 evs0 st ->
  (forall e, e ∈ evs0 -> (bounded_coastline_id e < sup0)%nat) ->
  (accumulator st = [] \/ last (accumulator st) = last chain) ->
  save_remaining im0 chain st = Ok (st', closed) ->
  lines (c_heap st') = lines (c_heap st) /\
  (forall id, id ∈ (fst <$> bounded_coastlines st') ->
              (sup0 <= id < c_supply st')%nat) /\
  (exists new, all_events (c_heap st') im0 ≡ₚ new ++ evs0 /\
               Forall (fun e => (sup0 <= bounded_coastline_id e)%nat) new) /\
  (forall id line, (id, line) ∈ bounded_coastlines st' ->
     ends_at_exit (all_events (c_heap st') im0) id line \/
     (exits_of id (all_events (c_heap st') im0) = 0%nat /\
      is_Some (last chain) /\ last line = last chain)).
Proof.
  intros [Hh Hcur Hids Hbd Hce Hpub Hex] [Xsup Xids (new & Xperm & Xnew) Xexit]
    Hold Hlast.
  assert (Hsame : lines (c_heap st) = lines (c_heap st) /\
            (forall id, id ∈ (fst <$> bounded_coastlines st) ->
                        (sup0 <= id < c_supply st)%nat) /\
            (exists new, all_events (c_heap st) im0 ≡ₚ new ++ evs0 /\
               Forall (fun e => (sup0 <= bounded_coastline_id e)%nat) new) /\
            (forall id line, (id, line) ∈ bounded_coastlines st ->
               ends_at_exit (all_events (c_heap st) im0) id line \/
               (exits_of id (all_events (c_heap st) im0) = 0%nat /\
                is_Some (last chain) /\ last line = last chain))).
  { split; [reflexivity|]. split.
    - intros id Hid. specialize (Xids id Hid). lia.
    - split; [eauto|]. intros id line Hin. left. apply (Xexit id line Hin). }
  unfold save_remaining.
  destruct (accumulator st) as [|a0 acc] eqn:Eacc; cbn [is_empty].
  { intros [= <- <-]. exact Hsame. }
  destruct (does_coastline_cross_boundary st) eqn:Ecross; cbn [negb].
  2:{ destruct (bounded_coastlines st) eqn:Eb; cbn [is_empty negb]; [|discriminate].
      intros [= <- <-]. rewrite Eb. exact Hsame. }
  destruct Hlast as [Hlast|Hlast]; [discriminate|].
  destruct (last (a0 :: acc)) as [a|] eqn:Ela; [|discriminate].
  destruct (head chain) as [c|]; [|discriminate].
  destruct (coord_eqb a c).
  - destruct (bounded_coastlines st) as [|[first_id first_coords] rest] eqn:Eb;
      [discriminate|].
    intros [= <- <-]. cbn [c_heap c_supply bounded_coastlines].
    destruct (all_events_rewrite_ids (c_heap st) (current_id st) first_id Hh)
      as [Hh' Hev].
    assert (Hfirst : (sup0 <= first_id < current_id st)%nat)
      by (apply Xids; cbn; left).
    split; [reflexivity|]. split; [|split].
    + intros id Hid. assert (sup0 <= id < current_id st)%nat; [|lia].
      apply Xids. exact Hid.
    + exists (map (rewrite_id (current_id st) first_id) new). split.
      * rewrite Hev, Xperm, map_app.
        rewrite (map_rewrite_id_foreign _ _ evs0); [reflexivity|].
        apply Forall_forall. intros e He. specialize (Hold e He). lia.
      * clear Xperm. induction Xnew as [|e new He _ IH]; constructor; [|exact IH].
        unfold rewrite_id.
        destruct (Nat.eqb (bounded_coastline_id e) (current_id st)); cbn; lia.
    + assert (Hkeep : forall id line0 line,
                (id, line0) ∈ (first_id, first_coords) :: rest ->
                last line = last line0 ->
                ends_at_exit (all_events (rewrite_ids (c_heap st) im0
                                (current_id st) first_id) im0) id line).
      { intros id line0 line Hin Hl.
        destruct (Xexit id line0 Hin) as [[H1 (e & He & Hid & Hout & Hle)] _].
        assert (Hne : id <> current_id st).
        { assert (Hi : id ∈ (fst <$> (first_id, first_coords) :: rest)).
          { apply list_elem_of_fmap. exists (id, line0). auto. }
          specialize (Xids id Hi). lia. }
        split.
        - rewrite Hev, exits_of_rewrite; [exact H1|].
          intros e' He' Hid'. apply (Hce e' He' Hid').
        - exists e. rewrite Hev. split.
          + apply list_elem_of_fmap. exists e. split; [|exact He].
            symmetry. apply rewrite_id_foreign. congruence.
          + split; [exact Hid|]. split; [exact Hout|]. congruence. }
      intros id line Hin. left.
      apply elem_of_cons in Hin as [Hin|Hin].
      * injection Hin as -> ->.
        apply (Hkeep first_id first_coords); [left|].
        destruct (Xexit first_id first_coords ltac:(left)) as [_ Hlen].
        destruct first_coords as [|x [|y fc]]; cbn in Hlen; try lia.
        cbn [tail]. transitivity (last (y :: fc)); [|reflexivity].
        apply (last_app_ne (a0 :: acc) (y :: fc)). discriminate.
      * apply (Hkeep id line); [now right | reflexivity].
  - intros [= <- <-]. cbn [c_heap c_supply bounded_coastlines].
    split; [reflexivity|]. split; [|split].
    + intros id. rewrite fmap_app, elem_of_app. intros [Hid|Hid].
      * specialize (Xids id Hid). lia.
      * cbn in Hid. apply list_elem_of_singleton in Hid as ->. lia.
    + eauto.
    + intros id line Hin. apply elem_of_app in Hin as [Hin|Hin].
      * left. apply (Xexit id line Hin).
      * apply list_elem_of_singleton in Hin. injection Hin as -> ->.
        right. split.
        -- apply exits_of_none. intros e He Hid. apply (Hce e He Hid).
        -- rewrite <- Hlast, Ela. split; [eauto | reflexivity].
Qed.

(** publishing gives every coastline of the list a list object of its own
    and leaves the other identifiers and the other list objects alone *)
Lemma publish_lines bs : forall oc h oc' h',
  publish bs oc h = (oc', h') ->
  (forall l line, lines h !! l = Some line -> lines h' !! l = Some line) /\
  (forall id l, oc' !! id = Some l ->
     (exists line, (id, line) ∈ bs /\ lines h' !! l = Some line) \/
     ((id ∉ (fst <$> bs)) /\ oc !! id = Some l)).
Proof.
  induction bs as [|[id0 line0] bs IH]; intros oc h oc' h'; cbn [publish].
  - intros [= <- <-]. split; [auto|]. intros id l H. right.
    split; [apply not_elem_of_nil | exact H].
  - cbn [alloc_line]. intros Hp. apply IH in Hp as [Hkeep Hnew].
    cbn [lines] in Hkeep. split.
    + intros l line Hl. apply Hkeep. apply lookup_app_l_Some. exact Hl.
    + intros id l Hl. destruct (Hnew id l Hl) as [(line & Hin & Hline)|[Hnot Hoc]].
      * left. exists line. split; [now right | exact Hline].
      * destruct (decide (id0 = id)) as [->|Hne].
        -- rewrite lookup_insert_eq in Hoc. injection Hoc as <-.
           left. exists line0. split; [left|].
           apply Hkeep. rewrite lookup_app_r by lia.
           rewrite Nat.sub_diag. reflexivity.
        -- rewrite lookup_insert_ne in Hoc by exact Hne.
           right. split; [|exact Hoc].
           cbn [fmap list_fmap fst]. rewrite not_elem_of_cons. auto.
Qed.

Lemma process_segment_lines d im st seg st' :
  process_segment d im st seg = Ok st' ->
  lines (c_heap st') = lines (c_heap st).
Proof.
  destruct seg as [p1 p2]. unfold process_segment.
  destruct (find_segment_intersection_with_boundary p1 p2 d) as [[| |i]| |];
    cbn [mbind Result_bind]; try discriminate.
  - now intros [= <-].
  - destruct (is_empty (accumulator st)); [|discriminate]. now intros [= <-].
  - destruct (is_entering i); [now intros [= <-]|].
    cbn [generate_bounded_coastline_id]. now intros [= <-].
Qed.

Lemma segment_loop_lines d im segs : forall st st',
  segment_loop d im segs st = Ok st' ->
  lines (c_heap st') = lines (c_heap st).
Proof.
  induction segs as [|seg segs IH]; intros st st'; cbn [segment_loop].
  - now intros [= <-].
  - destruct (process_segment d im st seg) as [st1| |] eqn:E;
      cbn [mbind Result_bind]; try discriminate.
    intros H. rewrite (IH _ _ H). apply (process_segment_lines _ _ _ _ _ E).
Qed.

Lemma chain_inv_start cs :
  clip_inv cs ->
  chain_inv (open_coastlines cs)
    (mkChainState false [] [] (supply cs) (heap cs) (S (supply cs))).
Proof.
  intros [Hh Hids Hpub Hex].
  constructor; cbn [c_heap c_supply current_id bounded_coastlines
    accumulator does_coastline_cross_boundary]; auto.
  - intros e He. specialize (Hids e He). lia.
  - intros id Hid. cbn in Hid. apply elem_of_nil in Hid. contradiction.
  - intros e He Hid. specialize (Hids e He). lia.
  - intros e He _. left. auto.
Qed.

Lemma process_coastline_exit_inv chains d cs chain cs' :
  chain ∈ chains ->
  clip_inv cs -> clip_exit_inv chains cs ->
  process_coastline d im0 cs chain = Ok cs' ->
  clip_exit_inv chains cs'.
Proof.
  intros Hchain Hinv Hx. unfold process_coastline.
  destruct (length chain <? 2)%nat eqn:Elen; [now intros [= <-]|].
  apply Nat.ltb_ge in Elen.
  cbn [generate_bounded_coastline_id].
  destruct (segment_loop d im0 (segments_of chain) _) as [st| |] eqn:Eloop;
    cbn [mbind Result_bind]; try discriminate.
  destruct (save_remaining im0 chain st) as [[st' closed]| |] eqn:Esave;
    cbn [mbind Result_bind]; try discriminate.
  destruct (publish (bounded_coastlines st') (open_coastlines cs) (c_heap st'))
    as [oc h] eqn:Epub.
  intros [= <-].
  pose proof (chain_inv_start cs Hinv) as Hstart.
  assert (Xstart : exit_inv (supply cs) (all_events (heap cs) im0)
            (mkChainState false [] [] (supply cs) (heap cs) (S (supply cs)))).
  { constructor; cbn [c_heap c_supply current_id bounded_coastlines].
    - lia.
    - intros id Hid. cbn in Hid. apply elem_of_nil in Hid. contradiction.
    - exists []. split; [reflexivity | constructor].
    - intros id line Hin. apply elem_of_nil in Hin. contradiction. }
  pose proof (segment_loop_inv d _ _ _ _ Hstart Eloop) as Hst.
  pose proof (segment_loop_exit_inv d _ _ _ _ _ _ Hstart Xstart Eloop) as Xst.
  pose proof (segment_loop_lines _ _ _ _ _ Eloop) as Hlines.
  cbn [c_heap] in Hlines.
  assert (Hlast : accumulator st = [] \/ last (accumulator st) = last chain).
  { destruct chain as [|p [|q rest]]; cbn in Elen; try lia.
    unfold segments_of in Eloop. cbn [tail] in Eloop.
    apply segment_loop_last in Eloop; [|discriminate].
    rewrite (last_cons_ne p) by discriminate. exact Eloop. }
  destruct (save_remaining_exit _ _ _ _ _ _ _ Hst Xst (cinv_ids cs Hinv)
              Hlast Esave) as (Hl' & Hbids & (new & Hperm & Hnew) & Hentries).
  destruct (publish_spec _ _ _ _ _ Epub) as [Hlists Hdom].
  destruct (publish_lines _ _ _ _ _ Epub) as [Hkeep Hpubl].
  assert (Hall := all_events_same_lists (c_heap st') h im0 Hlists).
  assert (Hsup : (supply cs <= c_supply st')%nat).
  { destruct (save_remaining_inv _ _ _ _ _ Hst Esave) as (_ & Hs & _).
    rewrite Hs. destruct Hst as [_ Hcur _ _ _ _ _]. destruct Xst as [Xsup _ _ _].
    lia. }
  constructor; cbn [heap supply open_coastlines].
  - intros id Hid. apply Hdom in Hid as [Hid|Hid].
    + pose proof (cx_ids _ _ Hx id Hid). lia.
    + specialize (Hbids id Hid). lia.
  - intros id l Hl. rewrite Hall.
    destruct (Hpubl id l Hl) as [(line & Hin & Hline)|[Hnot Hoc]].
    + exists line. split; [exact Hline|].
      destruct (Hentries id line Hin) as [H|(H0 & Hsome & Heq)]; [now left|].
      right. split; [exact H0|]. exists chain. auto.
    + destruct (cx_settled _ _ Hx id l Hoc) as (line & Hline & Hset).
      exists line. split.
      { apply Hkeep. rewrite Hl', Hlines. exact Hline. }
      assert (Hid : (id < supply cs)%nat) by (apply (cx_ids _ _ Hx); eauto).
      assert (Hexits : exits_of id (all_events (c_heap st') im0)
                       = exits_of id (all_events (heap cs) im0)).
      { rewrite Hperm, exits_of_app, exits_of_foreign; [reflexivity|].
        eapply Forall_impl; [exact Hnew|]. cbn. intros e He. lia. }
      destruct Hset as [Hend|Htail].
      * left. apply (ends_at_exit_frame (all_events (heap cs) im0));
          [|exact Hexits|exact Hend].
        intros e He _. rewrite Hperm, elem_of_app. now right.
      * right. apply (is_tail_frame (all_events (heap cs) im0));
          [exact Hexits | exact Htail].
Qed.

Lemma coastline_loop_exit_inv chains d todo : forall cs cs',
  (forall c, c ∈ todo -> c ∈ chains) ->
  clip_inv cs -> clip_exit_inv chains cs ->
  coastline_loop d im0 todo cs = Ok cs' ->
  clip_exit_inv chains cs'.
Proof.
  induction todo as [|c todo IH]; intros cs cs' Hsub Hinv Hx;
    cbn [coastline_loop].
  - now intros [= <-].
  - destruct (process_coastline d im0 cs c) as [cs1| |] eqn:E;
      cbn [mbind Result_bind]; try discriminate.
    apply IH.
    + intros c' Hc'. apply Hsub. now right.
    + eapply process_coastline_inv; eassumption.
    + eapply process_coastline_exit_inv; [apply Hsub; left | | | ]; eassumption.
Qed.

Lemma sort_sides_lines im h : lines (sort_sides im h) = lines h.
Proof. reflexivity. Qed.

(** C6, as amended. When the clipper, started on the heap of a freshly
    loaded module, returns, every event of the intersection map carries the
    identifier of a published open coastline, and every published
    identifier is of one of two kinds.  Either its coastline was published
    at an exit: the identifier then has exactly one exiting event in the
    map, and the point of that event is the last point of the coastline.
    Or its coastline is what the accumulator held at the end of a chain:
    the identifier then has no exiting event, and the coastline ends at the
    last point of one of the input chains.  (A published identifier need
    not have an entering event.) *)
Theorem published_ids_exit_once_unless_tail d chains sup closed oc im h sup' :
  bound_and_sort_complete_coastlines d chains module_heap sup
  = Ok (closed, oc, im, h, sup') ->
  (forall e, e ∈ all_events h im -> is_Some (oc !! bounded_coastline_id e)) /\
  (forall id l, oc !! id = Some l ->
     ends_at_exit (all_events h im) id (read_line h l) \/
     is_tail (all_events h im) chains id (read_line h l)).
Proof.
  unfold bound_and_sort_complete_coastlines.
  change (dict_copy EMPTY_INTERSECTION_MAP) with im0.
  destruct (coastline_loop d im0 chains _) as [cs| |] eqn:Eloop;
    cbn [mbind Result_bind]; try discriminate.
  destruct (validate_intersection_map _ _) as [b| |];
    cbn [mbind Result_bind]; try discriminate.
  intros [= <- <- <- <- <-].
  assert (Hinit : clip_inv (mkClipState [] ∅ module_heap sup)).
  { constructor; cbn [heap]; try reflexivity.
    - intros e He. apply elem_of_nil in He. contradiction.
    - intros e He. apply elem_of_nil in He. contradiction.
    - intros id. cbn. lia. }
  assert (Xinit : clip_exit_inv chains (mkClipState [] ∅ module_heap sup)).
  { constructor; cbn [open_coastlines].
    - intros id [l Hl]. rewrite lookup_empty in Hl. discriminate.
    - intros id l Hl. rewrite lookup_empty in Hl. discriminate. }
  destruct (coastline_loop_inv d chains _ _ Hinit Eloop) as [Hh Hids Hpub Hex].
  destruct (coastline_loop_exit_inv chains d chains _ _ (fun c H => H)
              Hinit Xinit Eloop) as [_ Hset].
  pose proof (all_events_sort_sides (heap cs) Hh) as Hperm.
  split.
  - intros e He. rewrite Hperm in He. auto.
  - intros id l Hl. destruct (Hset id l Hl) as (line & Hline & Hkind).
    assert (Hread : read_line (sort_sides im0 (heap cs)) l = line).
    { unfold read_line. rewrite sort_sides_lines.
      unfold loc, Line in *. now rewrite Hline. }
    rewrite Hread.
    destruct Hkind as [Hend|Htail]; [left | right].
    + apply (ends_at_exit_frame (all_events (heap cs) im0));
        [| now rewrite Hperm | exact Hend].
      intros e He _. now rewrite Hperm.
    + apply (is_tail_frame (all_events (heap cs) im0));
        [now rewrite Hperm | exact Htail].
Qed.

Lemma published_ids_witness :
  exists oc h,
    bound_and_sort_complete_coastlines R10 [closed_notch; top_notch]
      module_heap 0
    = Ok ([], oc, EMPTY_INTERSECTION_MAP, h, 4%nat) /\
    (forall e, e ∈ all_events h EMPTY_INTERSECTION_MAP ->
               is_Some (oc !! bounded_coastline_id e)) /\
    (forall id l, oc !! id = Some l ->
       ends_at_exit (all_events h EMPTY_INTERSECTION_MAP) id (read_line h l) \/
       is_tail (all_events h EMPTY_INTERSECTION_MAP) [closed_notch; top_notch]
         id (read_line h l)).
Proof.
  eexists _, _.
  assert (H : bound_and_sort_complete_coastlines R10 [closed_notch; top_notch]
                module_heap 0
              = Ok ([], _, EMPTY_INTERSECTION_MAP, _, 4%nat))
    by (vm_compute; reflexivity).
  split; [exact H|].
  exact (published_ids_exit_once_unless_tail R10 [closed_notch; top_notch] 0
           _ _ _ _ _ H).
Defined.

(** C6 as stated fails: of the two open coastlines published for the chain
    of the second scenario, the first has no entering event and the second
    no exiting event. *)
Lemma head_and_tail_have_one_event_each :
  exists oc h,
    bound_and_sort_complete_coastlines R10 [top_notch] module_heap 0
    = Ok ([], oc, EMPTY_INTERSECTION_MAP, h, 2%nat) /\
    is_Some (oc !! 0%nat) /\
    enters_of 0 (all_events h EMPTY_INTERSECTION_MAP) = 0%nat /\
    exits_of 0 (all_events h EMPTY_INTERSECTION_MAP) = 1%nat /\
    is_Some (oc !! 1%nat) /\
    enters_of 1 (all_events h EMPTY_INTERSECTION_MAP) = 1%nat /\
    exits_of 1 (all_events h EMPTY_INTERSECTION_MAP) = 0%nat.
Proof.
  eexists _, _. split; [vm_compute; reflexivity|].
  split; [vm_compute; eauto|].
  split; [vm_compute; reflexivity|].
  split; [vm_compute; reflexivity|].
  split; [vm_compute; eauto|].
  split; vm_compute; reflexivity.
Qed.

(** ** What the walker does to the coordinate lists *)

Lemma grown_at_front_refl h : grown_at_front h h.
Proof. intros l line H. exists []. exact H. Qed.

Lemma grown_at_front_trans h1 h2 h3 :
  grown_at_front h1 h2 -> grown_at_front h2 h3 -> grown_at_front h1 h3.
Proof.
  intros H12 H23 l line H.
  destruct (H12 l line H) as [f1 H1].
  destruct (H23 l _ H1) as [f2 H2].
  exists (f2 ++ f1). rewrite H2. now rewrite app_assoc.
Qed.

Lemma grown_at_front_same_lines h h' :
  lines h' = lines h -> grown_at_front h h'.
Proof. intros E l line H. exists []. now rewrite E. Qed.

Lemma insert_front_grows h l p : grown_at_front h (insert_front h l p).
Proof.
  intros l' line H. unfold insert_front, write_line, read_line. cbn [lines].
  unfold Line, loc in *.
  destruct (decide (l = l')) as [<-|Hne].
  - exists [p]. rewrite H. cbn.
    apply list_lookup_insert_eq. eapply lookup_lt_Some. eassumption.
  - exists []. rewrite list_lookup_insert_ne by exact Hne. exact H.
Qed.

Lemma alloc_line_grows h v : grown_at_front h (snd (alloc_line h v)).
Proof.
  intros l line H. exists []. cbn. now apply lookup_app_l_Some.
Qed.

Lemma alloc_line_eq_grows h v l h' :
  alloc_line h v = (l, h') -> grown_at_front h h'.
Proof. intros [= _ <-]. apply (alloc_line_grows h v). Qed.

Lemma walk_step_grows d oc im st st' :
  walk_step d oc im st = Ok st' -> grown_at_front (w_heap st) (w_heap st').
Proof.
  unfold walk_step.
  repeat match goal with
  | |- Ok _ = Ok _ -> _ => intros [= <-]; cbn [w_heap]
  | |- Err _ = Ok _ -> _ => discriminate
  | |- context [match ?x with _ => _ end] => destruct x eqn:?
  end;
  try apply grown_at_front_refl;
  try apply insert_front_grows;
  try (apply grown_at_front_same_lines; reflexivity).
  all: match goal with
       | H : alloc_line _ _ = (_, ?h2) |- grown_at_front _ ?h2 =>
           apply alloc_line_eq_grows in H
       end.
  - (* the polygon is closed *)
    eapply grown_at_front_trans; [apply insert_front_grows | eassumption].
  - (* a nested coastline is joined *)
    assumption.
Qed.

Lemma walk_loop_grows fuel d oc im sp : forall st st',
  walk_loop fuel d oc im sp st = Ok st' ->
  grown_at_front (w_heap st) (w_heap st').
Proof.
  induction fuel as [|fuel IH]; intros st st'; cbn [walk_loop];
    destruct (back_at_start sp st).
  - intros [= <-]. apply grown_at_front_refl.
  - discriminate.
  - intros [= <-]. apply grown_at_front_refl.
  - destruct (walk_step d oc im st) as [st1| |] eqn:E;
      cbn [mbind Result_bind]; try discriminate.
    intros H. eapply grown_at_front_trans.
    + eapply walk_step_grows. eassumption.
    + apply IH. exact H.
Qed.

Lemma walk_init_heap oc im sp h st :
  walk_init oc im sp h = Ok st -> w_heap st = h.
Proof.
  unfold walk_init. destruct sp as [s k].
  destruct (read_events h (im_get im s) !! k); [|discriminate].
  destruct (oc !! bounded_coastline_id i); [|discriminate].
  now intros [= <-].
Qed.

Lemma process_skipped_grows join :
  (forall m sp h r, join m sp h = Ok r -> grown_at_front h (snd r)) ->
  forall skipped closed h r,
    process_skipped join skipped closed h = Ok r ->
    grown_at_front h (snd r).
Proof.
  intros Hjoin. induction skipped as [|m skipped IH]; intros closed h r;
    cbn [process_skipped].
  - intros [= <-]. apply grown_at_front_refl.
  - destruct (find_intersection_map_starting_point h m) as [sp|]; [|apply IH].
    destruct (join m sp h) as [r1| |] eqn:E;
      cbn [mbind Result_bind]; try discriminate.
    intros H. eapply grown_at_front_trans.
    + eapply Hjoin. eassumption.
    + eapply IH. eassumption.
Qed.

Lemma join_open_coastlines_grows fuel d oc : forall im sp h r,
  join_open_coastlines fuel d oc im sp h = Ok r ->
  grown_at_front h (snd r).
Proof.
  induction fuel as [|fuel IH]; intros im sp h r; cbn [join_open_coastlines];
    [discriminate|].
  destruct (walk_init oc im sp h) as [st0| |] eqn:E0;
    cbn [mbind Result_bind]; try discriminate.
  destruct (walk_loop fuel d oc im sp st0) as [st| |] eqn:E1;
    cbn [mbind Result_bind]; try discriminate.
  intros H.
  apply walk_init_heap in E0. apply walk_loop_grows in E1. rewrite E0 in E1.
  eapply grown_at_front_trans; [exact E1|].
  eapply process_skipped_grows; [|exact H].
  intros m sp' h' r'. apply IH.
Qed.

(** C5, as amended. [join_open_coastlines] never removes or changes a point
    of a coordinate list stored in [open_coastlines]; it may insert points
    in front of it (corners and the closing point).  After the walker has
    returned, the coordinates of each open coastline end with the sequence
    the clipper published for its identifier. *)
Theorem join_open_coastlines_keeps_published_suffix
    fuel d oc im sp h closed h' id l coords :
  join_open_coastlines fuel d oc im sp h = Ok (closed, h') ->
  oc !! id = Some l ->
  lines h !! l = Some coords ->
  exists front, lines h' !! l = Some (front ++ coords).
Proof.
  intros Hjoin _ Hl.
  apply (join_open_coastlines_grows _ _ _ _ _ _ _ Hjoin l coords Hl).
Qed.

Lemma join_open_coastlines_suffix_witness :
  exists closed h' front,
    join_open_coastlines 100 R10 {[0%nat := 0%nat]} EMPTY_INTERSECTION_MAP
      (TOP, 0%nat)
      (mkHeap [[(8, 10); (8, 3); (10, 3)]%Q]
         [[mkIntersectionWithId (8, 10)%Q true TOP 0];
          [mkIntersectionWithId (10, 3)%Q false RIGHT 0]; []; []])
    = Ok (closed, h') /\
    lines h' !! 0%nat = Some (front ++ [(8, 10); (8, 3); (10, 3)]%Q).
Proof.
  eexists _, _.
  assert (H : join_open_coastlines 100 R10 {[0%nat := 0%nat]}
                EMPTY_INTERSECTION_MAP (TOP, 0%nat)
                (mkHeap [[(8, 10); (8, 3); (10, 3)]%Q]
                   [[mkIntersectionWithId (8, 10)%Q true TOP 0];
                    [mkIntersectionWithId (10, 3)%Q false RIGHT 0]; []; []])
              = Ok (_, _)) by (vm_compute; reflexivity).
  destruct (join_open_coastlines_keeps_published_suffix _ _ _ _ _ _ _ _
              0%nat 0%nat [(8, 10); (8, 3); (10, 3)]%Q H eq_refl eq_refl)
    as [front Hfront].
  exists front. split; [exact H | exact Hfront].
Defined.

(** C5 as stated fails: on the chain of the corner scenario the walker
    inserts the corner (10,10) and the closing point (10,3) in front of the
    list stored in [open_coastlines], which is the very list it
    accumulates into. *)
Lemma walker_changes_open_coastline :
  exists oc h closed h',
    bound_and_sort_complete_coastlines R10 [corner_wrap] module_heap 0
    = Ok ([], oc, EMPTY_INTERSECTION_MAP, h, 2%nat) /\
    join_open_coastlines 100 R10 oc EMPTY_INTERSECTION_MAP (TOP, 0%nat) h
    = Ok (closed, h') /\
    oc !! 0%nat = Some 0%nat /\
    read_line h 0 = [(8, 10); (8, 3); (10, 3)]%Q /\
    read_line h' 0 = [(10, 3); (10, 10); (8, 10); (8, 3); (10, 3)]%Q /\
    read_line h' 0 <> read_line h 0.
Proof.
  eexists _, _, _, _.
  split; [vm_compute; reflexivity|].
  split; [vm_compute; reflexivity|].
  split; [vm_compute; reflexivity|].
  split; [vm_compute; reflexivity|].
  split; [vm_compute; reflexivity|].
  vm_compute. discriminate.
Qed.

(** * Further properties of the code *)

(** ** Corners of the rectangle *)

Section Corners.
Local Open Scope Q_scope.

(** X1. In a rectangle with [min_lon <= max_lon] and [min_lat <= max_lat],
    the clockwise-next corner of a side lies on that side and on the side
    [NEXT_SIDE_MAP] gives for it, and it is inside the map. *)
Theorem corner_joins_side_and_next_side d s :
  min_lon d <= max_lon d -> min_lat d <= max_lat d ->
  on_side d s (side_clockwise_corners d s) /\
  on_side d (NEXT_SIDE_MAP s) (side_clockwise_corners d s) /\
  is_inside_map (side_clockwise_corners d s) d = true.
Proof.
  intros Hlon Hlat.
  assert (Hin : forall p, (min_lon d <= fst p <= max_lon d) ->
                          (min_lat d <= snd p <= max_lat d) ->
                          is_inside_map p d = true).
  { intros [x y] Hx Hy. unfold is_inside_map.
    apply andb_true_iff. split; apply between_spec; assumption. }
  destruct s; cbn [side_clockwise_corners NEXT_SIDE_MAP on_side fst snd];
    (split; [|split]);
    try apply Hin; cbn [fst snd];
    repeat split; try reflexivity; try assumption; try apply Qle_refl.
Qed.

Lemma corner_joins_witness :
  on_side R10 TOP (side_clockwise_corners R10 TOP) /\
  on_side R10 RIGHT (side_clockwise_corners R10 TOP) /\
  is_inside_map (side_clockwise_corners R10 TOP) R10 = true.
Proof.
  apply (corner_joins_side_and_next_side R10 TOP); discriminate.
Defined.

End Corners.

(** ** The starting point of the walk *)

Lemma first_entering_spec evs k :
  first_entering evs = Some k <->
  (exists e, evs !! k = Some e /\ iis_entering e = true) /\
  (forall j e, (j < k)%nat -> evs !! j = Some e -> iis_entering e = false).
Proof.
  revert k. induction evs as [|e evs IH]; intros k; cbn [first_entering].
  - split; [discriminate|]. intros [(e & He & _) _]. discriminate.
  - destruct (iis_entering e) eqn:Ee.
    + split.
      * intros [= <-]. split; [exists e; auto|]. intros j e' Hj. lia.
      * intros [(e' & He' & Hent) Hbefore]. destruct k as [|k]; [reflexivity|].
        specialize (Hbefore 0%nat e ltac:(lia) eq_refl). congruence.
    + destruct (first_entering evs) as [k'|] eqn:Ef; cbn [option_map].
      * split.
        -- intros [= <-]. destruct (proj1 (IH k') eq_refl) as [Hex Hbefore].
           split; [exact Hex|]. intros [|j] e' Hj He'.
           ++ cbn in He'. congruence.
           ++ apply (Hbefore j e'); [lia | exact He'].
        -- intros [(e' & He' & Hent) Hbefore]. destruct k as [|k].
           ++ cbn in He'. congruence.
           ++ f_equal. f_equal. symmetry.
              assert (H : Some k' = Some k); [|congruence].
              apply IH. split; [exists e'; auto|].
              intros j e'' Hj He''. apply (Hbefore (S j) e''); [lia | exact He''].
      * split; [discriminate|].
        intros [(e' & He' & Hent) Hbefore]. destruct k as [|k].
        -- cbn in He'. congruence.
        -- assert (H : None = Some k); [|discriminate].
           apply IH. split; [exists e'; auto|].
           intros j e'' Hj He''. apply (Hbefore (S j) e''); [lia | exact He''].
Qed.

Lemma first_entering_none evs :
  first_entering evs = None <-> forall e, e ∈ evs -> iis_entering e = false.
Proof.
  induction evs as [|e evs IH]; cbn [first_entering].
  - split; [|reflexivity]. intros _ e He. apply elem_of_nil in He. contradiction.
  - destruct (iis_entering e) eqn:Ee.
    + split; [discriminate|]. intros H. specialize (H e ltac:(left)). congruence.
    + destruct (first_entering evs) as [k|]; cbn [option_map].
      * split; [discriminate|]. intros H.
        assert (Hn : Some k = None); [|discriminate].
        apply IH. intros e' He'. apply H. now right.
      * split; [|reflexivity]. intros _ e' He'.
        apply elem_of_cons in He' as [->|He']; [exact Ee|].
        apply (proj1 IH eq_refl e' He').
Qed.

(** X2. [find_intersection_map_starting_point] returns the first entering
    event in the order top, right, bottom, left and, on a side, by index:
    the event it points at is entering, no event before it on its side is,
    and no event of a side scanned earlier is.  It returns [None] exactly
    when the map holds no entering event. *)
Theorem find_intersection_map_starting_point_first h im :
  match find_intersection_map_starting_point h im with
  | Some (s, k) =>
      (exists e, events_on h im s !! k = Some e /\ iis_entering e = true) /\
      (forall j e, (j < k)%nat -> events_on h im s !! j = Some e ->
                   iis_entering e = false) /\
      (forall s' e, (side_rank s' < side_rank s)%nat ->
                    e ∈ events_on h im s' -> iis_entering e = false)
  | None => forall s e, e ∈ events_on h im s -> iis_entering e = false
  end.
Proof.
  unfold find_intersection_map_starting_point, all_sides.
  cbn [find_start_from].
  destruct (first_entering (events_on h im TOP)) as [k|] eqn:ET.
  { apply first_entering_spec in ET as [H1 H2]. split; [exact H1|].
    split; [exact H2|]. intros s' e Hs. destruct s'; cbn in Hs; lia. }
  destruct (first_entering (events_on h im RIGHT)) as [k|] eqn:ER.
  { apply first_entering_spec in ER as [H1 H2]. split; [exact H1|].
    split; [exact H2|]. intros s' e Hs He.
    destruct s'; cbn in Hs; try lia.
    apply (proj1 (first_entering_none _) ET e He). }
  destruct (first_entering (events_on h im BOTTOM)) as [k|] eqn:EB.
  { apply first_entering_spec in EB as [H1 H2]. split; [exact H1|].
    split; [exact H2|]. intros s' e Hs He.
    destruct s'; cbn in Hs; try lia.
    - apply (proj1 (first_entering_none _) ET e He).
    - apply (proj1 (first_entering_none _) ER e He). }
  destruct (first_entering (events_on h im LEFT)) as [k|] eqn:EL.
  { apply first_entering_spec in EL as [H1 H2]. split; [exact H1|].
    split; [exact H2|]. intros s' e Hs He.
    destruct s'; cbn in Hs; try lia.
    - apply (proj1 (first_entering_none _) ET e He).
    - apply (proj1 (first_entering_none _) ER e He).
    - apply (proj1 (first_entering_none _) EB e He). }
  intros s e He. destruct s.
  - apply (proj1 (first_entering_none _) ET e He).
  - apply (proj1 (first_entering_none _) ER e He).
  - apply (proj1 (first_entering_none _) EB e He).
  - apply (proj1 (first_entering_none _) EL e He).
Qed.

(** ** Classification of a segment *)

Section Classification.
Local Open Scope Q_scope.

Lemma find_crossing_is_candidate p1 p2 d c :
  find_segment_intersection_with_boundary p1 p2 d = Ok (Crossing c) ->
  xorb (is_inside_map p1 d) (is_inside_map p2 d) = true /\
  c ∈ intersections_of p1 p2 d.
Proof.
  unfold find_segment_intersection_with_boundary.
  destruct (is_inside_map p1 d), (is_inside_map p2 d); cbn [andb negb xorb];
    try discriminate.
  all: destruct (intersections_of p1 p2 d) as [|i [|i2 rest]] eqn:Ei;
    [discriminate | intros [= <-]; split; [reflexivity | left] | ].
  all: destruct (list_index _ _) as [k|]; [|discriminate].
  all: destruct ((i :: i2 :: rest) !! k) as [c'|] eqn:Ek; [|discriminate].
  all: intros [= <-]; split; [reflexivity|].
  all: apply list_elem_of_lookup; eauto.
Qed.

Lemma on_side_inside d s p :
  min_lon d <= max_lon d -> min_lat d <= max_lat d ->
  on_side d s p -> is_inside_map p d = true.
Proof.
  intros Hlon Hlat. destruct p as [x y]. unfold is_inside_map.
  rewrite andb_true_iff, !between_spec.
  destruct s; cbn [on_side fst snd]; intros [E H]; rewrite ?E;
    repeat split; try tauto; try apply Qle_refl; assumption.
Qed.

Lemma inside_bounds p d :
  is_inside_map p d = true ->
  min_lon d <= fst p <= max_lon d /\ min_lat d <= snd p <= max_lat d.
Proof.
  destruct p as [x y]. unfold is_inside_map.
  rewrite andb_true_iff, !between_spec. tauto.
Qed.

(** X3. [find_segment_intersection_with_boundary] answers "inside" exactly
    when both end points are inside the map (boundary included) and
    "outside" exactly when neither is.  When it returns an intersection,
    exactly one end point is inside, and the point returned lies on the side
    returned with it, within that side's extent, hence inside the map. *)
Theorem find_segment_intersection_with_boundary_classifies p1 p2 d :
  (find_segment_intersection_with_boundary p1 p2 d = Ok Inside <->
   is_inside_map p1 d = true /\ is_inside_map p2 d = true) /\
  (find_segment_intersection_with_boundary p1 p2 d = Ok Outside <->
   is_inside_map p1 d = false /\ is_inside_map p2 d = false) /\
  (forall c,
     find_segment_intersection_with_boundary p1 p2 d = Ok (Crossing c) ->
     xorb (is_inside_map p1 d) (is_inside_map p2 d) = true /\
     on_side d (side c) (point c) /\
     is_inside_map (point c) d = true).
Proof.
  assert (Hcross : forall r,
            match intersections_of p1 p2 d with
            | [] => Err (ValueError no_intersection_msg)
            | [i] => Ok (Crossing i)
            | i :: _ =>
                let distances := map (distance_from p1) (intersections_of p1 p2 d) in
                match list_index (list_min (distance_from p1 i) (tl distances))
                                 distances with
                | Some k =>
                    match intersections_of p1 p2 d !! k with
                    | Some c => Ok (Crossing c)
                    | None => Err IndexError
                    end
                | None => Err (ValueError "list.index(x): x not in list")
                end
            end = Ok r -> r <> Inside /\ r <> Outside).
  { intros r. destruct (intersections_of p1 p2 d) as [|i [|i2 rest]];
      [discriminate | intros [= <-]; split; discriminate | ].
    cbv zeta. destruct (list_index _ _); [|discriminate].
    destruct (_ !! _); [|discriminate].
    intros [= <-]; split; discriminate. }
  split; [|split].
  - unfold find_segment_intersection_with_boundary.
    destruct (is_inside_map p1 d), (is_inside_map p2 d); cbn [andb negb].
    + tauto.
    + split; [intros H; apply Hcross in H; tauto | intros [? ?]; congruence].
    + split; [intros H; apply Hcross in H; tauto | intros [? ?]; congruence].
    + split; [discriminate | intros [? ?]; congruence].
  - unfold find_segment_intersection_with_boundary.
    destruct (is_inside_map p1 d), (is_inside_map p2 d); cbn [andb negb].
    + split; [discriminate | intros [? ?]; congruence].
    + split; [intros H; apply Hcross in H; tauto | intros [? ?]; congruence].
    + split; [intros H; apply Hcross in H; tauto | intros [? ?]; congruence].
    + tauto.
  - intros c Hc. destruct (find_crossing_is_candidate _ _ _ _ Hc) as [Hx Hin].
    split; [exact Hx|].
    assert (Hon : on_side d (side c) (point c)).
    { unfold intersections_of in Hin. rewrite !elem_of_app in Hin.
      destruct Hin as [H|[H|[H|H]]];
        apply side_candidate_accepted in H as [_ [H _]]; exact H. }
    split; [exact Hon|].
    assert (Hb : exists p, is_inside_map p d = true).
    { destruct (is_inside_map p1 d) eqn:E1; [eauto|].
      destruct (is_inside_map p2 d) eqn:E2; [eauto | discriminate]. }
    destruct Hb as [p Hp]. apply inside_bounds in Hp as [[? ?] [? ?]].
    apply (on_side_inside d (side c)); [lra | lra | exact Hon].
Qed.

End Classification.

(** ** Sorting the events of a side *)

Section StableSort.
Context {A : Type} (le : A -> A -> bool).
Hypothesis le_total : forall a b, le a b = true \/ le b a = true.
Hypothesis le_trans : forall a b c, le a b = true -> le b c = true -> le a c = true.

Lemma ins_sorted x l :
  StronglySorted (fun a b => le a b = true) l ->
  StronglySorted (fun a b => le a b = true) (ins le x l).
Proof.
  induction 1 as [|y l Hl IH Hy]; cbn [ins].
  - repeat constructor.
  - destruct (le x y) eqn:E.
    + constructor; [constructor; assumption|].
      constructor; [exact E|].
      eapply Forall_impl; [exact Hy|]. intros z Hz. cbn in Hz. eauto.
    + constructor; [exact IH|].
      assert (Hyx : le y x = true) by (destruct (le_total x y); congruence).
      rewrite (ins_perm le x l). constructor; assumption.
Qed.

Lemma stable_sort_sorted l :
  StronglySorted (fun a b => le a b = true) (stable_sort le l).
Proof.
  induction l as [|x l IH]; cbn [stable_sort]; [constructor|].
  apply ins_sorted. exact IH.
Qed.

(** elements with the key of [z] keep their order *)
Lemma ins_stable z x l :
  List.filter (fun y => le z y && le y z) (ins le x l)
  = List.filter (fun y => le z y && le y z) (x :: l).
Proof.
  induction l as [|y l IH]; cbn [ins]; [reflexivity|].
  destruct (le x y) eqn:E; [reflexivity|].
  cbn [List.filter] in *. rewrite IH.
  destruct (le z x && le x z) eqn:Ex; [|reflexivity].
  destruct (le z y && le y z) eqn:Ey; [|reflexivity].
  apply andb_true_iff in Ex as [Hzx Hxz]. apply andb_true_iff in Ey as [Hzy Hyz].
  rewrite (le_trans x z y Hxz Hzy) in E. discriminate.
Qed.

Lemma stable_sort_stable z l :
  List.filter (fun y => le z y && le y z) (stable_sort le l)
  = List.filter (fun y => le z y && le y z) l.
Proof.
  induction l as [|x l IH]; cbn [stable_sort]; [reflexivity|].
  rewrite ins_stable. cbn [List.filter]. now rewrite IH.
Qed.

End StableSort.

Lemma StronglySorted_weaken {A} (R1 R2 : A -> A -> Prop) l :
  (forall a b, R1 a b -> R2 a b) ->
  StronglySorted R1 l -> StronglySorted R2 l.
Proof.
  intros HR. induction 1 as [|x l Hl IH Hx]; constructor; [exact IH|].
  eapply Forall_impl; [exact Hx|]. intros y. apply HR.
Qed.

Lemma side_le_total s a b : side_le s a b = true \/ side_le s b a = true.
Proof.
  destruct s; cbn [side_le]; rewrite !Qle_bool_iff;
    match goal with
    | |- (?x <= ?y)%Q \/ _ => destruct (Qlt_le_dec y x) as [H|H];
                              [right; apply Qlt_le_weak; exact H | left; exact H]
    end.
Qed.

Lemma side_le_trans s a b c :
  side_le s a b = true -> side_le s b c = true -> side_le s a c = true.
Proof.
  destruct s; cbn [side_le]; rewrite !Qle_bool_iff; intros H1 H2;
    eapply Qle_trans; eassumption.
Qed.

Lemma side_le_clockwise s a b : side_le s a b = true <-> clockwise s a b.
Proof. destruct s; cbn [side_le clockwise]; apply Qle_bool_iff. Qed.

Lemma events_on_sort_sides h s :
  four_lists h ->
  events_on (sort_sides EMPTY_INTERSECTION_MAP h) EMPTY_INTERSECTION_MAP s
  = stable_sort (side_le s) (events_on h EMPTY_INTERSECTION_MAP s).
Proof.
  unfold four_lists. destruct h as [ls evl]. cbn [event_lists].
  destruct evl as [|a [|b [|c [|d0 [|x evl]]]]]; try discriminate. intros _.
  destruct s; reflexivity.
Qed.

Lemma sort_sides_sorted h s :
  four_lists h ->
  StronglySorted (clockwise s)
    (events_on (sort_sides EMPTY_INTERSECTION_MAP h) EMPTY_INTERSECTION_MAP s).
Proof.
  intros Hh. rewrite (events_on_sort_sides h s Hh).
  eapply StronglySorted_weaken;
    [| apply (stable_sort_sorted (side_le s) (side_le_total s) (side_le_trans s))].
  intros a b Hab. apply side_le_clockwise. exact Hab.
Qed.

(** X5. On a heap with the four lists of the module constant,
    [intersection_map[side].sort(...)] leaves on every side the same events,
    in clockwise order: ascending longitude on top, descending latitude on
    the right, descending longitude at the bottom, ascending latitude on the
    left; events with equal keys keep the order in which they were
    appended. *)
Theorem sort_sides_clockwise_and_stable h s :
  four_lists h ->
  let sorted := events_on (sort_sides EMPTY_INTERSECTION_MAP h)
                  EMPTY_INTERSECTION_MAP s in
  let before := events_on h EMPTY_INTERSECTION_MAP s in
  StronglySorted (clockwise s) sorted /\
  sorted ≡ₚ before /\
  forall e, List.filter (same_key s e) sorted = List.filter (same_key s e) before.
Proof.
  intros Hh sorted before. unfold sorted, before.
  rewrite (events_on_sort_sides h s Hh).
  split; [|split].
  - rewrite <- (events_on_sort_sides h s Hh). apply sort_sides_sorted. exact Hh.
  - apply stable_sort_perm.
  - intros e. apply (stable_sort_stable (side_le s) (side_le_trans s)).
Qed.

Lemma sort_sides_witness :
  four_lists (mkHeap [] [[mkIntersectionWithId (7, 10)%Q true TOP 1;
                          mkIntersectionWithId (3, 10)%Q false TOP 0];
                         []; []; []]) /\
  StronglySorted (clockwise TOP)
    (events_on (sort_sides EMPTY_INTERSECTION_MAP
                  (mkHeap [] [[mkIntersectionWithId (7, 10)%Q true TOP 1;
                               mkIntersectionWithId (3, 10)%Q false TOP 0];
                              []; []; []]))
       EMPTY_INTERSECTION_MAP TOP).
Proof.
  split; [reflexivity|].
  apply (sort_sides_clockwise_and_stable
           (mkHeap [] [[mkIntersectionWithId (7, 10)%Q true TOP 1;
                        mkIntersectionWithId (3, 10)%Q false TOP 0];
                       []; []; []]) TOP eq_refl).
Defined.

(** ** What the clipper leaves in the intersection map *)

Lemma events_on_append h e s :
  four_lists h ->
  events_on (append_event h EMPTY_INTERSECTION_MAP e) EMPTY_INTERSECTION_MAP s
  = if decide (s = iside e)
    then events_on h EMPTY_INTERSECTION_MAP s ++ [e]
    else events_on h EMPTY_INTERSECTION_MAP s.
Proof.
  unfold four_lists. destruct h as [ls evl]. cbn [event_lists].
  destruct evl as [|a [|b [|c [|d0 [|x evl]]]]]; try discriminate. intros _.
  unfold append_event. destruct (iside e), s; reflexivity.
Qed.

Lemma crossing_on_side p1 p2 d i :
  find_segment_intersection_with_boundary p1 p2 d = Ok (Crossing i) ->
  on_side d (side i) (point i).
Proof.
  intros H. apply find_crossing_is_candidate in H as [_ Hin].
  unfold intersections_of in Hin. rewrite !elem_of_app in Hin.
  destruct Hin as [H|[H|[H|H]]];
    apply side_candidate_accepted in H as [_ [H _]]; exact H.
Qed.

Lemma process_segment_sides_ok d st seg st' :
  sides_ok d (c_heap st) ->
  process_segment d EMPTY_INTERSECTION_MAP st seg = Ok st' ->
  sides_ok d (c_heap st').
Proof.
  intros [Hh Hev]. destruct seg as [p1 p2]. unfold process_segment.
  destruct (find_segment_intersection_with_boundary p1 p2 d) as [[| |i]| |] eqn:Ef;
    cbn [mbind Result_bind]; try discriminate.
  - intros [= <-]. split; assumption.
  - destruct (is_empty (accumulator st)); [|discriminate].
    intros [= <-]. split; assumption.
  - assert (Hnew : sides_ok d (append_event (c_heap st) EMPTY_INTERSECTION_MAP
                                  (with_id i (current_id st)))).
    { split; [apply all_events_append; exact Hh|].
      intros s e. rewrite events_on_append by exact Hh.
      case_decide as Hs; [|apply Hev].
      rewrite elem_of_app. intros [He|He]; [apply Hev; exact He|].
      apply list_elem_of_singleton in He as ->. cbn in Hs. subst s.
      split; [reflexivity|]. cbn. eapply crossing_on_side. eassumption. }
    destruct (is_entering i); [intros [= <-]; exact Hnew|].
    cbn [generate_bounded_coastline_id]. intros [= <-]. exact Hnew.
Qed.

Lemma segment_loop_sides_ok d segs : forall st st',
  sides_ok d (c_heap st) ->
  segment_loop d EMPTY_INTERSECTION_MAP segs st = Ok st' ->
  sides_ok d (c_heap st').
Proof.
  induction segs as [|seg segs IH]; intros st st' Hok; cbn [segment_loop].
  - now intros [= <-].
  - destruct (process_segment d EMPTY_INTERSECTION_MAP st seg) as [st1| |] eqn:E;
      cbn [mbind Result_bind]; try discriminate.
    apply IH. eapply process_segment_sides_ok; eassumption.
Qed.

Lemma save_remaining_sides_ok d chain st st' closed :
  sides_ok d (c_heap st) ->
  save_remaining EMPTY_INTERSECTION_MAP chain st = Ok (st', closed) ->
  sides_ok d (c_heap st').
Proof.
  intros [Hh Hev]. unfold save_remaining.
  destruct (is_empty (accumulator st)); [intros [= <- <-]; split; assumption|].
  destruct (negb (does_coastline_cross_boundary st)).
  { destruct (negb (is_empty (bounded_coastlines st))); [discriminate|].
    intros [= <- <-]; split; assumption. }
  destruct (last (accumulator st)); [|discriminate].
  destruct (head chain); [|discriminate].
  destruct (coord_eqb c c0); [|intros [= <- <-]; split; assumption].
  destruct (bounded_coastlines st) as [|[first_id first_coords] rest];
    [discriminate|].
  intros [= <- <-]. cbn [c_heap]. split.
  - apply all_events_rewrite_ids. exact Hh.
  - intros s e. rewrite events_on_rewrite_ids.
    intros He. apply list_elem_of_fmap in He as (e0 & -> & He0).
    destruct (Hev s e0 He0) as [H1 H2]. unfold rewrite_id.
    destruct (Nat.eqb _ _); cbn; auto.
Qed.

Lemma process_coastline_sides_ok d cs chain cs' :
  sides_ok d (heap cs) ->
  process_coastline d EMPTY_INTERSECTION_MAP cs chain = Ok cs' ->
  sides_ok d (heap cs').
Proof.
  intros Hok. unfold process_coastline.
  destruct (length chain <? 2)%nat; [now intros [= <-]|].
  cbn [generate_bounded_coastline_id].
  destruct (segment_loop d EMPTY_INTERSECTION_MAP (segments_of chain) _)
    as [st| |] eqn:Eloop; cbn [mbind Result_bind]; try discriminate.
  destruct (save_remaining EMPTY_INTERSECTION_MAP chain st)
    as [[st' closed]| |] eqn:Esave; cbn [mbind Result_bind]; try discriminate.
  destruct (publish (bounded_coastlines st') (open_coastlines cs) (c_heap st'))
    as [oc h] eqn:Epub.
  intros [= <-]. cbn [heap].
  apply segment_loop_sides_ok in Eloop; [|exact Hok].
  apply (save_remaining_sides_ok d) in Esave; [|exact Eloop].
  apply publish_spec in Epub as [Hlists _].
  destruct Esave as [Hh Hev]. split.
  - unfold four_lists in *. congruence.
  - intros s e. unfold events_on, read_events in *. rewrite Hlists. apply Hev.
Qed.

Lemma coastline_loop_sides_ok d chains : forall cs cs',
  sides_ok d (heap cs) ->
  coastline_loop d EMPTY_INTERSECTION_MAP chains cs = Ok cs' ->
  sides_ok d (heap cs').
Proof.
  induction chains as [|c chains IH]; intros cs cs' Hok; cbn [coastline_loop].
  - now intros [= <-].
  - destruct (process_coastline d EMPTY_INTERSECTION_MAP cs c) as [cs1| |] eqn:E;
      cbn [mbind Result_bind]; try discriminate.
    apply IH. eapply process_coastline_sides_ok; eassumption.
Qed.

Lemma module_heap_sides_ok d : sides_ok d module_heap.
Proof.
  split; [reflexivity|]. intros s e He. destruct s; cbn in He;
    apply elem_of_nil in He; contradiction.
Qed.

(** X6. When [bound_and_sort_complete_coastlines], started with the event
    lists of a freshly loaded module, returns, the intersection map is
    balanced (as many entering as exiting events) and every side lists its
    events in clockwise order. *)
Theorem clipper_returns_sorted_balanced_map
    d chains sup closed oc im h sup' :
  bound_and_sort_complete_coastlines d chains module_heap sup
  = Ok (closed, oc, im, h, sup') ->
  count_entering (all_events h im) = count_exiting (all_events h im) /\
  forall s, StronglySorted (clockwise s) (events_on h im s).
Proof.
  unfold bound_and_sort_complete_coastlines.
  change (dict_copy EMPTY_INTERSECTION_MAP) with EMPTY_INTERSECTION_MAP.
  destruct (coastline_loop d EMPTY_INTERSECTION_MAP chains _) as [cs| |] eqn:Eloop;
    cbn [mbind Result_bind]; try discriminate.
  destruct (validate_intersection_map _ _) as [b| |] eqn:Ev;
    cbn [mbind Result_bind]; try discriminate.
  intros [= <- <- <- <- <-].
  pose proof (coastline_loop_sides_ok d chains
                (mkClipState [] ∅ module_heap sup) cs
                (module_heap_sides_ok d) Eloop) as [Hh _].
  split.
  - unfold validate_intersection_map in Ev.
    destruct (Nat.eqb_spec
                (count_entering (all_events (sort_sides EMPTY_INTERSECTION_MAP (heap cs))
                                   EMPTY_INTERSECTION_MAP))
                (count_exiting (all_events (sort_sides EMPTY_INTERSECTION_MAP (heap cs))
                                  EMPTY_INTERSECTION_MAP))) as [E|E];
      [exact E | discriminate].
  - intros s. apply sort_sides_sorted. exact Hh.
Qed.

Lemma clipper_sorted_balanced_witness :
  exists oc h,
    bound_and_sort_complete_coastlines R10 nested_rings module_heap 0
    = Ok ([], oc, EMPTY_INTERSECTION_MAP, h, 6%nat) /\
    count_entering (all_events h EMPTY_INTERSECTION_MAP)
    = count_exiting (all_events h EMPTY_INTERSECTION_MAP) /\
    forall s, StronglySorted (clockwise s) (events_on h EMPTY_INTERSECTION_MAP s).
Proof.
  eexists _, _.
  assert (H : bound_and_sort_complete_coastlines R10 nested_rings module_heap 0
              = Ok ([], _, EMPTY_INTERSECTION_MAP, _, 6%nat))
    by (vm_compute; reflexivity).
  split; [exact H|].
  exact (clipper_returns_sorted_balanced_map R10 nested_rings 0 _ _ _ _ _ H).
Defined.

(** X7. When the clipper, started with the event lists of a freshly loaded
    module, returns, every event of the intersection map is kept in the list
    of the side it names, and its point lies on that side of the rectangle,
    within the side's extent. *)
Theorem clipper_events_lie_on_their_side
    d chains sup closed oc im h sup' :
  bound_and_sort_complete_coastlines d chains module_heap sup
  = Ok (closed, oc, im, h, sup') ->
  forall s e, e ∈ events_on h im s ->
              iside e = s /\ on_side d s (ipoint e).
Proof.
  unfold bound_and_sort_complete_coastlines.
  change (dict_copy EMPTY_INTERSECTION_MAP) with EMPTY_INTERSECTION_MAP.
  destruct (coastline_loop d EMPTY_INTERSECTION_MAP chains _) as [cs| |] eqn:Eloop;
    cbn [mbind Result_bind]; try discriminate.
  destruct (validate_intersection_map _ _) as [b| |] eqn:Ev;
    cbn [mbind Result_bind]; try discriminate.
  intros [= <- <- <- <- <-].
  pose proof (coastline_loop_sides_ok d chains
                (mkClipState [] ∅ module_heap sup) cs
                (module_heap_sides_ok d) Eloop) as [Hh Hev].
  intros s e. rewrite (events_on_sort_sides (heap cs) s Hh), stable_sort_perm.
  apply Hev.
Qed.

Lemma clipper_events_witness :
  exists oc h,
    bound_and_sort_complete_coastlines R10 nested_rings module_heap 0
    = Ok ([], oc, EMPTY_INTERSECTION_MAP, h, 6%nat) /\
    forall s e, e ∈ events_on h EMPTY_INTERSECTION_MAP s ->
                iside e = s /\ on_side R10 s (ipoint e).
Proof.
  eexists _, _.
  assert (H : bound_and_sort_complete_coastlines R10 nested_rings module_heap 0
              = Ok ([], _, EMPTY_INTERSECTION_MAP, _, 6%nat))
    by (vm_compute; reflexivity).
  split; [exact H|].
  exact (clipper_events_lie_on_their_side R10 nested_rings 0 _ _ _ _ _ H).
Defined.

(** ** The closed coastlines of the clipper *)

Lemma find_inside_inv p1 p2 d :
  find_segment_intersection_with_boundary p1 p2 d = Ok Inside ->
  is_inside_map p1 d = true /\ is_inside_map p2 d = true.
Proof.
  unfold find_segment_intersection_with_boundary.
  destruct (is_inside_map p1 d), (is_inside_map p2 d); cbn [andb negb];
    try discriminate; [tauto| |].
  all: destruct (intersections_of p1 p2 d) as [|i [|i2 rest]]; try discriminate.
  all: destruct (list_index _ _); try discriminate.
  all: destruct (_ !! _); discriminate.
Qed.

Lemma find_outside_inv p1 p2 d :
  find_segment_intersection_with_boundary p1 p2 d = Ok Outside ->
  is_inside_map p1 d = false /\ is_inside_map p2 d = false.
Proof.
  unfold find_segment_intersection_with_boundary.
  destruct (is_inside_map p1 d), (is_inside_map p2 d); cbn [andb negb];
    try discriminate; [| |tauto].
  all: destruct (intersections_of p1 p2 d) as [|i [|i2 rest]]; try discriminate.
  all: destruct (list_index _ _); try discriminate.
  all: destruct (_ !! _); discriminate.
Qed.

Lemma process_segment_stays_crossed d im st seg st' :
  process_segment d im st seg = Ok st' ->
  does_coastline_cross_boundary st = true ->
  does_coastline_cross_boundary st' = true.
Proof.
  destruct seg as [p1 p2]. unfold process_segment.
  destruct (find_segment_intersection_with_boundary p1 p2 d) as [[| |i]| |];
    cbn [mbind Result_bind]; try discriminate.
  - intros [= <-]. auto.
  - destruct (is_empty (accumulator st)); [|discriminate]. now intros [= <-].
  - destruct (is_entering i); [now intros [= <-]|].
    cbn [generate_bounded_coastline_id]. now intros [= <-].
Qed.

Lemma segment_loop_stays_crossed d im segs : forall st st',
  segment_loop d im segs st = Ok st' ->
  does_coastline_cross_boundary st = true ->
  does_coastline_cross_boundary st' = true.
Proof.
  induction segs as [|seg segs IH]; intros st st'; cbn [segment_loop].
  - now intros [= <-].
  - destruct (process_segment d im st seg) as [st1| |] eqn:E;
      cbn [mbind Result_bind]; try discriminate.
    intros H Hc. eapply IH; [exact H|].
    eapply process_segment_stays_crossed; eassumption.
Qed.

(** a chain that leaves something in the accumulator without having crossed
    the boundary has all its points inside *)
Lemma segment_loop_uncrossed d im rest : forall p st st',
  segment_loop d im (zip (p :: rest) rest) st = Ok st' ->
  does_coastline_cross_boundary st' = false ->
  accumulator st' <> [] ->
  (accumulator st <> [] -> Forall (fun q => is_inside_map q d = true) rest) /\
  (accumulator st = [] -> Forall (fun q => is_inside_map q d = true) (p :: rest)).
Proof.
  induction rest as [|q rest IH]; intros p st st'.
  - cbn. intros [= <-] _ Hacc. split; [constructor | contradiction].
  - change (zip (p :: q :: rest) (q :: rest))
      with ((p, q) :: zip (q :: rest) rest).
    cbn [segment_loop].
    destruct (process_segment d im st (p, q)) as [st1| |] eqn:Estep;
      cbn [mbind Result_bind]; try discriminate.
    intros Hloop Hcross Hacc.
    destruct (IH q st1 st' Hloop Hcross Hacc) as [IH1 IH2].
    unfold process_segment in Estep.
    destruct (find_segment_intersection_with_boundary p q d) as [[| |i]| |] eqn:Ef;
      cbn [mbind Result_bind] in Estep; try discriminate.
    + apply find_inside_inv in Ef as [Hp Hq].
      injection Estep as <-. cbn [accumulator] in IH1.
      assert (Hrest : Forall (fun q0 => is_inside_map q0 d = true) rest).
      { apply IH1. intros E. apply app_eq_nil in E as [_ E]. discriminate. }
      split; intros _; repeat constructor; assumption.
    + apply find_outside_inv in Ef as [_ Hq].
      destruct (is_empty (accumulator st)) eqn:Eacc; [|discriminate].
      injection Estep as <-.
      assert (Hnil : accumulator st = [])
        by (destruct (accumulator st); [reflexivity | discriminate]).
      apply IH2 in Hnil. apply Forall_cons in Hnil as [Hq' _]. congruence.
    + assert (does_coastline_cross_boundary st1 = true).
      { destruct (is_entering i); [now injection Estep as <-|].
        cbn [generate_bounded_coastline_id] in Estep. now injection Estep as <-. }
      rewrite (segment_loop_stays_crossed _ _ _ _ _ Hloop) in Hcross by assumption.
      discriminate.
Qed.

Lemma stays_inside_spec d c :
  stays_inside d c = true <->
  (2 <= length c)%nat /\ Forall (fun q => is_inside_map q d = true) c.
Proof.
  unfold stays_inside. rewrite andb_true_iff, Nat.leb_le, forallb_forall.
  rewrite Forall_forall. setoid_rewrite list_elem_of_In. tauto.
Qed.

(** what one chain adds to the closed coastlines *)
Lemma process_coastline_closed d im cs chain cs' :
  process_coastline d im cs chain = Ok cs' ->
  closed_coastlines cs'
  = closed_coastlines cs ++ (if stays_inside d chain then [chain] else []).
Proof.
  unfold process_coastline.
  destruct (length chain <? 2)%nat eqn:Elen.
  { intros [= <-]. apply Nat.ltb_lt in Elen.
    destruct (stays_inside d chain) eqn:Es;
      [apply stays_inside_spec in Es; lia | now rewrite app_nil_r]. }
  apply Nat.ltb_ge in Elen. cbn [generate_bounded_coastline_id].
  destruct (stays_inside d chain) eqn:Es.
  - apply stays_inside_spec in Es as [_ Hin].
    rewrite segment_loop_all_inside by assumption. cbn [mbind Result_bind].
    unfold save_remaining.
    cbn [accumulator does_coastline_cross_boundary bounded_coastlines].
    destruct chain as [|p rest]; [cbn in Elen; lia|]. cbn.
    now intros [= <-].
  - destruct (segment_loop d im (segments_of chain) _) as [st| |] eqn:Eloop;
      cbn [mbind Result_bind]; try discriminate.
    destruct (save_remaining im chain st) as [[st' closed]| |] eqn:Esave;
      cbn [mbind Result_bind]; try discriminate.
    destruct (publish _ _ _) as [oc h]. intros [= <-]. cbn [closed_coastlines].
    f_equal. unfold save_remaining in Esave.
    destruct (accumulator st) as [|a acc] eqn:Eacc; cbn [is_empty] in Esave;
      [now injection Esave as _ <-|].
    destruct (does_coastline_cross_boundary st) eqn:Ecross; cbn [negb] in Esave.
    + destruct (last (a :: acc)); [|discriminate].
      destruct (head chain); [|discriminate].
      destruct (coord_eqb c c0).
      * destruct (bounded_coastlines st) as [|[? ?] ?]; [discriminate|].
        now injection Esave as _ <-.
      * now injection Esave as _ <-.
    + exfalso. destruct chain as [|p rest]; [cbn in Elen; lia|].
      unfold segments_of in Eloop. cbn [tail] in Eloop.
      destruct (segment_loop_uncrossed d im rest p _ _ Eloop Ecross) as [_ H].
      { rewrite Eacc. discriminate. }
      specialize (H eq_refl).
      assert (stays_inside d (p :: rest) = true)
        by (apply stays_inside_spec; split; assumption).
      congruence.
Qed.

Lemma coastline_loop_closed d im chains : forall cs cs',
  coastline_loop d im chains cs = Ok cs' ->
  closed_coastlines cs'
  = closed_coastlines cs ++ List.filter (stays_inside d) chains.
Proof.
  induction chains as [|c chains IH]; intros cs cs'; cbn [coastline_loop].
  - intros [= <-]. now rewrite app_nil_r.
  - destruct (process_coastline d im cs c) as [cs1| |] eqn:E;
      cbn [mbind Result_bind]; try discriminate.
    intros H. rewrite (IH _ _ H), (process_coastline_closed _ _ _ _ _ E).
    cbn [List.filter]. rewrite <- app_assoc.
    destruct (stays_inside d c); reflexivity.
Qed.

(** X8. Whatever the input chains and the state of the event lists, when
    [bound_and_sort_complete_coastlines] returns, its closed coastlines are
    exactly the input chains of at least two points whose points are all
    inside the map, unchanged and in the order of the input; every other
    chain contributes nothing to them. *)
Theorem closed_coastlines_are_the_inside_chains
    d chains h0 sup closed oc im h sup' :
  bound_and_sort_complete_coastlines d chains h0 sup
  = Ok (closed, oc, im, h, sup') ->
  closed = List.filter (stays_inside d) chains.
Proof.
  unfold bound_and_sort_complete_coastlines.
  destruct (coastline_loop d _ chains _) as [cs| |] eqn:Eloop;
    cbn [mbind Result_bind]; try discriminate.
  destruct (validate_intersection_map _ _) as [b| |];
    cbn [mbind Result_bind]; try discriminate.
  intros [= <- <- <- <- <-].
  apply (coastline_loop_closed d _ chains _ _ Eloop).
Qed.

Lemma closed_coastlines_witness :
  exists oc h,
    bound_and_sort_complete_coastlines R10 [island; corner_wrap] module_heap 0
    = Ok ([island], oc, EMPTY_INTERSECTION_MAP, h, 3%nat) /\
    [island] = List.filter (stays_inside R10) [island; corner_wrap].
Proof.
  eexists _, _.
  assert (H : bound_and_sort_complete_coastlines R10 [island; corner_wrap]
                module_heap 0
              = Ok ([island], _, EMPTY_INTERSECTION_MAP, _, 3%nat))
    by (vm_compute; reflexivity).
  split; [exact H|].
  exact (closed_coastlines_are_the_inside_chains R10 [island; corner_wrap]
           module_heap 0 _ _ _ _ _ H).
Defined.

(** ** The end of the walk when no list is shared *)

Lemma walk_step_cursor d oc im st st' :
  walk_step d oc im st = Ok st' ->
  (current_side st', current_index st')
  = if (length (events_on (w_heap st) im (current_side st))
        <=? current_index st)%nat
    then (NEXT_SIDE_MAP (current_side st), 0%nat)
    else (current_side st, S (current_index st)).
Proof.
  unfold walk_step, events_on.
  destruct (length _ <=? current_index st)%nat; [now intros [= <-]|].
  repeat match goal with
  | |- Ok _ = Ok _ -> _ => intros [= <-]; reflexivity
  | |- Err _ = Ok _ -> _ => discriminate
  | |- context [match ?x with _ => _ end] => destruct x eqn:?
  end.
Qed.

(** a step leaves the event lists alone, or appends an entering event to a
    list of the map of events put aside *)
Lemma walk_step_event_lists d oc im st st' :
  walk_step d oc im st = Ok st' ->
  (current_skipped_intersection_map st'
   = current_skipped_intersection_map st \/
   current_skipped_intersection_map st' = EMPTY_INTERSECTION_MAP) /\
  (event_lists (w_heap st') = event_lists (w_heap st) \/
   exists e,
     iis_entering e = true /\
     event_lists (w_heap st')
     = <[im_get (current_skipped_intersection_map st) (current_side st)
         := read_events (w_heap st)
              (im_get (current_skipped_intersection_map st) (current_side st))
            ++ [e]]> (event_lists (w_heap st))).
Proof.
  unfold walk_step.
  repeat match goal with
  | |- Ok _ = Ok _ -> _ => intros [= <-]; cbn
  | |- Err _ = Ok _ -> _ => discriminate
  | |- context [match ?x with _ => _ end] => destruct x eqn:?
  end;
  try (match goal with
       | H : alloc_line _ _ = _ |- _ => injection H as <- <-
       end; cbn);
  try (split; [auto | left; reflexivity]).
  split; [auto|]. right.
  match goal with
  | H : negb (iis_entering ?e) = false |- _ =>
      exists e; split; [destruct (iis_entering e); [reflexivity | discriminate]
                       | reflexivity]
  end.
Qed.

Lemma steps_to_start_advance len s0 k0 s i :
  (k0 < len s0)%nat -> (i <= len s)%nat -> (s, i) <> (s0, k0) ->
  forall s' i',
    (s', i') = (if (len s <=? i)%nat then (NEXT_SIDE_MAP s, 0%nat)
                else (s, S i)) ->
    steps_to_start len s0 k0 s i = S (steps_to_start len s0 k0 s' i') /\
    (i' <= len s')%nat.
Proof.
  intros Hk Hi Hne s' i'.
  destruct (Nat.leb_spec (len s) i) as [Hle|Hlt]; intros [= -> ->].
  - split; [|lia]. unfold steps_to_start.
    destruct s, s0; cbn [NEXT_SIDE_MAP to_start_from];
      repeat case_decide; try lia; try congruence; intuition (try lia; try congruence).
  - split; [|lia]. unfold steps_to_start.
    repeat case_decide; try lia;
      try (exfalso; apply Hne; f_equal; intuition lia);
      intuition (try lia; try congruence).
Qed.

Lemma steps_to_start_bound len s0 k0 s i :
  (k0 < len s0)%nat ->
  (steps_to_start len s0 k0 s i
   <= len TOP + len RIGHT + len BOTTOM + len LEFT + 4)%nat.
Proof.
  intros Hk. unfold steps_to_start.
  destruct s, s0; cbn [NEXT_SIDE_MAP to_start_from];
    repeat case_decide; try lia; try congruence;
    assert (i <= k0 \/ k0 < i)%nat as [?|?] by lia; try lia;
    exfalso; intuition congruence.
Qed.

(** the loop ends as soon as the lists it walks over keep their lengths *)
Lemma walk_loop_bounded d oc im s0 k0 (len : Side -> nat) (P : WalkState -> Prop) :
  (forall st st', P st -> walk_step d oc im st = Ok st' -> P st') ->
  (forall st s, P st -> length (events_on (w_heap st) im s) = len s) ->
  (k0 < len s0)%nat ->
  forall fuel st,
    P st ->
    (current_index st <= len (current_side st))%nat ->
    (steps_to_start len s0 k0 (current_side st) (current_index st) <= fuel)%nat ->
    (exists st', walk_loop fuel d oc im (s0, k0) st = Ok st' /\ P st') \/
    (exists e, walk_loop fuel d oc im (s0, k0) st = Err e).
Proof.
  intros Hstep Hlen Hk. induction fuel as [|fuel IH]; intros st HP Hi Hfuel;
    cbn [walk_loop]; destruct (back_at_start (s0, k0) st) eqn:Eb; eauto.
  - exfalso.
    assert (Hne : (current_side st, current_index st) <> (s0, k0)).
    { intros [= E1 E2]. unfold back_at_start in Eb. cbn [fst snd] in Eb.
      rewrite E1, E2, Nat.eqb_refl in Eb. rewrite bool_decide_eq_true_2 in Eb by reflexivity.
      discriminate. }
    destruct (if (len (current_side st) <=? current_index st)%nat
              then (NEXT_SIDE_MAP (current_side st), 0%nat)
              else (current_side st, S (current_index st))) as [s' i'] eqn:Ec.
    destruct (steps_to_start_advance len s0 k0 _ _ Hk Hi Hne s' i' (eq_sym Ec))
      as [E _].
    lia.
  - destruct (walk_step d oc im st) as [st1| |] eqn:Es; cbn [mbind Result_bind].
    + assert (Hne : (current_side st, current_index st) <> (s0, k0)).
      { intros [= E1 E2]. unfold back_at_start in Eb. cbn [fst snd] in Eb.
        rewrite E1, E2, Nat.eqb_refl in Eb.
        rewrite bool_decide_eq_true_2 in Eb by reflexivity. discriminate. }
      pose proof (walk_step_cursor _ _ _ _ _ Es) as Hc.
      rewrite (Hlen st _ HP) in Hc.
      destruct (steps_to_start_advance len s0 k0 _ _ Hk Hi Hne _ _ Hc) as [E Hi'].
      apply IH; [eapply Hstep; eassumption | exact Hi' | lia].
    + right. eauto.
    + exfalso. revert Es. unfold walk_step.
      repeat match goal with
      | |- Ok _ = OutOfFuel -> _ => discriminate
      | |- Err _ = OutOfFuel -> _ => discriminate
      | |- context [match ?x with _ => _ end] => destruct x eqn:?
      end.
Qed.

Lemma event_count_sum h im :
  event_count h im
  = (length (events_on h im TOP) + length (events_on h im RIGHT)
     + length (events_on h im BOTTOM) + length (events_on h im LEFT))%nat.
Proof.
  unfold event_count, all_events, all_sides. cbn [map concat].
  rewrite !length_app. cbn [length]. lia.
Qed.

Lemma walk_init_state oc im s0 k0 h st0 :
  walk_init oc im (s0, k0) h = Ok st0 ->
  (k0 < length (events_on h im s0))%nat /\
  w_heap st0 = h /\ current_side st0 = s0 /\ current_index st0 = S k0 /\
  current_skipped_intersection_map st0 = EMPTY_INTERSECTION_MAP /\
  looking_for st0 = look_exit /\ skipped_intersections st0 = [] /\
  new_closed_coastlines st0 = [].
Proof.
  unfold walk_init, events_on.
  destruct (read_events h (im_get im s0) !! k0) as [e|] eqn:E; [|discriminate].
  destruct (oc !! bounded_coastline_id e); [|discriminate].
  intros [= <-]. cbn. apply lookup_lt_Some in E. repeat split; auto.
Qed.

(** the invariant of a walk over a map that shares no list with the module
    constant: events are put aside in the lists of the constant, and the
    lists walked over do not change *)
Lemma unshared_step d oc im h st st' :
  unshared im ->
  current_skipped_intersection_map st = EMPTY_INTERSECTION_MAP /\
  (forall s, events_on (w_heap st) im s = events_on h im s) ->
  walk_step d oc im st = Ok st' ->
  current_skipped_intersection_map st' = EMPTY_INTERSECTION_MAP /\
  (forall s, events_on (w_heap st') im s = events_on h im s).
Proof.
  intros Hun [Hsk Hev] Hstep.
  destruct (walk_step_event_lists _ _ _ _ _ Hstep) as [Hsk' Hl].
  split; [destruct Hsk' as [->| ->]; auto|].
  intros s. rewrite <- Hev. unfold events_on, read_events.
  destruct Hl as [->|(e & _ & ->)]; [reflexivity|].
  rewrite Hsk. rewrite list_lookup_insert_ne; [reflexivity|].
  intros E. apply (Hun s (current_side st)). now symmetry.
Qed.

(** X9. When the intersection map shares no list with the module constant
    [EMPTY_INTERSECTION_MAP], the loop of the walker ends: started by
    [join_open_coastlines] at a valid starting point, it is back at that
    point, or has raised an error, after at most as many iterations as the
    map has events, plus four; the lists it walks over are then what they
    were. *)
Theorem walk_loop_ends_when_unshared d oc im sp h st0 fuel :
  unshared im ->
  walk_init oc im sp h = Ok st0 ->
  (event_count h im + 4 <= fuel)%nat ->
  (exists st, walk_loop fuel d oc im sp st0 = Ok st /\
              forall s, events_on (w_heap st) im s = events_on h im s) \/
  (exists e, walk_loop fuel d oc im sp st0 = Err e).
Proof.
  intros Hun Hinit Hfuel. destruct sp as [s0 k0].
  destruct (walk_init_state _ _ _ _ _ _ Hinit)
    as (Hk & Hh & Hs & Hi & Hsk & _).
  set (len := fun s => length (events_on h im s)).
  set (P := fun st => current_skipped_intersection_map st = EMPTY_INTERSECTION_MAP /\
                      forall s, events_on (w_heap st) im s = events_on h im s).
  destruct (walk_loop_bounded d oc im s0 k0 len P) with (fuel := fuel) (st := st0)
    as [(st & Hst & _ & Hev)|Herr].
  - intros st st' HP Hstep. eapply unshared_step; eassumption.
  - intros st s [_ Hev]. unfold len. now rewrite Hev.
  - exact Hk.
  - split; [exact Hsk|]. intros s. now rewrite Hh.
  - rewrite Hs, Hi. unfold len. lia.
  - etransitivity; [apply steps_to_start_bound; exact Hk|].
    unfold len. rewrite event_count_sum in Hfuel. lia.
  - left. eauto.
  - right. exact Herr.
Qed.

Lemma walk_loop_unshared_witness :
  exists st0,
    walk_init {[0%nat := 0%nat]} own_map (TOP, 0%nat) own_heap = Ok st0 /\
    ((exists st, walk_loop 6 R10 {[0%nat := 0%nat]} own_map (TOP, 0%nat) st0
                 = Ok st /\
                 forall s, events_on (w_heap st) own_map s
                           = events_on own_heap own_map s) \/
     (exists e, walk_loop 6 R10 {[0%nat := 0%nat]} own_map (TOP, 0%nat) st0
                = Err e)).
Proof.
  eexists.
  assert (H : walk_init {[0%nat := 0%nat]} own_map (TOP, 0%nat) own_heap = Ok _)
    by (vm_compute; reflexivity).
  split; [exact H|].
  apply (walk_loop_ends_when_unshared R10 {[0%nat := 0%nat]} own_map
           (TOP, 0%nat) own_heap _ 6).
  - intros s s'. destruct s, s'; discriminate.
  - exact H.
  - vm_compute. lia.
Defined.

(** ** The assembler *)

Lemma dict_set_elem {V} k (v : V) d k' v' :
  (k', v') ∈ dict_set k v d -> (k', v') = (k, v) \/ (k', v') ∈ d.
Proof.
  induction d as [|[k0 v0] d IH]; cbn [dict_set].
  - intros H. apply list_elem_of_singleton in H. now left.
  - destruct (Z.eqb k0 k).
    + intros H. apply elem_of_cons in H as [H|H]; [now left | right; now right].
    + intros H. apply elem_of_cons in H as [H|H]; [right; rewrite H; left|].
      destruct (IH H) as [E|E]; [now left | right; now right].
Qed.

Lemma dict_set_length {V} k (v : V) d :
  (length (dict_set k v d) <= S (length d))%nat.
Proof.
  induction d as [|[k0 v0] d IH]; cbn [dict_set length]; [lia|].
  destruct (Z.eqb k0 k); cbn [length]; lia.
Qed.

(** the sections built from the ways: stored under their identifiers, not
    used yet, with the coordinates of a way, and no more than there are
    ways *)
Lemma make_sections_spec coastlines : forall secs0 secs,
  make_sections coastlines secs0 = Ok secs ->
  (length secs <= length coastlines + length secs0)%nat /\
  forall k s, (k, s) ∈ secs ->
    (k, s) ∈ secs0 \/
    (section_id s = k /\ section_used s = false /\
     exists c, c ∈ coastlines /\ section_coords s = coast_coords c).
Proof.
  induction coastlines as [|c coastlines IH]; intros secs0 secs;
    cbn [make_sections].
  - intros [= <-]. split; [cbn; lia | auto].
  - destruct (head (coast_refs c)) as [a|]; [|discriminate].
    destruct (last (coast_refs c)) as [b|]; [|discriminate].
    intros H. apply IH in H as [Hlen Hin]. split.
    + pose proof (dict_set_length (coast_id c)
        (mkCoastlineSection (coast_id c) (coast_coords c) a b false) secs0).
      cbn [length]. lia.
    + intros k s Hks. destruct (Hin k s Hks) as [H|(H1 & H2 & c' & Hc' & H3)].
      * apply dict_set_elem in H as [[= -> ->]|H]; [|now left].
        right. cbn. repeat split. exists c. split; [left | reflexivity].
      * right. repeat split; auto. exists c'. split; [now right | exact H3].
Qed.

Lemma make_sections_ok coastlines : forall secs0,
  Forall (fun c => coast_refs c <> []) coastlines ->
  exists secs, make_sections coastlines secs0 = Ok secs.
Proof.
  induction coastlines as [|c coastlines IH]; intros secs0 Hall;
    cbn [make_sections]; [eauto|].
  apply Forall_cons in Hall as [Hc Hall].
  destruct (coast_refs c) as [|r refs] eqn:E; [contradiction|].
  cbn [head]. destruct (last (r :: refs)) as [b|] eqn:El.
  - apply IH. exact Hall.
  - apply last_None in El. discriminate.
Qed.

Lemma longest_from_elem secs : forall best n s,
  longest_from secs best n = Some s ->
  best = Some s \/ exists k, (k, s) ∈ secs.
Proof.
  induction secs as [|[k0 s0] secs IH]; intros best n s; cbn [longest_from].
  - now left.
  - destruct (n <? length (section_coords s0))%nat; intros H;
      apply IH in H as [H|[k H]].
    + injection H as <-. right. exists k0. left.
    + right. exists k. now right.
    + now left.
    + right. exists k. now right.
Qed.

Lemma find_extension_elem items cs ce k s b :
  find_extension items cs ce = Some (k, s, b) ->
  (k, s) ∈ items /\ section_used s = false.
Proof.
  induction items as [|[k0 s0] items IH]; cbn [find_extension]; [discriminate|].
  destruct (section_used s0) eqn:Eu.
  - intros H. apply IH in H as [H1 H2]. split; [now right | exact H2].
  - destruct (Z.eqb (section_start s0) ce).
    + intros [= <- <- <-]. split; [left | exact Eu].
    + destruct (Z.eqb (section_end s0) cs).
      * intros [= <- <- <-]. split; [left | exact Eu].
      * intros H. apply IH in H as [H1 H2]. split; [now right | exact H2].
Qed.

Lemma first_unused_elem secs s :
  first_unused secs = Some s ->
  (exists k, (k, s) ∈ secs) /\ section_used s = false.
Proof.
  induction secs as [|[k0 s0] secs IH]; cbn [first_unused]; [discriminate|].
  destruct (section_used s0) eqn:Eu.
  - intros H. apply IH in H as [[k H1] H2]. split; [exists k; now right | exact H2].
  - intros [= <-]. split; [exists k0; left | exact Eu].
Qed.

Lemma mark_used_le k secs : (unused_count (mark_used k secs) <= unused_count secs)%nat.
Proof.
  unfold unused_count, mark_used.
  induction secs as [|[k0 s0] secs IH]; cbn [map List.filter fst snd]; [lia|].
  destruct (Z.eqb k0 k); cbn [snd section_used negb];
    destruct (section_used s0); cbn [negb length]; lia.
Qed.

(** marking a section that is not used yet leaves fewer unused sections *)
Lemma mark_used_lt k s secs :
  (k, s) ∈ secs -> section_used s = false ->
  (unused_count (mark_used k secs) < unused_count secs)%nat.
Proof.
  intros Hin Hu. induction secs as [|[k0 s0] secs IH].
  - apply elem_of_nil in Hin. contradiction.
  - pose proof (mark_used_le k secs) as Hle.
    unfold unused_count, mark_used in *. cbn [map List.filter fst snd].
    apply elem_of_cons in Hin as [[= <- <-]|Hin].
    + rewrite Z.eqb_refl. cbn [snd section_used negb]. rewrite Hu.
      cbn [negb length]. lia.
    + specialize (IH Hin).
      destruct (Z.eqb k0 k); cbn [snd section_used negb];
        destruct (section_used s0); cbn [negb length]; lia.
Qed.

Lemma mark_used_elem k secs k' s' :
  (k', s') ∈ mark_used k secs ->
  exists s, (k', s) ∈ secs /\ section_id s' = section_id s /\
            section_coords s' = section_coords s.
Proof.
  unfold mark_used. intros H. apply list_elem_of_fmap in H as ([k0 s0] & E & Hin).
  cbn [fst snd] in E. destruct (Z.eqb k0 k); injection E as -> ->; eauto.
Qed.

Lemma mark_used_keyed k secs : keyed_by_id secs -> keyed_by_id (mark_used k secs).
Proof.
  intros Hk k' s' H. apply mark_used_elem in H as (s & Hin & Hid & _).
  rewrite Hid. apply (Hk _ _ Hin).
Qed.

Lemma tail_elem {A} (p : A) l : p ∈ tail l -> p ∈ l.
Proof. destruct l; cbn [tail]; [auto | intros H; now right]. Qed.

Lemma assembling_mark pts k secs chs cur a b a' b' c :
  assembling pts (mkAssemblerState secs chs cur a b) ->
  (forall p, p ∈ c -> p ∈ pts) ->
  assembling pts (mkAssemblerState (mark_used k secs) chs c a' b').
Proof.
  intros (Hk & Hs & Hc & Hch) Hnew. cbn in *. repeat split; cbn; auto.
  - apply mark_used_keyed, Hk.
  - intros k' s' p H Hp. apply mark_used_elem in H as (s & Hin & _ & Eco).
    rewrite Eco in Hp. apply (Hs _ _ _ Hin Hp).
Qed.

Lemma assembling_emit pts secs chs cur a b :
  assembling pts (mkAssemblerState secs chs cur a b) ->
  assembling pts
    (mkAssemblerState secs
       (if (2 <=? length cur)%nat then chs ++ [cur] else chs) cur a b).
Proof.
  intros (Hk & Hs & Hc & Hch).
  unfold assembling; cbn [sections chains current_chain] in *.
  split; [exact Hk|]. split; [exact Hs|]. split; [exact Hc|].
  destruct (2 <=? length cur)%nat eqn:E; [|exact Hch].
  apply Forall_app. split; [exact Hch|]. apply Forall_singleton.
  split; [apply Nat.leb_le, E | exact Hc].
Qed.

(** whatever the loop returns: chains of two points or more, made of points
    of the sections *)
Lemma chain_loop_assembling pts fuel : forall st r,
  assembling pts st -> chain_loop fuel st = Ok r ->
  Forall (fun c => (2 <= length c)%nat /\ forall p, p ∈ c -> p ∈ pts) r.
Proof.
  induction fuel as [|fuel IH]; intros [secs chs cur a b] r Hinv;
    cbn [chain_loop sections chains current_chain chain_start chain_end];
    [discriminate|].
  pose proof Hinv as (Hk & Hs & Hc & Hch). cbn in Hk, Hs, Hc, Hch.
  destruct (find_extension secs a b) as [[[k s] [|]]|] eqn:Ef.
  - apply find_extension_elem in Ef as [Hin _].
    apply IH. apply (assembling_mark _ _ _ _ _ _ _ _ _ _ Hinv).
    intros p Hp. apply elem_of_app in Hp as [Hp|Hp]; [auto|].
    apply (Hs _ _ _ Hin), tail_elem, Hp.
  - apply find_extension_elem in Ef as [Hin _].
    apply IH. apply (assembling_mark _ _ _ _ _ _ _ _ _ _ Hinv).
    intros p Hp. apply elem_of_app in Hp as [Hp|Hp]; [apply (Hs _ _ _ Hin Hp)|].
    apply Hc, tail_elem, Hp.
  - pose proof (assembling_emit _ _ _ _ _ _ Hinv) as Hinv'.
    destruct (first_unused secs) as [ns|] eqn:En.
    + apply first_unused_elem in En as [[k Hin] _].
      apply IH. apply (assembling_mark _ _ _ _ _ _ _ _ _ _ Hinv').
      intros p Hp. apply (Hs _ _ _ Hin Hp).
    + intros [= <-]. destruct Hinv' as (_ & _ & _ & H). exact H.
Qed.

(** the loop ends: every iteration but the last marks a section that was
    not used *)
Lemma chain_loop_ends fuel : forall st,
  keyed_by_id (sections st) ->
  (unused_count (sections st) < fuel)%nat ->
  exists r, chain_loop fuel st = Ok r.
Proof.
  induction fuel as [|fuel IH]; intros [secs chs cur a b] Hk Hlt;
    cbn [sections] in *; [lia|].
  cbn [chain_loop sections chains current_chain chain_start chain_end].
  destruct (find_extension secs a b) as [[[k s] [|]]|] eqn:Ef.
  - apply find_extension_elem in Ef as [Hin Hu].
    pose proof (mark_used_lt _ _ _ Hin Hu).
    apply IH; cbn [sections]; [apply mark_used_keyed, Hk | lia].
  - apply find_extension_elem in Ef as [Hin Hu].
    pose proof (mark_used_lt _ _ _ Hin Hu).
    apply IH; cbn [sections]; [apply mark_used_keyed, Hk | lia].
  - destruct (first_unused secs) as [ns|] eqn:En; [|eauto].
    apply first_unused_elem in En as [[k Hin] Hu].
    rewrite (Hk _ _ Hin).
    pose proof (mark_used_lt _ _ _ Hin Hu).
    apply IH; cbn [sections]; [apply mark_used_keyed, Hk | lia].
Qed.

Lemma unused_count_le secs : (unused_count secs <= length secs)%nat.
Proof.
  unfold unused_count. induction secs as [|[k s] secs IH]; cbn [List.filter length];
    [lia|].
  destruct (negb (section_used (snd (k, s)))); cbn [length]; lia.
Qed.

Lemma way_points_elem coastlines c p :
  c ∈ coastlines -> p ∈ coast_coords c -> p ∈ way_points coastlines.
Proof.
  intros Hc Hp. unfold way_points.
  induction coastlines as [|c0 cs IH]; [apply elem_of_nil in Hc; contradiction|].
  cbn [map concat]. apply elem_of_app.
  apply elem_of_cons in Hc as [<-|Hc]; [now left | right; auto].
Qed.

Lemma make_sections_assembling coastlines secs :
  make_sections coastlines [] = Ok secs ->
  (length secs <= length coastlines)%nat /\
  keyed_by_id secs /\
  (forall k s, (k, s) ∈ secs -> section_used s = false) /\
  (forall k s p, (k, s) ∈ secs -> p ∈ section_coords s ->
                 p ∈ way_points coastlines).
Proof.
  intros H. apply make_sections_spec in H as [Hlen Hin]. cbn [length] in Hlen.
  assert (Hin' : forall k s, (k, s) ∈ secs ->
            section_id s = k /\ section_used s = false /\
            exists c, c ∈ coastlines /\ section_coords s = coast_coords c).
  { intros k s Hks. destruct (Hin k s Hks) as [H|H]; [|exact H].
    apply elem_of_nil in H. contradiction. }
  split; [lia|]. split; [|split].
  - intros k s Hks. apply (Hin' k s Hks).
  - intros k s Hks. apply (Hin' k s Hks).
  - intros k s p Hks Hp. destruct (Hin' k s Hks) as (_ & _ & c & Hc & E).
    rewrite E in Hp. apply (way_points_elem _ _ _ Hc Hp).
Qed.

(** X10. [convert_coastline_ways_into_continuous_lines] ends within as many
    iterations of its loop as there are ways: when every way has a node
    reference it returns chains, and otherwise it raises IndexError. *)
Theorem assembler_ends (fuel : nat) (coastlines : list Coastline) :
  (length coastlines <= fuel)%nat ->
  (Forall (fun c => coast_refs c <> []) coastlines ->
   exists chains,
     convert_coastline_ways_into_continuous_lines fuel coastlines = Ok chains) /\
  (Exists (fun c => coast_refs c = []) coastlines ->
   convert_coastline_ways_into_continuous_lines fuel coastlines = Err IndexError).
Proof.
  intros Hfuel. split.
  - intros Hall. unfold convert_coastline_ways_into_continuous_lines.
    destruct (make_sections_ok coastlines [] Hall) as [secs Es].
    rewrite Es. cbn [mbind Result_bind].
    apply make_sections_assembling in Es as (Hlen & Hk & Hu & _).
    destruct (longest_from secs None 0) as [ls|] eqn:El; [|eauto].
    apply longest_from_elem in El as [El|[k Hin]]; [discriminate|].
    pose proof (mark_used_lt _ _ _ Hin (Hu _ _ Hin)) as Hlt.
    pose proof (unused_count_le secs).
    rewrite (Hk _ _ Hin).
    apply chain_loop_ends; cbn [sections]; [apply mark_used_keyed, Hk | lia].
  - intros Hex. unfold convert_coastline_ways_into_continuous_lines.
    assert (E : forall secs0, make_sections coastlines secs0 = Err IndexError).
    { clear Hfuel. induction Hex as [c cs Hc|c cs Hex IH]; intros secs0;
        cbn [make_sections].
      - rewrite Hc. reflexivity.
      - destruct (head (coast_refs c)); [|reflexivity].
        destruct (last (coast_refs c)); [apply IH | reflexivity]. }
    rewrite E. reflexivity.
Qed.

Lemma assembler_ends_witness :
  exists chains,
    convert_coastline_ways_into_continuous_lines 3 three_ways = Ok chains.
Proof.
  refine (proj1 (assembler_ends 3 three_ways _) _).
  - cbn. lia.
  - unfold three_ways. repeat constructor; discriminate.
Defined.

(** the assembler is its loop, started in a state that has the invariant *)
Lemma convert_starts_assembling (fuel : nat) (coastlines : list Coastline)
    (chains : list Line) :
  convert_coastline_ways_into_continuous_lines fuel coastlines = Ok chains ->
  chains = [] \/
  exists st, assembling (way_points coastlines) st /\
             chain_loop fuel st = Ok chains.
Proof.
  unfold convert_coastline_ways_into_continuous_lines.
  destruct (make_sections coastlines []) as [secs| |] eqn:Es;
    cbn [mbind Result_bind]; try discriminate.
  apply make_sections_assembling in Es as (_ & Hk & _ & Hs).
  destruct (longest_from secs None 0) as [ls|] eqn:El.
  - apply longest_from_elem in El as [El|[k Hin]]; [discriminate|].
    intros Hloop. right. eexists. split; [|exact Hloop].
    apply (assembling_mark _ _ secs [] [] 0%Z 0%Z).
    + repeat split; cbn; auto.
      * intros p Hp. apply elem_of_nil in Hp. contradiction.
    + intros p Hp. apply (Hs _ _ _ Hin Hp).
  - intros [= <-]. now left.
Qed.

(** X11. Every chain that [convert_coastline_ways_into_continuous_lines]
    returns has two points or more, and each of its points is a point of one
    of the ways. *)
Theorem assembler_chains_from_ways (fuel : nat) (coastlines : list Coastline)
    (chains : list Line) :
  convert_coastline_ways_into_continuous_lines fuel coastlines = Ok chains ->
  Forall (fun c => (2 <= length c)%nat /\
                   forall p, p ∈ c -> p ∈ way_points coastlines) chains.
Proof.
  intros Hconv.
  destruct (convert_starts_assembling _ _ _ Hconv) as [->|(st & Hinv & Hloop)].
  - constructor.
  - exact (chain_loop_assembling _ _ _ _ Hinv Hloop).
Qed.

Lemma assembler_chains_witness :
  Forall (fun c => (2 <= length c)%nat /\
                   forall p, p ∈ c -> p ∈ way_points three_ways)
         [[(0,0); (1,0); (2,0); (3,1)]%Q].
Proof.
  apply (assembler_chains_from_ways 3 three_ways).
  vm_compute. reflexivity.
Defined.

Lemma mark_used_points_le k secs :
  (unused_points (mark_used k secs) <= unused_points secs)%nat.
Proof.
  unfold mark_used.
  induction secs as [|[k0 s0] secs IH]; cbn [map unused_points fst snd]; [lia|].
  destruct (Z.eqb k0 k); cbn [snd section_used section_coords];
    destruct (section_used s0); lia.
Qed.

(** marking an unused section takes its points out of the unused ones *)
Lemma mark_used_points k s secs :
  (k, s) ∈ secs -> section_used s = false ->
  (unused_points (mark_used k secs) + length (section_coords s)
   <= unused_points secs)%nat.
Proof.
  intros Hin Hu. induction secs as [|[k0 s0] secs IH].
  - apply elem_of_nil in Hin. contradiction.
  - pose proof (mark_used_points_le k secs) as Hle.
    unfold mark_used in *. cbn [map unused_points fst snd].
    apply elem_of_cons in Hin as [[= <- <-]|Hin].
    + rewrite Z.eqb_refl. cbn [snd section_used section_coords]. rewrite Hu. lia.
    + specialize (IH Hin).
      destruct (Z.eqb k0 k); cbn [snd section_used section_coords];
        destruct (section_used s0); lia.
Qed.

Lemma length_tail_le {A} (l : list A) : (length (tail l) <= length l)%nat.
Proof. destruct l; cbn; lia. Qed.

Lemma chain_loop_points fuel : forall st r,
  keyed_by_id (sections st) ->
  chain_loop fuel st = Ok r ->
  (length (concat r)
   <= length (concat (chains st)) + length (current_chain st)
      + unused_points (sections st))%nat.
Proof.
  induction fuel as [|fuel IH]; intros [secs chs cur a b] r Hk;
    cbn [chain_loop sections chains current_chain chain_start chain_end] in *;
    [discriminate|].
  destruct (find_extension secs a b) as [[[k s] [|]]|] eqn:Ef.
  - apply find_extension_elem in Ef as [Hin Hu].
    pose proof (mark_used_points _ _ _ Hin Hu) as Hm.
    pose proof (length_tail_le (section_coords s)) as Ht.
    intros H. apply IH in H; [|apply mark_used_keyed, Hk].
    cbn [sections chains current_chain] in H. rewrite length_app in H. lia.
  - apply find_extension_elem in Ef as [Hin Hu].
    pose proof (mark_used_points _ _ _ Hin Hu) as Hm.
    pose proof (length_tail_le cur) as Ht.
    intros H. apply IH in H; [|apply mark_used_keyed, Hk].
    cbn [sections chains current_chain] in H. rewrite length_app in H. lia.
  - assert (Hemit : (length (concat
              (if (2 <=? length cur)%nat then chs ++ [cur] else chs))
            <= length (concat chs) + length cur)%nat).
    { destruct (2 <=? length cur)%nat; [|lia].
      rewrite concat_app, length_app. cbn [concat]. rewrite app_nil_r. lia. }
    destruct (first_unused secs) as [ns|] eqn:En.
    + apply first_unused_elem in En as [[k Hin] Hu].
      rewrite (Hk _ _ Hin).
      pose proof (mark_used_points _ _ _ Hin Hu) as Hm.
      intros H. apply IH in H; [|apply mark_used_keyed, Hk].
      cbn [sections chains current_chain] in H. unfold Line, Coord in *. lia.
    + intros [= <-]. eapply Nat.le_trans; [exact Hemit | lia].
Qed.

Lemma dict_set_points k v d :
  (unused_points (dict_set k v d)
   <= unused_points d + length (section_coords v))%nat.
Proof.
  induction d as [|[k0 v0] d IH]; cbn [dict_set unused_points snd].
  - destruct (section_used v); lia.
  - destruct (Z.eqb k0 k); cbn [unused_points snd].
    + destruct (section_used v), (section_used v0); lia.
    + destruct (section_used v0); lia.
Qed.

Lemma make_sections_points coastlines : forall secs0 secs,
  make_sections coastlines secs0 = Ok secs ->
  (unused_points secs
   <= unused_points secs0 + length (way_points coastlines))%nat.
Proof.
  induction coastlines as [|c coastlines IH]; intros secs0 secs;
    cbn [make_sections].
  - intros [= <-]. lia.
  - destruct (head (coast_refs c)) as [a|]; [|discriminate].
    destruct (last (coast_refs c)) as [b|]; [|discriminate].
    intros H. apply IH in H.
    pose proof (dict_set_points (coast_id c)
      (mkCoastlineSection (coast_id c) (coast_coords c) a b false) secs0) as Hd.
    cbn [section_coords] in Hd.
    unfold way_points in *. cbn [map concat]. rewrite length_app. lia.
Qed.

(** X12. Joining adds no point: the chains that
    [convert_coastline_ways_into_continuous_lines] returns have together no
    more points than the ways it was given. *)
Theorem assembler_adds_no_point (fuel : nat) (coastlines : list Coastline)
    (chains : list Line) :
  convert_coastline_ways_into_continuous_lines fuel coastlines = Ok chains ->
  (length (concat chains) <= length (way_points coastlines))%nat.
Proof.
  unfold convert_coastline_ways_into_continuous_lines.
  destruct (make_sections coastlines []) as [secs| |] eqn:Es;
    cbn [mbind Result_bind]; try discriminate.
  pose proof (make_sections_points _ _ _ Es) as Hpts.
  apply make_sections_assembling in Es as (_ & Hk & Hu & _).
  destruct (longest_from secs None 0) as [ls|] eqn:El.
  - apply longest_from_elem in El as [El|[k Hin]]; [discriminate|].
    rewrite (Hk _ _ Hin).
    pose proof (mark_used_points _ _ _ Hin (Hu _ _ Hin)) as Hm.
    intros H. apply chain_loop_points in H; [|apply mark_used_keyed, Hk].
    cbn [sections current_chain] in H. simpl concat in H. simpl length in H.
    change (unused_points []) with O in Hpts. unfold Line, Coord in *. lia.
  - intros [= <-]. cbn. lia.
Qed.

Lemma assembler_adds_no_point_witness :
  (length (concat [[(0,0); (1,0); (2,0); (3,1)]%Q])
   <= length (way_points three_ways))%nat.
Proof.
  apply (assembler_adds_no_point 3 three_ways).
  vm_compute. reflexivity.
Defined.

(** ** The configuration *)

Section Config.
Local Open Scope Q_scope.

Lemma Qlt_bool_false a b : Qlt_bool a b = false <-> b <= a.
Proof.
  unfold Qlt_bool. rewrite negb_false_iff. apply Qle_bool_iff.
Qed.

Lemma Qeq_bool_false a b : Qeq_bool a b = false <-> ~ a == b.
Proof.
  split.
  - intros H E. apply Qeq_bool_iff in E. congruence.
  - intros H. destruct (Qeq_bool a b) eqn:E; [|reflexivity].
    apply Qeq_bool_iff in E. contradiction.
Qed.

(** X13. [MapConfig] accepts its arguments exactly when the relation
    identifier and both corners are given, the latitudes lie in [-90, 90],
    the longitudes in [-180, 180], and the bottom left corner is strictly
    below and strictly to the left of the top right corner; the map
    dimensions built from an accepted configuration then have
    [min_lat < max_lat] and [min_lon < max_lon].  In every other case the
    constructor raises ValueError. *)
Theorem MapConfig_init_accepts (pbf : string) (bl tr : option (Q * Q))
    (rel : option Z) :
  (forall config,
     MapConfig_init pbf bl tr rel = Ok config <->
     (pbf_file config = pbf /\
      bl = Some (bbox_bottom_left_coord config) /\
      tr = Some (bbox_top_right_coord config) /\
      rel = Some (boundary_relation_id config) /\
      let d := map_dimensions_of config in
      (-90 <= min_lat d /\ min_lat d < max_lat d /\ max_lat d <= 90) /\
      (-180 <= min_lon d /\ min_lon d < max_lon d /\ max_lon d <= 180))) /\
  ((exists config, MapConfig_init pbf bl tr rel = Ok config) \/
   (exists msg, MapConfig_init pbf bl tr rel = Err (ValueError msg))).
Proof.
  split.
  - intros config. unfold MapConfig_init, map_dimensions_of, MapDimensions_init.
    cbn [min_lat max_lat min_lon max_lon]. split.
    + destruct rel as [r|]; [|discriminate].
      destruct bl as [b|]; [|discriminate].
      destruct tr as [t|]; [|discriminate].
      destruct (Qlt_bool (fst t) (fst b)) eqn:E1; [discriminate|].
      destruct (Qlt_bool (snd t) (snd b)) eqn:E2; [discriminate|].
      destruct (Qlt_bool (fst b) (-90) || Qlt_bool 90 (fst b)) eqn:E3;
        [discriminate|].
      destruct (Qlt_bool (snd b) (-180) || Qlt_bool 180 (snd b)) eqn:E4;
        [discriminate|].
      destruct (Qlt_bool (fst t) (-90) || Qlt_bool 90 (fst t)) eqn:E5;
        [discriminate|].
      destruct (Qlt_bool (snd t) (-180) || Qlt_bool 180 (snd t)) eqn:E6;
        [discriminate|].
      destruct (Qeq_bool (fst b) (fst t) || Qeq_bool (snd b) (snd t)) eqn:E7;
        [discriminate|].
      intros [= <-]. cbn [pbf_file bbox_bottom_left_coord bbox_top_right_coord
                           boundary_relation_id].
      apply orb_false_iff in E3 as [E3 E3'], E4 as [E4 E4'], E5 as [E5 E5'],
        E6 as [E6 E6'], E7 as [E7 E7'].
      apply Qlt_bool_false in E1, E2, E3, E3', E4, E4', E5, E5', E6, E6'.
      apply Qeq_bool_false in E7, E7'.
      repeat split; try reflexivity; try assumption.
      * apply Qle_lteq in E1 as [E1|E1]; [exact E1 | contradiction].
      * apply Qle_lteq in E2 as [E2|E2]; [exact E2 | contradiction].
    + destruct config as [f b t r].
      cbn [pbf_file bbox_bottom_left_coord bbox_top_right_coord
           boundary_relation_id].
      intros (-> & -> & -> & -> & (H1 & H2 & H3) & (H4 & H5 & H6)).
      assert (F : forall x y, y <= x -> Qlt_bool x y = false)
        by (intros x y; apply Qlt_bool_false).
      rewrite (F (fst t) (fst b)) by lra.
      rewrite (F (snd t) (snd b)) by lra.
      rewrite (F (fst b) (-90)), (F 90 (fst b)) by lra.
      rewrite (F (snd b) (-180)), (F 180 (snd b)) by lra.
      rewrite (F (fst t) (-90)), (F 90 (fst t)) by lra.
      rewrite (F (snd t) (-180)), (F 180 (snd t)) by lra.
      cbn [orb].
      rewrite (proj2 (Qeq_bool_false (fst b) (fst t))) by lra.
      rewrite (proj2 (Qeq_bool_false (snd b) (snd t))) by lra.
      reflexivity.
  - unfold MapConfig_init.
    destruct rel as [r|]; [|right; eauto].
    destruct bl as [b|]; [|right; eauto].
    destruct tr as [t|]; [|right; eauto].
    repeat (match goal with
            | |- context [if ?c then _ else _] => destruct c; [right; eauto|]
            end).
    left. eauto.
Qed.

End Config.

(** ** Registering a way *)

Lemma process_tags_spec way coords coastlines tags :
  process_tags way coords tags coastlines
  = (test_tags tags,
     if test_tags tags then add_coastline way coords coastlines
     else coastlines).
Proof.
  induction tags as [|t tags IH]; cbn [process_tags test_tags]; [reflexivity|].
  destruct (is_natural_coastline t); [reflexivity | exact IH].
Qed.

Lemma test_tags_spec tags :
  test_tags tags = true <-> mkTag "natural" "coastline" ∈ tags.
Proof.
  induction tags as [|[k v] tags IH]; cbn [test_tags].
  - split; [discriminate | intros H; apply elem_of_nil in H; contradiction].
  - unfold is_natural_coastline. cbn [tag_k tag_v].
    destruct (String.eqb k "natural") eqn:Ek;
      destruct (String.eqb v "coastline") eqn:Ev; cbn [andb].
    1: { apply String.eqb_eq in Ek, Ev. subst. split; [left | reflexivity]. }
    all: rewrite IH; split; [intros H; now right|];
      intros H; apply elem_of_cons in H as [E|H]; [|exact H].
    all: injection E as E1 E2; subst k v.
    all: rewrite String.eqb_refl in Ek, Ev; congruence.
Qed.

(** X14. [process_way_coastline] answers what [test_way_for_coastline]
    answers, that is whether the way carries the tag natural=coastline; when
    it does, the way is appended once to the handler's coastlines, with its
    identifier, the given coordinates and the references of its nodes, however
    many times the tag is there, and otherwise the coastlines are left as
    they are. *)
Theorem process_way_coastline_registers (way : Way) (coords : Line)
    (coastlines : list Coastline) :
  (test_way_for_coastline way = true
   <-> mkTag "natural" "coastline" ∈ way_tags way) /\
  process_way_coastline way coords coastlines
  = (test_way_for_coastline way,
     if test_way_for_coastline way
     then coastlines ++ [mkCoastline (way_id way) coords (way_nodes way)]
     else coastlines).
Proof.
  split; [apply test_tags_spec | apply process_tags_spec].
Qed.

(** ** The assembler and the clipper together *)

(** X15. The closed coastlines that [bound_and_sort_complete_coastlines]
    returns for the chains of [convert_coastline_ways_into_continuous_lines]
    are exactly the chains whose points are all inside the map, and they are
    made of points of the ways. *)
Theorem closed_coastlines_of_ways (fuel : nat) (d : MapDimensions)
    (coastlines : list Coastline) (chains : list Line) (h0 : Heap)
    (sup : nat) closed oc im h sup' :
  convert_coastline_ways_into_continuous_lines fuel coastlines = Ok chains ->
  bound_and_sort_complete_coastlines d chains h0 sup
  = Ok (closed, oc, im, h, sup') ->
  closed = List.filter (forallb (fun q => is_inside_map q d)) chains /\
  Forall (fun c => forall p, p ∈ c ->
            p ∈ way_points coastlines /\ is_inside_map p d = true) closed.
Proof.
  intros Hconv.
  assert (Hchains : Forall (fun c => (2 <= length c)%nat /\
                      forall p, p ∈ c -> p ∈ way_points coastlines) chains).
  { destruct (convert_starts_assembling _ _ _ Hconv)
      as [->|(st & Hinv & Hloop)]; [constructor|].
    exact (chain_loop_assembling _ _ _ _ Hinv Hloop). }
  clear Hconv. rename Hchains into Hconv.
  unfold bound_and_sort_complete_coastlines.
  destruct (coastline_loop d _ chains _) as [cs| |] eqn:Eloop;
    cbn [mbind Result_bind]; try discriminate.
  destruct (validate_intersection_map _ _) as [b| |];
    cbn [mbind Result_bind]; try discriminate.
  intros [= <- <- <- <- <-].
  rewrite (coastline_loop_closed d _ chains _ _ Eloop). cbn [closed_coastlines app].
  clear Eloop. induction Hconv as [|c chains [Hlen Hpts] Hall IH];
    [split; [reflexivity | constructor]|].
  destruct IH as [IH1 IH2]. cbn [List.filter].
  assert (Es : stays_inside d c = forallb (fun q => is_inside_map q d) c).
  { unfold stays_inside. apply Nat.leb_le in Hlen. now rewrite Hlen. }
  rewrite Es.
  destruct (forallb (fun q => is_inside_map q d) c) eqn:Ein.
  - split; [now rewrite IH1|]. constructor; [|exact IH2].
    intros p Hp. split; [apply Hpts, Hp|].
    rewrite forallb_forall in Ein. apply Ein, list_elem_of_In, Hp.
  - split; assumption.
Qed.

Lemma closed_coastlines_of_ways_witness :
  exists oc h sup',
    convert_coastline_ways_into_continuous_lines 4 four_ways
    = Ok [assembled_chain; corner_wrap] /\
    bound_and_sort_complete_coastlines R10 [assembled_chain; corner_wrap]
      module_heap 0
    = Ok ([assembled_chain], oc, EMPTY_INTERSECTION_MAP, h, sup') /\
    [assembled_chain]
    = List.filter (forallb (fun q => is_inside_map q R10))
        [assembled_chain; corner_wrap] /\
    Forall (fun c => forall p, p ∈ c ->
              p ∈ way_points four_ways /\ is_inside_map p R10 = true)
           [assembled_chain].
Proof.
  eexists _, _, _.
  assert (H1 : convert_coastline_ways_into_continuous_lines 4 four_ways
               = Ok [assembled_chain; corner_wrap])
    by (vm_compute; reflexivity).
  assert (H2 : bound_and_sort_complete_coastlines R10
                 [assembled_chain; corner_wrap] module_heap 0
               = Ok ([assembled_chain], _, EMPTY_INTERSECTION_MAP, _, _))
    by (vm_compute; reflexivity).
  split; [exact H1|]. split; [exact H2|].
  exact (closed_coastlines_of_ways 4 R10 four_ways
           [assembled_chain; corner_wrap] module_heap 0 _ _ _ _ _ H1 H2).
Defined.

(** ** Chains that never cross the boundary *)

Lemma find_segment_outside p1 p2 d :
  is_inside_map p1 d = false -> is_inside_map p2 d = false ->
  find_segment_intersection_with_boundary p1 p2 d = Ok Outside.
Proof.
  intros H1 H2. unfold find_segment_intersection_with_boundary.
  now rewrite H1, H2.
Qed.

(** outside segments leave an empty accumulator, and everything else, as
    they are *)
Lemma segment_loop_outside d im rest : forall p st,
  accumulator st = [] ->
  Forall (fun q => is_inside_map q d = false) (p :: rest) ->
  segment_loop d im (zip (p :: rest) rest) st = Ok st.
Proof.
  induction rest as [|q rest IH]; intros p st Hacc Hout; [reflexivity|].
  apply Forall_cons in Hout as [Hp Hout].
  assert (Hq : is_inside_map q d = false) by (apply Forall_cons in Hout; tauto).
  change (zip (p :: q :: rest) (q :: rest))
    with ((p, q) :: zip (q :: rest) rest).
  cbn [segment_loop]. unfold process_segment at 1.
  rewrite (find_segment_outside p q d Hp Hq). cbn [mbind Result_bind].
  rewrite Hacc. cbn [is_empty]. apply IH; assumption.
Qed.

Lemma process_coastline_uncrossed d im cs c :
  uncrossed d c ->
  exists sup',
    process_coastline d im cs c
    = Ok (mkClipState (closed_coastlines cs ++ List.filter (stays_inside d) [c])
            (open_coastlines cs) (heap cs) sup').
Proof.
  intros Hc. unfold process_coastline, stays_inside. cbn [List.filter].
  destruct (length c <? 2)%nat eqn:E.
  - apply Nat.ltb_lt in E.
    assert (E2 : (2 <=? length c)%nat = false) by (apply Nat.leb_gt; lia).
    rewrite E2. cbn [andb]. rewrite app_nil_r. exists (supply cs).
    now destruct cs.
  - apply Nat.ltb_ge in E.
    assert (E2 : (2 <=? length c)%nat = true) by (apply Nat.leb_le; lia).
    rewrite E2. cbn [andb generate_bounded_coastline_id].
    destruct Hc as [Hin|Hout].
    + rewrite segment_loop_all_inside by assumption. cbn [mbind Result_bind].
      assert (Hall : forallb (fun q => is_inside_map q d) c = true).
      { apply forallb_forall. intros q Hq.
        rewrite Forall_forall in Hin. apply Hin, list_elem_of_In, Hq. }
      rewrite Hall.
      unfold save_remaining.
      cbn [accumulator does_coastline_cross_boundary bounded_coastlines].
      destruct c as [|p rest]; [cbn in E; lia|].
      cbn. eauto.
    + destruct c as [|p rest]; [cbn in E; lia|].
      unfold segments_of. cbn [tail].
      rewrite segment_loop_outside by (cbn; auto). cbn [mbind Result_bind].
      apply Forall_cons in Hout as [Hp _].
      cbn [forallb]. rewrite Hp. cbn. rewrite app_nil_r. eauto.
Qed.

Lemma coastline_loop_uncrossed d im chains : forall cs,
  Forall (uncrossed d) chains ->
  exists sup',
    coastline_loop d im chains cs
    = Ok (mkClipState
            (closed_coastlines cs ++ List.filter (stays_inside d) chains)
            (open_coastlines cs) (heap cs) sup').
Proof.
  induction chains as [|c chains IH]; intros cs Hall.
  - cbn. rewrite app_nil_r. exists (supply cs). now destruct cs.
  - apply Forall_cons in Hall as [Hc Hall]. cbn [coastline_loop].
    destruct (process_coastline_uncrossed d im cs c Hc) as [sup1 ->].
    cbn [mbind Result_bind].
    destruct (IH (mkClipState
                    (closed_coastlines cs ++ List.filter (stays_inside d) [c])
                    (open_coastlines cs) (heap cs) sup1) Hall) as [sup2 ->].
    exists sup2. cbn [closed_coastlines open_coastlines heap List.filter].
    rewrite <- app_assoc. do 2 f_equal.
    destruct (stays_inside d c); reflexivity.
Qed.

(** X16. When no chain crosses the boundary, each one having all its points
    inside the map or all its points outside, the clipper started on a
    freshly loaded module records no intersection, the walker is not
    started, and [all_coastlines] is the list of the chains of two points or
    more that are inside, closed or not; chains outside are dropped. *)
Theorem uncrossed_chains_are_kept_or_dropped d chains sup fuel :
  Forall (uncrossed d) chains ->
  (exists sup',
     bound_and_sort_complete_coastlines d chains module_heap sup
     = Ok (List.filter (stays_inside d) chains, ∅, EMPTY_INTERSECTION_MAP,
           module_heap, sup')) /\
  all_coastlines fuel d chains module_heap sup
  = Ok (List.filter (stays_inside d) chains, module_heap).
Proof.
  intros Hall.
  destruct (coastline_loop_uncrossed d (dict_copy EMPTY_INTERSECTION_MAP)
              chains (mkClipState [] ∅ module_heap sup) Hall) as [sup' Hloop].
  cbn [closed_coastlines open_coastlines heap app] in Hloop.
  assert (Hb : bound_and_sort_complete_coastlines d chains module_heap sup
               = Ok (List.filter (stays_inside d) chains, ∅,
                     EMPTY_INTERSECTION_MAP, module_heap, sup')).
  { unfold bound_and_sort_complete_coastlines. rewrite Hloop. reflexivity. }
  split; [eauto|].
  unfold all_coastlines. rewrite Hb. reflexivity.
Qed.

Lemma uncrossed_chains_witness :
  Forall (uncrossed R10) uncrossed_chains /\
  all_coastlines 0 R10 uncrossed_chains module_heap 0
  = Ok ([island; [(1,1); (2,2)]%Q], module_heap).
Proof.
  assert (H : Forall (uncrossed R10) uncrossed_chains).
  { unfold uncrossed_chains, island.
    repeat (apply Forall_cons; split); [left | left | right | left | constructor];
      repeat constructor. }
  split; [exact H|].
  exact (proj2 (uncrossed_chains_are_kept_or_dropped R10 uncrossed_chains 0 0 H)).
Defined.

(** ** When the walk is started *)

Lemma find_start_none h im :
  find_intersection_map_starting_point h im = None <->
  forall e, e ∈ all_events h im -> iis_entering e = false.
Proof.
  unfold find_intersection_map_starting_point, all_events, all_sides.
  cbn [find_start_from map concat]. rewrite app_nil_r.
  split.
  - destruct (first_entering (events_on h im TOP)) eqn:ET; [discriminate|].
    destruct (first_entering (events_on h im RIGHT)) eqn:ER; [discriminate|].
    destruct (first_entering (events_on h im BOTTOM)) eqn:EB; [discriminate|].
    destruct (first_entering (events_on h im LEFT)) eqn:EL; [discriminate|].
    intros _ e He. rewrite !elem_of_app in He.
    destruct He as [He|[He|[He|He]]].
    + apply (proj1 (first_entering_none _) ET e He).
    + apply (proj1 (first_entering_none _) ER e He).
    + apply (proj1 (first_entering_none _) EB e He).
    + apply (proj1 (first_entering_none _) EL e He).
  - intros H.
    assert (F : forall s, first_entering (events_on h im s) = None).
    { intros s. apply first_entering_none. intros e He. apply H.
      rewrite !elem_of_app. destruct s; auto. }
    now rewrite !F.
Qed.

Lemma none_entering_counts evs :
  (forall e, e ∈ evs -> iis_entering e = false) ->
  count_entering evs = O /\ count_exiting evs = length evs.
Proof.
  unfold count_entering, count_exiting.
  induction evs as [|e evs IH]; intros H; [split; reflexivity|].
  assert (He : iis_entering e = false) by (apply H; left).
  destruct IH as [IH1 IH2]; [intros e' He'; apply H; now right|].
  rewrite filter_cons_False by congruence.
  rewrite filter_cons_True by exact He.
  cbn [length]. split; [exact IH1 | now rewrite IH2].
Qed.

(** X17. When [bound_and_sort_complete_coastlines] returns, the map it
    returns has a starting point unless it holds no event at all: the walk
    is skipped only when nothing crossed the boundary. *)
Theorem starting_point_unless_no_event d chains h0 sup closed oc im h sup' :
  bound_and_sort_complete_coastlines d chains h0 sup
  = Ok (closed, oc, im, h, sup') ->
  (find_intersection_map_starting_point h im = None <-> all_events h im = []).
Proof.
  unfold bound_and_sort_complete_coastlines.
  destruct (coastline_loop d _ chains _) as [cs| |] eqn:Eloop;
    cbn [mbind Result_bind]; try discriminate.
  destruct (validate_intersection_map _ _) as [b| |] eqn:Ev;
    cbn [mbind Result_bind]; try discriminate.
  intros [= <- <- <- <- <-].
  unfold validate_intersection_map in Ev. cbv zeta in Ev.
  destruct (Nat.eqb_spec
              (count_entering (all_events
                 (sort_sides (dict_copy EMPTY_INTERSECTION_MAP) (heap cs))
                 (dict_copy EMPTY_INTERSECTION_MAP)))
              (count_exiting (all_events
                 (sort_sides (dict_copy EMPTY_INTERSECTION_MAP) (heap cs))
                 (dict_copy EMPTY_INTERSECTION_MAP)))) as [Hbal|Hbal];
    [|discriminate].
  clear Ev. rewrite find_start_none. split.
  - intros Hnone. destruct (none_entering_counts _ Hnone) as [H1 H2].
    rewrite H1, H2 in Hbal. symmetry in Hbal.
    now apply length_zero_iff_nil in Hbal.
  - intros ->. intros e He. apply elem_of_nil in He. contradiction.
Qed.

Lemma starting_point_witness :
  exists closed oc h sup',
    bound_and_sort_complete_coastlines R10 nested_rings module_heap 0
    = Ok (closed, oc, EMPTY_INTERSECTION_MAP, h, sup') /\
    (find_intersection_map_starting_point h EMPTY_INTERSECTION_MAP = None
     <-> all_events h EMPTY_INTERSECTION_MAP = []).
Proof.
  eexists _, _, _, _.
  assert (H : bound_and_sort_complete_coastlines R10 nested_rings module_heap 0
              = Ok (_, _, EMPTY_INTERSECTION_MAP, _, _))
    by (vm_compute; reflexivity).
  split; [exact H|].
  exact (starting_point_unless_no_event R10 nested_rings module_heap 0
           _ _ _ _ _ H).
Defined.
